(** * Data association of deep_sort_cpp: [src/linear_assignment.cpp]

    A shallow embedding of the three functions of the file,
    [min_cost_matching], [matching_cascade] and [gate_cost_matrix], and the
    properties of their results.

    - [float] values are IEEE 754 binary32 numbers, on the Standard Library's
      [SpecFloat]; the sum [max_distance+1e-5] is a binary64 sum, rounded to
      binary32 when it is used as an [Eigen::MatrixXf] coefficient.
    - [Eigen::MatrixXf] is its dimensions and its column-major storage.
    - The output containers [matches], [unmatched_tracks] and
      [unmatched_detections] are caller-supplied vectors reached through
      pointers: they are fields of a store that every function receives with
      whatever the caller left in them.
    - An out-of-range access ([operator[]] past the end, an Eigen coefficient
      outside the matrix) is undefined behaviour: execution stops in [Fault].
    - The assignment solver ([AssignmentProblemSolver::Solve]), the Kalman
      filter's gating distance and the table [chi2inv95] live outside the file
      and are parameters. *)

From Stdlib Require Import List ZArith Bool Lia Permutation PeanoNat.
From Stdlib Require Import Floats.SpecFloat.
Import ListNotations.

Local Open Scope Z_scope.

(** ** Floating-point numbers *)

Module F32.

Definition float := spec_float.

Definition prec32 : Z := 24.
Definition emax32 : Z := 128.
Definition prec64 : Z := 53.
Definition emax64 : Z := 1024.

(** Conversion [float -> double] (exact) and [double -> float] (rounded to
    nearest, ties to even). *)
Definition to_double (x : float) : spec_float :=
  match x with
  | S754_finite s m e => binary_round prec64 emax64 s m e
  | _ => x
  end.

Definition of_double (x : spec_float) : float :=
  match x with
  | S754_finite s m e => binary_round prec32 emax32 s m e
  | _ => x
  end.

(** The [double] literal [1e-5], that is 0x3EE4F8B588E368F1. *)
Definition double_1em5 : spec_float :=
  S754_finite false 5902958103587057 (-69).

(** An integer as a [float]. *)
Definition of_Z (z : Z) : float := binary_normalize prec32 emax32 z 0 false.

(** [a > b] and [a <= b] on floats: both are false on a NaN. *)
Definition gt (a b : float) : bool := SFltb b a.
Definition le (a b : float) : bool := SFleb a b.

(** [std::min(a, b)], the scalar kernel of Eigen's coefficient-wise [min]:
    [(b < a) ? b : a]. *)
Definition min (a b : float) : float := if SFltb b a then b else a.

End F32.

Abbreviation float := F32.float.

(** ** Eigen::MatrixXf *)

Record MatrixXf : Type := mkMatrix {
  rows : nat;
  cols : nat;
  data : list float   (* column-major: coefficient (i, j) is at [i + rows * j] *)
}.

Definition wf_matrix (m : MatrixXf) : Prop :=
  length (data m) = (rows m * cols m)%nat.

(** [m(i, j)] with Eigen's index check. *)
Definition coeff (m : MatrixXf) (i j : nat) : option float :=
  if (i <? rows m)%nat && (j <? cols m)%nat
  then nth_error (data m) (i + rows m * j)
  else None.

Fixpoint set_at {A : Type} (l : list A) (n : nat) (x : A) : list A :=
  match l, n with
  | [], _ => []
  | _ :: t, O => x :: t
  | h :: t, S n' => h :: set_at t n' x
  end.

(** [m(i, j) = v] with Eigen's index check. *)
Definition set_coeff (m : MatrixXf) (i j : nat) (v : float) : option MatrixXf :=
  if (i <? rows m)%nat && (j <? cols m)%nat && (i + rows m * j <? length (data m))%nat
  then Some (mkMatrix (rows m) (cols m) (set_at (data m) (i + rows m * j) v))
  else None.

(** [m.array().min(b)] *)
Definition cwise_min (m : MatrixXf) (b : float) : MatrixXf :=
  mkMatrix (rows m) (cols m) (map (fun a => F32.min a b) (data m)).

(** ** Tracks, detections, matches *)

Record Track : Type := mkTrack {
  mean_ : MatrixXf;
  cov_ : MatrixXf;
  time_since_update_ : Z
}.

Record Detection : Type := mkDetection {
  to_xyah : list float
}.

Record Match : Type := mkMatch {
  track_idx : Z;
  detection_idx : Z
}.

Definition Metric : Type :=
  list Track -> list Detection -> list Z -> list Z -> MatrixXf.

(** [v[i]] for an [int] index: the index is converted to [size_t], so a
    negative one is out of range as well. *)
Definition vec_at {A : Type} (v : list A) (i : Z) : option A :=
  if i <? 0 then None else nth_error v (Z.to_nat i).

(** ** The store: output containers and the calls made to collaborators *)

Inductive Event : Type :=
| EvMetric (track_indices detection_indices : list Z)
| EvSolve (cost_matrix_vec : list float) (N M : nat).

Record Store : Type := mkStore {
  matches : list Match;
  unmatched_tracks : list Z;
  unmatched_detections : list Z;
  trace : list Event
}.

Inductive Res (A : Type) : Type :=
| Ok (a : A) (s : Store)
| Fault (s : Store).
Arguments Ok {A} a s.
Arguments Fault {A} s.

Definition Cmd (A : Type) : Type := Store -> Res A.

Definition ret {A : Type} (a : A) : Cmd A := fun s => Ok a s.

Definition bind {A B : Type} (m : Cmd A) (k : A -> Cmd B) : Cmd B :=
  fun s => match m s with
           | Ok a s' => k a s'
           | Fault s' => Fault s'
           end.

Definition fault {A : Type} : Cmd A := fun s => Fault s.

Definition lift {A : Type} (o : option A) : Cmd A :=
  match o with
  | Some a => ret a
  | None => fault
  end.

Declare Scope m_scope.
Delimit Scope m_scope with m.
Notation "x <- m ;; k" := (bind m (fun x => k))
  (at level 61, m at next level, right associativity) : m_scope.
Notation "m ;; k" := (bind m (fun _ => k))
  (at level 61, right associativity) : m_scope.
Local Open Scope m_scope.

Definition final_store {A : Type} (r : Res A) : Store :=
  match r with
  | Ok _ s => s
  | Fault s => s
  end.

Definition is_ok {A : Type} (r : Res A) : bool :=
  match r with
  | Ok _ _ => true
  | Fault _ => false
  end.

Definition set_matches (v : list Match) : Cmd unit :=
  fun s => Ok tt (mkStore v (unmatched_tracks s) (unmatched_detections s) (trace s)).
Definition set_unmatched_tracks (v : list Z) : Cmd unit :=
  fun s => Ok tt (mkStore (matches s) v (unmatched_detections s) (trace s)).
Definition set_unmatched_detections (v : list Z) : Cmd unit :=
  fun s => Ok tt (mkStore (matches s) (unmatched_tracks s) v (trace s)).
Definition get_unmatched_detections : Cmd (list Z) :=
  fun s => Ok (unmatched_detections s) s.

Definition push_match (x : Match) : Cmd unit :=
  fun s => Ok tt (mkStore (matches s ++ [x]) (unmatched_tracks s)
                          (unmatched_detections s) (trace s)).
Definition push_unmatched_track (x : Z) : Cmd unit :=
  fun s => Ok tt (mkStore (matches s) (unmatched_tracks s ++ [x])
                          (unmatched_detections s) (trace s)).
Definition push_unmatched_detection (x : Z) : Cmd unit :=
  fun s => Ok tt (mkStore (matches s) (unmatched_tracks s)
                          (unmatched_detections s ++ [x]) (trace s)).
Definition emit (e : Event) : Cmd unit :=
  fun s => Ok tt (mkStore (matches s) (unmatched_tracks s)
                          (unmatched_detections s) (trace s ++ [e])).

(** [for (x : l) body(x)] *)
Fixpoint for_each {A : Type} (l : list A) (body : A -> Cmd unit) : Cmd unit :=
  match l with
  | [] => ret tt
  | x :: t => body x ;; for_each t body
  end.

(** ** The degenerate-zero correction of [min_cost_matching] (lines 76-85) *)

(** [std::find(v.begin() + from, v.end(), x) - v.begin()] *)
Fixpoint find_from (v : list Z) (from : nat) (x : Z) : nat :=
  match v, from with
  | [], _ => O
  | h :: t, O => if h =? x then O else S (find_from t O x)
  | _ :: t, S from' => S (find_from t from' x)
  end.

(** [n] rounds of [it = find(it+1, end, 0); *it = -1;]. Writing through the
    end iterator is out of range. *)
Fixpoint zero_loop (n : nat) (assignment : list Z) (it : nat) : option (list Z) :=
  match n with
  | O => Some assignment
  | S n' =>
      let it' := find_from assignment (S it) 0 in
      if (it' <? length assignment)%nat
      then zero_loop n' (set_at assignment it' (-1)) it'
      else None
  end.

Definition fix_zeros (assignment : list Z) : option (list Z) :=
  let zero_count := count_occ Z.eq_dec assignment 0 in
  if (1 <? zero_count)%nat
  then zero_loop (zero_count - 1) assignment (find_from assignment 0 0)
  else Some assignment.

(** ** min_cost_matching *)

Section Matching.

(** [AssignmentProblemSolver::Solve(cost, N, M, assignment, optimal)]: the
    contents of [assignment] when it returns. *)
Variable Solve : list float -> nat -> nat -> list Z.

Definition call_metric (distance_metric : Metric) (tracks : list Track)
    (detections : list Detection) (track_indices detection_indices : list Z)
  : Cmd MatrixXf :=
  emit (EvMetric track_indices detection_indices) ;;
  ret (distance_metric tracks detections track_indices detection_indices).

Definition call_solver (cost_matrix_vec : list float) (N M : nat) : Cmd (list Z) :=
  emit (EvSolve cost_matrix_vec N M) ;;
  ret (Solve cost_matrix_vec N M).

(** The bound of the clamp, [max_distance+1e-5] as a matrix coefficient. *)
Definition clamp_bound (max_distance : float) : float :=
  F32.of_double (SFadd F32.prec64 F32.emax64 (F32.to_double max_distance) F32.double_1em5).

(** Body of the loop of lines 89-109. *)
Definition interpret_row (cost_matrix : MatrixXf) (max_distance : float)
    (track_indices detection_indices assignment : list Z) (row : nat) : Cmd unit :=
  col <- lift (nth_error assignment row) ;;
  if col =? -1 then
    t <- lift (nth_error track_indices row) ;;
    push_unmatched_track t
  else
    track_idx <- lift (nth_error track_indices row) ;;
    detection_idx <- lift (vec_at detection_indices col) ;;
    c <- lift (if col <? 0 then None else coeff cost_matrix row (Z.to_nat col)) ;;
    if F32.gt c max_distance then
      push_unmatched_track track_idx ;;
      push_unmatched_detection detection_idx
    else
      push_match (mkMatch track_idx detection_idx).

Definition min_cost_matching (distance_metric : Metric) (max_distance : float)
    (tracks : list Track) (detections : list Detection)
    (track_indices detection_indices : list Z) : Cmd unit :=
  if (length track_indices <? 1)%nat || (length detection_indices <? 1)%nat then
    set_unmatched_tracks track_indices ;;
    set_unmatched_detections detection_indices
  else
    cost_matrix <- call_metric distance_metric tracks detections
                     track_indices detection_indices ;;
    let cost_matrix := cwise_min cost_matrix (clamp_bound max_distance) in
    let N := rows cost_matrix in
    let M := cols cost_matrix in
    let cost_matrix_vec := data cost_matrix in
    assignment <- call_solver cost_matrix_vec N M ;;
    set_matches [] ;;
    set_unmatched_detections [] ;;
    set_unmatched_tracks [] ;;
    for_each (seq 0 (length detection_indices)) (fun i =>
      if negb (existsb (Z.eqb (Z.of_nat i)) assignment) then
        d <- lift (nth_error detection_indices i) ;;
        push_unmatched_detection d
      else ret tt) ;;
    assignment <- lift (fix_zeros assignment) ;;
    for_each (seq 0 (length assignment))
      (interpret_row cost_matrix max_distance track_indices detection_indices assignment).

(** ** matching_cascade *)

(** Lines 163-167: the entries of [track_indices] whose track has
    [time_since_update_ == level1]; [tracks[*it]] may be out of range. *)
Fixpoint select_level (tracks : list Track) (track_indices : list Z) (level1 : Z)
  : option (list Z) :=
  match track_indices with
  | [] => Some []
  | it :: rest =>
      match vec_at tracks it with
      | None => None
      | Some t =>
          match select_level tracks rest level1 with
          | None => None
          | Some l => Some (if time_since_update_ t =? level1 then it :: l else l)
          end
      end
  end.

(** [find] followed by [erase]: the first occurrence of [x] is removed. *)
Fixpoint erase_first (x : Z) (l : list Z) : list Z :=
  match l with
  | [] => []
  | h :: t => if h =? x then t else h :: erase_first x t
  end.

(** Lines 177-185. *)
Fixpoint absorb_matches (matches_l : list Match) (track_indices : list Z)
  : Cmd (list Z) :=
  match matches_l with
  | [] => ret track_indices
  | it :: rest =>
      push_match it ;;
      absorb_matches rest (erase_first (track_idx it) track_indices)
  end.

(** A call whose [matches] and [unmatched_tracks] pointers are bound to two
    fresh local vectors of the caller and whose [unmatched_detections]
    pointer is the caller's own: the local [matches_l] is returned. *)
Definition with_locals (callee : Cmd unit) : Cmd (list Match) :=
  fun s =>
    let back (s' : Store) :=
      mkStore (matches s) (unmatched_tracks s) (unmatched_detections s') (trace s') in
    match callee (mkStore [] [] (unmatched_detections s) (trace s)) with
    | Ok _ s' => Ok (matches s') (back s')
    | Fault s' => Fault (back s')
    end.

Section Cascade.

Variable distance_metric : Metric.
Variable max_distance : float.
Variable tracks : list Track.
Variable detections : list Detection.

(** The loop of lines 158-186 over the remaining levels; the result is the
    local [track_indices] when the loop ends. *)
Fixpoint cascade_levels (levels : list Z) (track_indices : list Z)
  : Cmd (list Z) :=
  match levels with
  | [] => ret track_indices
  | level :: rest =>
      uds <- get_unmatched_detections ;;
      if (length uds <? 1)%nat then ret track_indices
      else
        track_indices_l <- lift (select_level tracks track_indices (1 + level)) ;;
        if (length track_indices_l <? 1)%nat then cascade_levels rest track_indices
        else
          matches_l <- with_locals
                         (min_cost_matching distance_metric max_distance tracks
                            detections track_indices_l uds) ;;
          track_indices <- absorb_matches matches_l track_indices ;;
          cascade_levels rest track_indices
  end.

(** The values taken by [level]: [0 .. cascade_depth-1]. The [int] sum
    [1+level] is at most [cascade_depth] and does not wrap. *)
Definition levels_of (cascade_depth : Z) : list Z :=
  map Z.of_nat (seq 0 (Z.to_nat cascade_depth)).

Definition matching_cascade (cascade_depth : Z)
    (track_indices detection_indices : list Z) : Cmd unit :=
  set_unmatched_detections detection_indices ;;
  track_indices <- cascade_levels (levels_of cascade_depth) track_indices ;;
  set_unmatched_tracks track_indices.

End Cascade.

End Matching.

(** ** gate_cost_matrix *)

Record KalmanFilter : Type := mkKalmanFilter {
  gating_distance : MatrixXf -> MatrixXf -> MatrixXf -> bool -> list float
}.

Definition obind {A B : Type} (o : option A) (k : A -> option B) : option B :=
  match o with
  | Some a => k a
  | None => None
  end.

Declare Scope opt_scope.
Delimit Scope opt_scope with opt.
Notation "x <~ o ;; k" := (obind o (fun x => k))
  (at level 61, o at next level, right associativity) : opt_scope.

Section Gating.

Local Open Scope opt_scope.

(** The table of 0.95 quantiles of the chi-square distribution, by degrees
    of freedom; it is declared outside the file. *)
Variable chi2inv95 : Z -> float.

(** [m.row(i) = VectorXf::Map(&v[0], v.size())]: the sizes have to agree. *)
Fixpoint set_row_from (m : MatrixXf) (i j : nat) (v : list float) : option MatrixXf :=
  match v with
  | [] => Some m
  | x :: rest => m' <~ set_coeff m i j x ;; set_row_from m' i (S j) rest
  end.

Definition set_row (m : MatrixXf) (i : nat) (v : list float) : option MatrixXf :=
  if (length v =? cols m)%nat && (i <? rows m)%nat
  then set_row_from m i 0 v
  else None.

(** Lines 237-241, from row [i] on. *)
Fixpoint fill_measurements (detections : list Detection) (detection_indices : list Z)
    (i : nat) (measurements : MatrixXf) : option MatrixXf :=
  match detection_indices with
  | [] => Some measurements
  | d :: rest =>
      det <~ vec_at detections d ;;
      m' <~ set_row measurements i (to_xyah det) ;;
      fill_measurements detections rest (S i) m'
  end.

(** Lines 249-251, from column [j] on. *)
Fixpoint gate_row (cost_matrix : MatrixXf) (i j : nat) (gating_distance_ : list float)
    (gating_threshold gated_cost : float) : option MatrixXf :=
  match gating_distance_ with
  | [] => Some cost_matrix
  | g :: rest =>
      m' <~ (if F32.gt g gating_threshold
             then set_coeff cost_matrix i j gated_cost
             else Some cost_matrix) ;;
      gate_row m' i (S j) rest gating_threshold gated_cost
  end.

(** Lines 244-252, from row [i] on. *)
Fixpoint gate_rows (kf : KalmanFilter) (cost_matrix : MatrixXf) (tracks : list Track)
    (track_indices : list Z) (i : nat) (measurements : MatrixXf)
    (only_position : bool) (gating_threshold gated_cost : float) : option MatrixXf :=
  match track_indices with
  | [] => Some cost_matrix
  | t :: rest =>
      track <~ vec_at tracks t ;;
      let gating_distance_ :=
        gating_distance kf (mean_ track) (cov_ track) measurements only_position in
      m' <~ gate_row cost_matrix i 0 gating_distance_ gating_threshold gated_cost ;;
      gate_rows kf m' tracks rest (S i) measurements only_position
        gating_threshold gated_cost
  end.

(** A coefficient that was not written yet. *)
Definition indeterminate : float := S754_zero false.

(** Lines 235-241: one row of [to_xyah] per detection index. *)
Definition build_measurements (detections : list Detection)
    (detection_indices : list Z) : option MatrixXf :=
  let n := length detection_indices in
  fill_measurements detections detection_indices 0
    (mkMatrix n 4 (repeat indeterminate (n * 4))).

Definition gate_cost_matrix (kf : KalmanFilter) (cost_matrix : MatrixXf)
    (tracks : list Track) (detections : list Detection)
    (track_indices detection_indices : list Z)
    (gated_cost : float) (only_position : bool) : option MatrixXf :=
  let gating_dim := if only_position then 2 else 4 in
  let gating_threshold := chi2inv95 gating_dim in
  measurements <~ build_measurements detections detection_indices ;;
  gate_rows kf cost_matrix tracks track_indices 0 measurements only_position
    gating_threshold gated_cost.

End Gating.

(** * Vocabulary of the properties *)

(** ** The zero correction, as it is meant *)

(** What the correction is meant to compute, written directly. *)
Definition kill_zeros (l : list Z) : list Z :=
  map (fun x => if x =? 0 then -1 else x) l.

Fixpoint keep_first_zero (l : list Z) : list Z :=
  match l with
  | [] => []
  | h :: t => if h =? 0 then h :: kill_zeros t else h :: keep_first_zero t
  end.

(** ** Verdicts: the interpretation loop, row by row *)

(** What becomes of a row of the assignment vector. *)
Inductive Verdict : Type :=
| Unmatched (t : Z)
| Demoted (t d : Z)
| Matched (t d : Z).

Definition verdict (cost_matrix : MatrixXf) (max_distance : float)
    (track_indices detection_indices assignment : list Z) (row : nat)
  : option Verdict :=
  match nth_error assignment row with
  | None => None
  | Some col =>
      if col =? -1 then option_map Unmatched (nth_error track_indices row)
      else
        match nth_error track_indices row, vec_at detection_indices col,
              (if col <? 0 then None else coeff cost_matrix row (Z.to_nat col)) with
        | Some t, Some d, Some c =>
            Some (if F32.gt c max_distance then Demoted t d else Matched t d)
        | _, _, _ => None
        end
  end.

Definition apply_verdict (s : Store) (v : Verdict) : Store :=
  match v with
  | Unmatched t =>
      mkStore (matches s) (unmatched_tracks s ++ [t]) (unmatched_detections s) (trace s)
  | Demoted t d =>
      mkStore (matches s) (unmatched_tracks s ++ [t]) (unmatched_detections s ++ [d])
        (trace s)
  | Matched t d =>
      mkStore (matches s ++ [mkMatch t d]) (unmatched_tracks s) (unmatched_detections s)
        (trace s)
  end.

Fixpoint verdicts (cost_matrix : MatrixXf) (max_distance : float)
    (track_indices detection_indices assignment : list Z) (rws : list nat)
  : option (list Verdict) :=
  match rws with
  | [] => Some []
  | row :: rest =>
      match verdict cost_matrix max_distance track_indices detection_indices
              assignment row with
      | None => None
      | Some v =>
          option_map (cons v)
            (verdicts cost_matrix max_distance track_indices detection_indices
               assignment rest)
      end
  end.

(** The verdicts of the rows that the loop gets through: those before the
    first row that cannot be read. *)
Fixpoint verdicts_upto (cost_matrix : MatrixXf) (max_distance : float)
    (track_indices detection_indices assignment : list Z) (rws : list nat)
  : list Verdict :=
  match rws with
  | [] => []
  | row :: rest =>
      match verdict cost_matrix max_distance track_indices detection_indices
              assignment row with
      | None => []
      | Some v =>
          v :: verdicts_upto cost_matrix max_distance track_indices detection_indices
                 assignment rest
      end
  end.

Definition matched_of (vs : list Verdict) : list Match :=
  flat_map (fun v => match v with Matched t d => [mkMatch t d] | _ => [] end) vs.

Definition unmatched_tracks_of (vs : list Verdict) : list Z :=
  flat_map
    (fun v => match v with Matched _ _ => [] | Unmatched t | Demoted t _ => [t] end)
    vs.

Definition unmatched_detections_of (vs : list Verdict) : list Z :=
  flat_map (fun v => match v with Demoted _ d => [d] | _ => [] end) vs.

Definition verdict_track (v : Verdict) : Z :=
  match v with Unmatched t | Demoted t _ | Matched t _ => t end.

Definition verdict_detections (v : Verdict) : list Z :=
  match v with Unmatched _ => [] | Demoted _ d | Matched _ d => [d] end.

(** ** Columns and rounds *)

(** Columns that no row of the raw assignment holds (lines 69-74). *)
Definition free_columns (assignment : list Z) (n : nat) : list nat :=
  filter (fun i => negb (existsb (Z.eqb (Z.of_nat i)) assignment)) (seq 0 n).

Definition at_index (v : list Z) (i : nat) : Z := nth i v 0.

(** What the callers may expect of the solver on an [N x M] problem: a column
    or [-1] for each of the [N] rows, and no positive column held by two rows.
    Column [0] may be held by several rows: it is the case that the zero
    correction repairs. *)
Definition assignment_ok (N M : nat) (assignment : list Z) : Prop :=
  length assignment = N /\
  Forall (fun c => -1 <= c < Z.of_nat M) assignment /\
  NoDup (filter (fun c => 0 <? c) assignment).

(** The columns held by the rows of an assignment, in row order. *)
Definition assigned (assignment : list Z) : list nat :=
  map Z.to_nat (filter (fun c => negb (c =? -1)) assignment).

(** The matrix handed to the solver and read back by the threshold test. *)
Definition clamped (distance_metric : Metric) (max_distance : float)
    (tracks : list Track) (detections : list Detection)
    (track_indices detection_indices : list Z) : MatrixXf :=
  cwise_min (distance_metric tracks detections track_indices detection_indices)
    (clamp_bound max_distance).

(** The raw assignment of the round. *)
Definition solved (Solve : list float -> nat -> nat -> list Z)
    (distance_metric : Metric) (max_distance : float)
    (tracks : list Track) (detections : list Detection)
    (track_indices detection_indices : list Z) : list Z :=
  let cm := clamped distance_metric max_distance tracks detections
              track_indices detection_indices in
  Solve (data cm) (rows cm) (cols cm).

(** The calls that a round makes. *)
Definition round_events (distance_metric : Metric) (max_distance : float)
    (tracks : list Track) (detections : list Detection)
    (track_indices detection_indices : list Z) : list Event :=
  let cm := clamped distance_metric max_distance tracks detections
              track_indices detection_indices in
  [EvMetric track_indices detection_indices; EvSolve (data cm) (rows cm) (cols cm)].

(** The collaborators behave on the round over [tis] and [dis]: the metric
    returns a [length tis x length dis] matrix and the solver an assignment
    for it. *)
Definition round_ok (Solve : list float -> nat -> nat -> list Z) (metric : Metric)
    (md : float) (tracks : list Track) (dets : list Detection) (tis dis : list Z)
  : Prop :=
  let m := metric tracks dets tis dis in
  rows m = length tis /\ cols m = length dis /\ wf_matrix m /\
  assignment_ok (length tis) (length dis) (solved Solve metric md tracks dets tis dis).

(** The collaborators behave on every round over part of [T] and [D]. *)
Definition env_ok (Solve : list float -> nat -> nat -> list Z) (metric : Metric)
    (md : float) (tracks : list Track) (dets : list Detection) (T D : list Z) : Prop :=
  forall tis dis,
    tis <> [] -> dis <> [] -> incl tis T -> incl dis D ->
    round_ok Solve metric md tracks dets tis dis.

(** ** The cascade *)

(** [i] is a position of [v]. *)
Definition valid_index {A : Type} (v : list A) (i : Z) : Prop :=
  0 <= i < Z.of_nat (length v).

(** [tracks[i].time_since_update_] for a valid index. *)
Definition tsu (tracks : list Track) (i : Z) : Z :=
  match vec_at tracks i with
  | Some t => time_since_update_ t
  | None => 0
  end.

(** The working list after the matched tracks of a round were erased. *)
Definition erase_matched (ms : list Match) (W : list Z) : list Z :=
  fold_left (fun W m => erase_first (track_idx m) W) ms W.

(** The rounds that a trace shows, against the levels still to come: every
    round belongs to a level of its own, in the order of the levels, and runs
    over the entries of [W] whose track has [time_since_update_ == 1 + level]. *)
Inductive rounds (tracks : list Track) (W : list Z) : list Z -> list Event -> Prop :=
| rounds_done (levels : list Z) : rounds tracks W levels []
| rounds_skip (level : Z) (levels : list Z) (evs : list Event) :
    rounds tracks W levels evs -> rounds tracks W (level :: levels) evs
| rounds_round (level : Z) (levels : list Z) (tl dl : list Z) (c : list float)
    (N M : nat) (evs : list Event) :
    select_level tracks W (1 + level) = Some tl -> tl <> [] ->
    rounds tracks W levels evs ->
    rounds tracks W (level :: levels) (EvMetric tl dl :: EvSolve c N M :: evs).

(** The course of a cascade that returns, level by level. [uds] is
    [unmatched_detections] when the level is reached and the last index the
    list when the loop is left. With no detection left the loop is left
    (line 160); a level with no track is passed over (line 168) and the next
    one is looked at; any other level has its round, over the entries of [W]
    whose track has [time_since_update_ == 1 + level] and over the detections
    then unmatched, and leaves some of these detections to the next level. *)
Inductive staged (tracks : list Track) (W : list Z)
  : list Z -> list Z -> list Event -> list Z -> Prop :=
| staged_end (uds : list Z) : staged tracks W [] uds [] uds
| staged_exhausted (levels : list Z) : staged tracks W levels [] [] []
| staged_skip (level : Z) (levels uds : list Z) (evs : list Event) (uds' : list Z) :
    uds <> [] -> select_level tracks W (1 + level) = Some [] ->
    staged tracks W levels uds evs uds' ->
    staged tracks W (level :: levels) uds evs uds'
| staged_round (level : Z) (levels uds tl : list Z) (c : list float) (N M : nat)
    (uds1 : list Z) (evs : list Event) (uds' : list Z) :
    uds <> [] -> select_level tracks W (1 + level) = Some tl -> tl <> [] ->
    incl uds1 uds ->
    staged tracks W levels uds1 evs uds' ->
    staged tracks W (level :: levels) uds
      (EvMetric tl uds :: EvSolve c N M :: evs) uds'.

(** ** Gating *)

(** Whether column [k] of a row is gated, by the distances of the row. *)
Definition gated (gating_distance_ : list float) (gating_threshold : float) (k : nat)
  : bool :=
  match nth_error gating_distance_ k with
  | Some g => F32.gt g gating_threshold
  | None => false
  end.

(** The distances of the row of track [trk]. *)
Definition distances (kf : KalmanFilter) (measurements : MatrixXf)
    (only_position : bool) (trk : Track) : list float :=
  gating_distance kf (mean_ trk) (cov_ trk) measurements only_position.

(** Every detection converts to a box of four numbers. *)
Definition boxes_ok (dets : list Detection) : Prop :=
  Forall (fun det => length (to_xyah det) = 4%nat) dets.

(** The precondition of [gate_cost_matrix]: the indices are positions of the
    collections and the cost matrix has a row per track index and a column
    per detection index. *)
Definition gate_pre (cost_matrix : MatrixXf) (tracks : list Track)
    (detections : list Detection) (track_indices detection_indices : list Z) : Prop :=
  Forall (valid_index tracks) track_indices /\
  Forall (valid_index detections) detection_indices /\
  (length track_indices <= rows cost_matrix)%nat /\
  (length detection_indices <= cols cost_matrix)%nat.

(** The filter returns one distance per measurement. *)
Definition filter_ok (kf : KalmanFilter) : Prop :=
  forall mean cov measurements only_position,
    length (gating_distance kf mean cov measurements only_position) =
    rows measurements.

(** ** Stand-ins for the collaborators, for concrete runs *)

Module Fixtures.

(** The cost [c] for every pair. *)
Definition constant_metric (c : float) : Metric :=
  fun _ _ track_indices detection_indices =>
    mkMatrix (length track_indices) (length detection_indices)
      (repeat c (length track_indices * length detection_indices)).

(** Row [i] gets column [i] while columns last: an optimal assignment of a
    matrix of equal costs. *)
Definition diagonal_solver (cost : list float) (N M : nat) : list Z :=
  map Z.of_nat (seq 0 (Nat.min N M)) ++ repeat (-1) (N - M).

(** A solver that leaves every row at its initial [0]. *)
Definition idle_solver (cost : list float) (N M : nat) : list Z := repeat 0 N.

Definition empty_matrix : MatrixXf := mkMatrix 0 0 [].

Definition track_of_age (n : Z) : Track := mkTrack empty_matrix empty_matrix n.

Definition box (z : Z) : Detection :=
  mkDetection [F32.of_Z z; F32.of_Z z; F32.of_Z 1; F32.of_Z 2].

Definition empty_store : Store := mkStore [] [] [] [].

(** A metric that returns one coefficient, whatever it is asked. *)
Definition narrow_metric (c : float) : Metric :=
  fun _ _ _ _ => mkMatrix 1 1 [c].

(** The 0.95 quantiles for 2 and 4 degrees of freedom, 5.9915 and 9.4877. *)
Definition chi2_table (dof : Z) : float :=
  if dof =? 2 then SFdiv F32.prec32 F32.emax32 (F32.of_Z 59915) (F32.of_Z 10000)
  else if dof =? 4 then SFdiv F32.prec32 F32.emax32 (F32.of_Z 94877) (F32.of_Z 10000)
  else F32.of_Z 0.

(** A filter whose distance from a track to every measurement is the first
    coefficient of the track's mean. *)
Definition mean_filter : KalmanFilter :=
  mkKalmanFilter (fun mean _ measurements _ =>
    repeat (nth 0 (data mean) (F32.of_Z 0)) (rows measurements)).

Definition track_at (distance : float) : Track :=
  mkTrack (mkMatrix 1 1 [distance]) empty_matrix 1.

End Fixtures.

Import Fixtures.

(** A metric that returns the matrix [m], whatever it is asked. *)
Definition fixed_metric (m : MatrixXf) : Metric := fun _ _ _ _ => m.

(** The track indices that are in no pair of [ms], in their order. *)
Definition without_matched (ms : list Match) (track_indices : list Z) : list Z :=
  filter (fun t => negb (existsb (Z.eqb t) (map track_idx ms))) track_indices.

(** Row [row] of the assignment can be read by the loop of lines 89-109
    over the cost matrix [cost_matrix]: the row has a track index and, unless
    its entry is -1, the entry is a position of [detection_indices] and, with
    the row, of a coefficient of the matrix. *)
Definition row_in_range (cost_matrix : MatrixXf)
    (track_indices detection_indices assignment : list Z) (row : nat) : Prop :=
  (row < length track_indices)%nat /\
  forall col,
    nth_error assignment row = Some col -> col <> -1 ->
    0 <= col < Z.of_nat (length detection_indices) /\
    (row < rows cost_matrix)%nat /\ (Z.to_nat col < cols cost_matrix)%nat /\
    (row + rows cost_matrix * Z.to_nat col < length (data cost_matrix))%nat.

(** * Properties *)

(** ** The stand-ins behave *)

Lemma filter_repeat_neg (n : nat) (p : Z -> bool) (x : Z) :
  p x = false -> filter p (repeat x n) = [].
Proof. intros Hp. induction n as [|n IH]; simpl; [reflexivity|]. now rewrite Hp. Qed.

Lemma diagonal_solver_ok (cost : list float) (N M : nat) :
  assignment_ok N M (diagonal_solver cost N M).
Proof.
  unfold assignment_ok, diagonal_solver. split; [|split].
  - rewrite length_app, length_map, length_seq, repeat_length. lia.
  - apply Forall_app. split.
    + apply Forall_forall. intros c Hc. apply in_map_iff in Hc as (i & <- & Hi).
      apply in_seq in Hi. lia.
    + apply Forall_forall. intros c Hc. apply repeat_spec in Hc. subst c.
      destruct M as [|M].
      * lia.
      * lia.
  - rewrite filter_app, (filter_repeat_neg _ _ (-1)) by reflexivity.
    rewrite app_nil_r. apply NoDup_filter.
    apply Finite.Injective_map_NoDup; [exact Nat2Z.inj|apply seq_NoDup].
Qed.

Lemma idle_solver_ok (cost : list float) (N M : nat) :
  (0 < M)%nat -> assignment_ok N M (idle_solver cost N M).
Proof.
  intros HM. unfold assignment_ok, idle_solver. split; [|split].
  - apply repeat_length.
  - apply Forall_forall. intros c Hc. apply repeat_spec in Hc. subst c. lia.
  - rewrite (filter_repeat_neg _ _ 0) by reflexivity. constructor.
Qed.

Lemma constant_metric_ok (Solve : list float -> nat -> nat -> list Z)
    (c md : float) tracks dets tis dis :
  (forall cost, assignment_ok (length tis) (length dis)
                  (Solve cost (length tis) (length dis))) ->
  round_ok Solve (constant_metric c) md tracks dets tis dis.
Proof.
  intros HS. unfold round_ok, solved, clamped, constant_metric, wf_matrix. simpl.
  repeat split; try apply HS. apply repeat_length.
Qed.

Lemma constant_metric_env_ok (c md : float) tracks dets T D :
  env_ok diagonal_solver (constant_metric c) md tracks dets T D.
Proof.
  intros tis dis _ _ _ _. apply constant_metric_ok.
  intros cost. apply diagonal_solver_ok.
Qed.

Lemma mean_filter_ok : filter_ok mean_filter.
Proof. intros mean cov mm op. apply repeat_length. Qed.

(** ** The zero correction computes "keep the first 0, turn the others to -1" *)

Lemma find_from_skip (pre post : list Z) (x : Z) :
  find_from (pre ++ post) (length pre) x = (length pre + find_from post 0 x)%nat.
Proof.
  induction pre as [|h pre IH]; simpl; [reflexivity|].
  now rewrite IH.
Qed.

Lemma find_from_first (a b : list Z) (x : Z) :
  ~ In x a -> find_from (a ++ x :: b) 0 x = length a.
Proof.
  induction a as [|h a IH]; simpl; intros Hn.
  - now rewrite Z.eqb_refl.
  - destruct (Z.eqb_spec h x) as [->|_]; [exfalso; auto|].
    rewrite IH; auto.
Qed.

Lemma set_at_middle {A : Type} (pre : list A) (y v : A) (b : list A) :
  set_at (pre ++ y :: b) (length pre) v = pre ++ v :: b.
Proof.
  induction pre as [|h pre IH]; simpl; [reflexivity|].
  now rewrite IH.
Qed.

Lemma length_set_at {A : Type} (l : list A) (n : nat) (v : A) :
  length (set_at l n v) = length l.
Proof.
  revert n; induction l as [|h l IH]; intros [|n]; simpl; auto.
Qed.

Lemma count_occ_zero_split (l : list Z) (n : nat) :
  count_occ Z.eq_dec l 0 = S n ->
  exists a b, l = a ++ 0 :: b /\ ~ In 0 a /\ count_occ Z.eq_dec b 0 = n.
Proof.
  induction l as [|h l IH]; simpl; [discriminate|].
  destruct (Z.eq_dec h 0) as [->|Hne]; intros Hc.
  - exists [], l. split; [reflexivity|]. split; [intros []|congruence].
  - destruct (IH Hc) as (a & b & -> & Ha & Hb).
    exists (h :: a), b. split; [reflexivity|]. split; [|assumption].
    intros [E|E]; [congruence|auto].
Qed.

Lemma kill_zeros_none (a : list Z) : ~ In 0 a -> kill_zeros a = a.
Proof.
  unfold kill_zeros.
  induction a as [|h a IH]; simpl; intros Hn; [reflexivity|].
  destruct (Z.eqb_spec h 0) as [->|_]; [exfalso; auto|].
  rewrite IH; auto.
Qed.

Lemma kill_zeros_app (a b : list Z) :
  kill_zeros (a ++ b) = kill_zeros a ++ kill_zeros b.
Proof. apply map_app. Qed.

Lemma keep_first_zero_none (a : list Z) : ~ In 0 a -> keep_first_zero a = a.
Proof.
  induction a as [|h a IH]; simpl; intros Hn; [reflexivity|].
  destruct (Z.eqb_spec h 0) as [->|_]; [exfalso; auto|].
  rewrite IH; auto.
Qed.

Lemma keep_first_zero_split (a b : list Z) :
  ~ In 0 a -> keep_first_zero (a ++ 0 :: b) = a ++ 0 :: kill_zeros b.
Proof.
  induction a as [|h a IH]; simpl; intros Hn; [reflexivity|].
  destruct (Z.eqb_spec h 0) as [->|_]; [exfalso; auto|].
  rewrite IH; auto.
Qed.

Lemma zero_loop_spec (n : nat) :
  forall (pre post : list Z) (it : nat),
    length pre = S it ->
    count_occ Z.eq_dec post 0 = n ->
    zero_loop n (pre ++ post) it = Some (pre ++ kill_zeros post).
Proof.
  induction n as [|n IH]; intros pre post it Hlen Hc; simpl.
  - rewrite kill_zeros_none; [reflexivity|].
    now apply (count_occ_not_In Z.eq_dec).
  - destruct (count_occ_zero_split _ _ Hc) as (a & b & -> & Ha & Hb).
    rewrite <- Hlen, find_from_skip, (find_from_first a b 0 Ha).
    replace (length pre + length a)%nat with (length (pre ++ a))
      by now rewrite length_app.
    rewrite app_assoc.
    assert (Hlt : Nat.ltb (length (pre ++ a)) (length ((pre ++ a) ++ 0 :: b)) = true).
    { apply Nat.ltb_lt. rewrite (length_app (pre ++ a)). simpl. lia. }
    rewrite Hlt, set_at_middle.
    change ((pre ++ a) ++ -1 :: b) with ((pre ++ a) ++ [-1] ++ b).
    rewrite (app_assoc (pre ++ a)).
    rewrite (IH ((pre ++ a) ++ [-1]) b (length (pre ++ a))).
    + rewrite kill_zeros_app, (kill_zeros_none a Ha). simpl.
      now rewrite <- !app_assoc.
    + rewrite length_app. simpl. lia.
    + exact Hb.
Qed.

Lemma fix_zeros_spec (assignment : list Z) :
  fix_zeros assignment = Some (keep_first_zero assignment).
Proof.
  unfold fix_zeros.
  destruct (count_occ Z.eq_dec assignment 0) as [|n] eqn:Hc.
  - simpl. rewrite keep_first_zero_none; [reflexivity|].
    now apply (count_occ_not_In Z.eq_dec).
  - destruct (count_occ_zero_split _ _ Hc) as (a & b & -> & Ha & Hb).
    rewrite keep_first_zero_split by assumption.
    destruct (Nat.ltb_spec 1 (S n)) as [Hlt|Hge].
    + rewrite (find_from_first a b 0 Ha).
      change (a ++ 0 :: b) with (a ++ [0] ++ b). rewrite app_assoc.
      rewrite (zero_loop_spec (S n - 1) (a ++ [0]) b (length a)).
      * now rewrite <- app_assoc.
      * rewrite length_app; simpl; lia.
      * lia.
    + rewrite kill_zeros_none; [reflexivity|].
      apply (count_occ_not_In Z.eq_dec). lia.
Qed.

(** ** The interpretation loop, row by row *)

Lemma store_eta (s : Store) :
  mkStore (matches s) (unmatched_tracks s) (unmatched_detections s) (trace s) = s.
Proof. now destruct s. Qed.

Lemma interpret_row_verdict cm md tis dis asg row s :
  interpret_row cm md tis dis asg row s =
  match verdict cm md tis dis asg row with
  | Some v => Ok tt (apply_verdict s v)
  | None => Fault s
  end.
Proof.
  unfold interpret_row, verdict, bind, lift, ret, fault.
  destruct (nth_error asg row) as [col|]; [|reflexivity].
  destruct (col =? -1).
  - now destruct (nth_error tis row).
  - destruct (nth_error tis row) as [t|]; [|reflexivity].
    destruct (vec_at dis col) as [d|]; [|reflexivity].
    destruct (if col <? 0 then None else coeff cm row (Z.to_nat col)) as [c|];
      [|reflexivity].
    now destruct (F32.gt c md).
Qed.

Lemma fold_apply_verdict (vs : list Verdict) :
  forall s,
    fold_left apply_verdict vs s =
    mkStore (matches s ++ matched_of vs)
            (unmatched_tracks s ++ unmatched_tracks_of vs)
            (unmatched_detections s ++ unmatched_detections_of vs)
            (trace s).
Proof.
  induction vs as [|v vs IH]; intros s; simpl.
  - now rewrite !app_nil_r, store_eta.
  - rewrite IH. destruct v; simpl; now rewrite <- ?app_assoc.
Qed.

Lemma for_each_interpret cm md tis dis asg (rws : list nat) :
  forall s,
    match verdicts cm md tis dis asg rws with
    | Some vs =>
        for_each rws (interpret_row cm md tis dis asg) s =
        Ok tt (fold_left apply_verdict vs s)
    | None => is_ok (for_each rws (interpret_row cm md tis dis asg) s) = false
    end.
Proof.
  induction rws as [|row rws IH]; intros s; simpl; [reflexivity|].
  unfold bind. rewrite interpret_row_verdict.
  destruct (verdict cm md tis dis asg row) as [v|]; [|reflexivity].
  specialize (IH (apply_verdict s v)).
  destruct (verdicts cm md tis dis asg rws) as [vs|]; simpl; assumption.
Qed.

Lemma for_each_free_columns (dis asg : list Z) (l : list nat) :
  Forall (fun i => (i < length dis)%nat) l ->
  forall s,
    for_each l (fun i =>
      if negb (existsb (Z.eqb (Z.of_nat i)) asg) then
        d <- lift (nth_error dis i) ;; push_unmatched_detection d
      else ret tt) s =
    Ok tt (mkStore (matches s) (unmatched_tracks s)
             (unmatched_detections s ++
                map (at_index dis)
                  (filter (fun i => negb (existsb (Z.eqb (Z.of_nat i)) asg)) l))
             (trace s)).
Proof.
  induction 1 as [|i l Hi Hl IH]; intros s; simpl.
  - unfold ret. now rewrite app_nil_r, store_eta.
  - unfold bind at 1.
    destruct (negb (existsb (Z.eqb (Z.of_nat i)) asg)).
    + unfold bind at 1, lift.
      rewrite (nth_error_nth' dis 0 Hi). unfold ret, push_unmatched_detection.
      rewrite IH. simpl. unfold at_index at 2. now rewrite <- app_assoc.
    + unfold ret. now rewrite IH.
Qed.

Section MatchingFacts.

Variable Solve : list float -> nat -> nat -> list Z.

(** A call with an empty index list. *)
Lemma min_cost_matching_empty metric md tracks dets tis dis s :
  tis = [] \/ dis = [] ->
  min_cost_matching Solve metric md tracks dets tis dis s =
  Ok tt (mkStore (matches s) tis dis (trace s)).
Proof.
  intros H. unfold min_cost_matching.
  assert (E : (length tis <? 1)%nat || (length dis <? 1)%nat = true).
  { destruct H as [-> | ->]; simpl; [reflexivity|apply orb_true_r]. }
  rewrite E. reflexivity.
Qed.

(** A call with two non-empty index lists comes down to the interpretation
    loop, started on the free columns of the raw assignment. *)
Lemma min_cost_matching_unfold metric md tracks dets tis dis s :
  tis <> [] -> dis <> [] ->
  let cm := clamped metric md tracks dets tis dis in
  let asg := solved Solve metric md tracks dets tis dis in
  min_cost_matching Solve metric md tracks dets tis dis s =
  for_each (seq 0 (length (keep_first_zero asg)))
    (interpret_row cm md tis dis (keep_first_zero asg))
    (mkStore [] [] (map (at_index dis) (free_columns asg (length dis)))
       (trace s ++ round_events metric md tracks dets tis dis)).
Proof.
  intros Ht Hd cm asg. subst cm asg.
  unfold min_cost_matching, round_events, solved, clamped.
  assert (E : (length tis <? 1)%nat || (length dis <? 1)%nat = false).
  { destruct tis; [congruence|]. destruct dis; [congruence|]. reflexivity. }
  rewrite E. clear E.
  set (cm := cwise_min (metric tracks dets tis dis) (clamp_bound md)).
  set (asg := Solve (data cm) (rows cm) (cols cm)).
  unfold call_metric, call_solver, bind at 1 2 3 4 5 6 7, emit, ret,
    set_matches, set_unmatched_detections, set_unmatched_tracks.
  cbn [matches unmatched_tracks unmatched_detections trace].
  fold cm. fold asg.
  unfold bind at 1.
  rewrite for_each_free_columns
    by (apply Forall_forall; intros i Hi; apply in_seq in Hi; lia).
  cbn [matches unmatched_tracks unmatched_detections trace].
  unfold bind at 1. rewrite fix_zeros_spec. unfold lift, ret.
  fold (free_columns asg (length dis)).
  cbn [app]. now rewrite <- app_assoc.
Qed.

Lemma min_cost_matching_run metric md tracks dets tis dis s :
  tis <> [] -> dis <> [] ->
  let cm := clamped metric md tracks dets tis dis in
  let asg := solved Solve metric md tracks dets tis dis in
  let r := min_cost_matching Solve metric md tracks dets tis dis s in
  match verdicts cm md tis dis (keep_first_zero asg)
          (seq 0 (length (keep_first_zero asg))) with
  | Some vs =>
      r = Ok tt (mkStore (matched_of vs) (unmatched_tracks_of vs)
                   (map (at_index dis) (free_columns asg (length dis)) ++
                      unmatched_detections_of vs)
                   (trace s ++ round_events metric md tracks dets tis dis))
  | None => is_ok r = false
  end.
Proof.
  intros Ht Hd cm asg r. subst r.
  rewrite (min_cost_matching_unfold metric md tracks dets tis dis s Ht Hd).
  fold cm asg.
  match goal with
  | |- context [for_each ?rws ?body ?s0] =>
      pose proof (for_each_interpret cm md tis dis (keep_first_zero asg) rws s0) as H
  end.
  destruct (verdicts cm md tis dis (keep_first_zero asg)
              (seq 0 (length (keep_first_zero asg)))) as [vs|].
  - rewrite H, fold_apply_verdict. reflexivity.
  - exact H.
Qed.

End MatchingFacts.

(** ** Assignment vectors *)

Lemma length_kill_zeros l : length (kill_zeros l) = length l.
Proof. apply length_map. Qed.

Lemma length_keep_first_zero l : length (keep_first_zero l) = length l.
Proof.
  induction l as [|h l IH]; simpl; [reflexivity|].
  destruct (h =? 0); simpl; now rewrite ?length_kill_zeros, ?IH.
Qed.

Lemma in_kill_zeros x l : In x (kill_zeros l) -> x = -1 \/ (x <> 0 /\ In x l).
Proof.
  unfold kill_zeros. rewrite in_map_iff. intros (y & <- & Hy).
  destruct (Z.eqb_spec y 0); auto.
Qed.

Lemma in_keep_first_zero x l : In x (keep_first_zero l) -> x = -1 \/ In x l.
Proof.
  induction l as [|h l IH]; simpl; [tauto|].
  destruct (h =? 0); simpl.
  - intros [E|E]; [auto|]. apply in_kill_zeros in E. tauto.
  - intros [E|E]; [auto|]. apply IH in E. tauto.
Qed.

Lemma keep_first_zero_in x l : In x l -> In x (keep_first_zero l).
Proof.
  induction l as [|h l IH]; simpl; [tauto|].
  destruct (Z.eqb_spec h 0) as [->|Hne]; simpl.
  - intros [E|E]; [auto|].
    destruct (Z.eq_dec x 0) as [->|Hx]; [auto|].
    right. unfold kill_zeros. apply in_map_iff. exists x.
    split; [|assumption]. destruct (Z.eqb_spec x 0); congruence.
  - intros [E|E]; auto.
Qed.

Lemma keep_first_zero_range (P : Z -> Prop) l :
  P (-1) -> Forall P l -> Forall P (keep_first_zero l).
Proof.
  intros H1 H. apply Forall_forall. intros x Hx.
  destruct (in_keep_first_zero _ _ Hx) as [->|Hin]; [assumption|].
  rewrite Forall_forall in H. auto.
Qed.

Lemma filter_kill_zeros l :
  Forall (fun c => -1 <= c) l ->
  filter (fun c => negb (c =? -1)) (kill_zeros l) = filter (fun c => 0 <? c) l.
Proof.
  unfold kill_zeros.
  induction 1 as [|h l Hh Hl IH]; simpl; [reflexivity|].
  destruct (Z.eqb_spec h 0) as [->|Hne]; simpl; [exact IH|].
  rewrite IH.
  destruct (Z.eqb_spec h (-1)) as [->|Hne1]; [reflexivity|].
  destruct (Z.ltb_spec 0 h); [reflexivity|lia].
Qed.

Lemma NoDup_assigned_rows l :
  Forall (fun c => -1 <= c) l ->
  NoDup (filter (fun c => 0 <? c) l) ->
  NoDup (filter (fun c => negb (c =? -1)) (keep_first_zero l)).
Proof.
  induction 1 as [|h l Hh Hl IH]; simpl; intros Hnd; [constructor|].
  destruct (Z.eqb_spec h 0) as [->|Hne]; simpl.
  - simpl in Hnd. rewrite filter_kill_zeros by assumption.
    constructor; [|assumption].
    rewrite filter_In. intros [_ H0]. discriminate.
  - destruct (Z.eqb_spec h (-1)) as [->|Hne1]; simpl.
    + simpl in Hnd. auto.
    + assert (Hpos : (0 <? h) = true) by (apply Z.ltb_lt; lia).
      rewrite Hpos in Hnd. inversion Hnd as [|? ? Hnotin Hnd']; subst.
      constructor; [|auto].
      rewrite filter_In. intros [Hin _]. apply Hnotin.
      rewrite filter_In. split; [|assumption].
      destruct (in_keep_first_zero _ _ Hin) as [E|E]; [congruence|assumption].
Qed.

Lemma NoDup_assigned (N M : nat) l :
  assignment_ok N M l -> NoDup (assigned (keep_first_zero l)).
Proof.
  intros (_ & Hr & Hnd). unfold assigned.
  assert (Hlow : Forall (fun c => -1 <= c) l).
  { eapply Forall_impl; [|exact Hr]. simpl. intros; lia. }
  pose proof (NoDup_assigned_rows l Hlow Hnd) as H.
  assert (Hge : Forall (fun c => 0 <= c)
                  (filter (fun c => negb (c =? -1)) (keep_first_zero l))).
  { apply Forall_forall. intros x Hx. apply filter_In in Hx as [Hin Hx].
    apply negb_true_iff, Z.eqb_neq in Hx.
    pose proof (keep_first_zero_range (fun c => -1 <= c) l ltac:(simpl; lia) Hlow) as Hk.
    rewrite Forall_forall in Hk. specialize (Hk _ Hin). simpl in Hk. lia. }
  revert H Hge.
  generalize (filter (fun c => negb (c =? -1)) (keep_first_zero l)) as k.
  induction k as [|x k IH]; simpl; intros Hnd' Hge; [constructor|].
  inversion Hnd' as [|? ? Hnotin Hk]; subst.
  inversion Hge as [|? ? Hx Hge']; subst.
  constructor; [|auto].
  rewrite in_map_iff. intros (y & Hy & Hin).
  rewrite Forall_forall in Hge'. specialize (Hge' _ Hin). simpl in Hge'.
  apply Hnotin. assert (x = y) by lia. now subst.
Qed.

Lemma in_assigned (N M : nat) l (i : nat) :
  assignment_ok N M l ->
  In i (assigned (keep_first_zero l)) <-> In (Z.of_nat i) l.
Proof.
  intros (_ & Hr & _). unfold assigned. rewrite in_map_iff. split.
  - intros (c & Hc & Hin). apply filter_In in Hin as [Hin Hne].
    apply negb_true_iff, Z.eqb_neq in Hne.
    destruct (in_keep_first_zero _ _ Hin) as [E|E]; [congruence|].
    rewrite Forall_forall in Hr. specialize (Hr _ E). simpl in Hr.
    replace (Z.of_nat i) with c by lia. assumption.
  - intros Hin. exists (Z.of_nat i). split; [apply Nat2Z.id|].
    apply filter_In. split; [now apply keep_first_zero_in|].
    apply negb_true_iff, Z.eqb_neq. lia.
Qed.

Lemma assigned_lt (N M : nat) l (i : nat) :
  assignment_ok N M l -> In i (assigned (keep_first_zero l)) -> (i < M)%nat.
Proof.
  intros Hok Hin. pose proof Hok as (_ & Hr & _).
  apply (in_assigned N M l i Hok) in Hin.
  rewrite Forall_forall in Hr. specialize (Hr _ Hin). simpl in Hr. lia.
Qed.

Lemma filter_split_perm {A : Type} (p : A -> bool) (l : list A) :
  Permutation (filter (fun x => negb (p x)) l ++ filter p l) l.
Proof.
  induction l as [|x l IH]; simpl; [constructor|].
  destruct (p x); simpl.
  - apply Permutation_sym, Permutation_cons_app, Permutation_sym, IH.
  - now constructor.
Qed.

(** Free columns and held columns together are all the columns. *)
Lemma columns_partition (N M : nat) l :
  assignment_ok N M l ->
  Permutation (free_columns l M ++ assigned (keep_first_zero l)) (seq 0 M).
Proof.
  intros Hok. unfold free_columns.
  set (p := fun i : nat => existsb (Z.eqb (Z.of_nat i)) l).
  transitivity (filter (fun i => negb (p i)) (seq 0 M) ++ filter p (seq 0 M));
    [|apply filter_split_perm].
  apply Permutation_app_head.
  apply NoDup_Permutation.
  - exact (NoDup_assigned N M l Hok).
  - apply NoDup_filter, seq_NoDup.
  - intros i. rewrite filter_In, in_seq. subst p. simpl.
    rewrite existsb_exists. split.
    + intros Hin. split; [pose proof (assigned_lt N M l i Hok Hin); lia|].
      exists (Z.of_nat i). split; [|apply Z.eqb_refl].
      now apply (in_assigned N M l i Hok).
    + intros (_ & c & Hc & E). apply Z.eqb_eq in E. subst c.
      now apply (in_assigned N M l i Hok).
Qed.

(** ** Matrices *)

Lemma coeff_wf (m : MatrixXf) (i j : nat) :
  wf_matrix m -> (i < rows m)%nat -> (j < cols m)%nat ->
  exists c, coeff m i j = Some c.
Proof.
  unfold wf_matrix, coeff. intros Hwf Hi Hj.
  apply Nat.ltb_lt in Hi as Hi', Hj as Hj'. rewrite Hi', Hj'. simpl.
  destruct (nth_error (data m) (i + rows m * j)) as [c|] eqn:E; [eauto|].
  apply nth_error_None in E. nia.
Qed.

Lemma coeff_cwise_min (m : MatrixXf) (b : float) (i j : nat) :
  coeff (cwise_min m b) i j = option_map (fun a => F32.min a b) (coeff m i j).
Proof.
  unfold coeff, cwise_min. simpl.
  destruct ((i <? rows m)%nat && (j <? cols m)%nat); [|reflexivity].
  apply nth_error_map.
Qed.

Lemma wf_cwise_min (m : MatrixXf) (b : float) :
  wf_matrix m -> wf_matrix (cwise_min m b).
Proof. unfold wf_matrix, cwise_min. simpl. now rewrite length_map. Qed.

(** ** Lists of verdicts *)

Lemma verdicts_Forall2 cm md tis dis asg (rws : list nat) :
  forall vs,
    verdicts cm md tis dis asg rws = Some vs <->
    Forall2 (fun row v => verdict cm md tis dis asg row = Some v) rws vs.
Proof.
  induction rws as [|row rws IH]; intros vs; simpl.
  - split.
    + intros E. injection E as <-. constructor.
    + intros H. now inversion H.
  - destruct (verdict cm md tis dis asg row) as [v|] eqn:Ev.
    + destruct (verdicts cm md tis dis asg rws) as [vs'|]; simpl; split.
      * intros E. injection E as <-. constructor; [assumption|now apply IH].
      * intros H. inversion H as [|? v' ? vs'' Hv Hrest]; subst.
        apply IH in Hrest. congruence.
      * discriminate.
      * intros H. inversion H as [|? v' ? vs'' Hv Hrest]; subst.
        apply IH in Hrest. discriminate.
    + split; [discriminate|].
      intros H. inversion H; subst. congruence.
Qed.

Lemma Forall2_seq_skipn {A B : Type} (l : list A) (P : A -> B -> Prop) (n : nat) :
  forall (k : nat) (vs : list B),
    (k + n)%nat = length l ->
    Forall2 (fun i v => exists c, nth_error l i = Some c /\ P c v) (seq k n) vs ->
    Forall2 P (skipn k l) vs.
Proof.
  induction n as [|n IH]; intros k vs Hk H; simpl in H.
  - inversion H; subst. rewrite skipn_all2 by lia. constructor.
  - inversion H as [|? v ? vs' (c & Hc & Hp) Hrest]; subst.
    apply IH in Hrest; [|lia].
    assert (E : skipn k l = c :: skipn (S k) l).
    { clear - Hc. revert k Hc. induction l as [|h l IHl]; intros [|k] Hc;
        simpl in *; try discriminate.
      - now injection Hc as ->.
      - now apply IHl. }
    rewrite E. now constructor.
Qed.

Lemma perm_verdict_tracks (vs : list Verdict) :
  Permutation (map track_idx (matched_of vs) ++ unmatched_tracks_of vs)
              (map verdict_track vs).
Proof.
  induction vs as [|v vs IH]; simpl; [constructor|].
  destruct v; simpl.
  - apply Permutation_sym, Permutation_cons_app, Permutation_sym, IH.
  - apply Permutation_sym, Permutation_cons_app, Permutation_sym, IH.
  - now constructor.
Qed.

Lemma perm_verdict_detections (vs : list Verdict) :
  Permutation (map detection_idx (matched_of vs) ++ unmatched_detections_of vs)
              (flat_map verdict_detections vs).
Proof.
  induction vs as [|v vs IH]; simpl; [constructor|].
  destruct v; simpl.
  - exact IH.
  - apply Permutation_sym, Permutation_cons_app, Permutation_sym, IH.
  - now constructor.
Qed.

Lemma verdict_track_at cm md tis dis asg row v :
  verdict cm md tis dis asg row = Some v ->
  nth_error tis row = Some (verdict_track v).
Proof.
  unfold verdict.
  destruct (nth_error asg row) as [col|]; [|discriminate].
  destruct (col =? -1).
  - destruct (nth_error tis row); simpl; [|discriminate].
    intros E. now injection E as <-.
  - destruct (nth_error tis row) as [t|]; [|discriminate].
    destruct (vec_at dis col) as [d|]; [|discriminate].
    destruct (if col <? 0 then None else coeff cm row (Z.to_nat col)) as [c|];
      [|discriminate].
    intros E. injection E as <-. now destruct (F32.gt c md).
Qed.

Lemma verdict_detection_at cm md tis dis asg row v :
  verdict cm md tis dis asg row = Some v ->
  exists col,
    nth_error asg row = Some col /\
    verdict_detections v =
    map (at_index dis) (assigned [col]).
Proof.
  unfold verdict, assigned.
  destruct (nth_error asg row) as [col|]; [|discriminate].
  intros H. exists col. split; [reflexivity|]. simpl.
  destruct (col =? -1); simpl.
  - destruct (nth_error tis row); simpl in H; [|discriminate].
    now injection H as <-.
  - destruct (nth_error tis row) as [t|]; [|discriminate].
    destruct (vec_at dis col) as [d|] eqn:Ed; [|discriminate].
    destruct (if col <? 0 then None else coeff cm row (Z.to_nat col)) as [c|];
      [|discriminate].
    unfold vec_at in Ed. destruct (col <? 0); [discriminate|].
    unfold at_index. rewrite (nth_error_nth _ _ 0 Ed).
    injection H as <-. now destruct (F32.gt c md).
Qed.

Lemma assigned_cons c l : assigned (c :: l) = assigned [c] ++ assigned l.
Proof. unfold assigned. simpl. now destruct (c =? -1). Qed.

(** The tracks of the verdicts are the track indices, row by row; their
    detections are those of the held columns. *)
Lemma verdicts_tracks cm md tis dis asg vs :
  length asg = length tis ->
  verdicts cm md tis dis asg (seq 0 (length asg)) = Some vs ->
  map verdict_track vs = tis.
Proof.
  intros Hlen Hv. apply verdicts_Forall2 in Hv.
  assert (H : Forall2 (fun t v => t = verdict_track v) (skipn 0 tis) vs).
  { apply Forall2_seq_skipn with (n := length asg); [lia|].
    eapply Forall2_impl; [|exact Hv]. simpl. intros row v Hrow.
    eexists; split; [eapply verdict_track_at; exact Hrow|reflexivity]. }
  simpl in H. clear - H. induction H; simpl; congruence.
Qed.

Lemma verdicts_detections cm md tis dis asg vs :
  verdicts cm md tis dis asg (seq 0 (length asg)) = Some vs ->
  flat_map verdict_detections vs = map (at_index dis) (assigned asg).
Proof.
  intros Hv. apply verdicts_Forall2 in Hv.
  assert (H : Forall2 (fun col v =>
                verdict_detections v = map (at_index dis) (assigned [col]))
                (skipn 0 asg) vs).
  { apply Forall2_seq_skipn with (n := length asg); [lia|].
    eapply Forall2_impl; [|exact Hv]. simpl. intros row v Hrow.
    apply verdict_detection_at in Hrow as (col & Hcol & E). eauto. }
  simpl in H. clear - H. induction H as [|col v asg vs Hv _ IH]; [reflexivity|].
  simpl flat_map. rewrite assigned_cons, map_app, Hv, IH. reflexivity.
Qed.

(** No row faults when the matrix has the dimensions of the index lists and
    the assignment stays within them. *)
Lemma verdicts_defined cm md tis dis asg :
  rows cm = length tis -> cols cm = length dis -> wf_matrix cm ->
  length asg = length tis ->
  Forall (fun c => -1 <= c < Z.of_nat (length dis)) asg ->
  exists vs, verdicts cm md tis dis asg (seq 0 (length asg)) = Some vs.
Proof.
  intros Hr Hc Hwf Hlen Hrange.
  assert (H : forall rws, Forall (fun row => (row < length asg)%nat) rws ->
            exists vs, verdicts cm md tis dis asg rws = Some vs).
  { induction 1 as [|row rws Hrow _ IH]; simpl; [eauto|].
    destruct IH as (vs & ->).
    assert (Hv : exists v, verdict cm md tis dis asg row = Some v).
    { unfold verdict.
      destruct (nth_error asg row) as [col|] eqn:Ecol;
        [|apply nth_error_None in Ecol; lia].
      assert (Hcol : -1 <= col < Z.of_nat (length dis)).
      { rewrite Forall_forall in Hrange. apply (Hrange col).
        eapply nth_error_In; eassumption. }
      destruct (nth_error tis row) as [t|] eqn:Et;
        [|apply nth_error_None in Et; lia].
      destruct (Z.eqb_spec col (-1)); simpl; [eauto|].
      unfold vec_at. destruct (Z.ltb_spec col 0); [lia|].
      destruct (nth_error dis (Z.to_nat col)) as [d|] eqn:Ed;
        [|apply nth_error_None in Ed; lia].
      destruct (coeff_wf cm row (Z.to_nat col) Hwf) as (c & ->); [lia|lia|].
      eauto. }
    destruct Hv as (v & ->). simpl. eauto. }
  apply H. apply Forall_forall. intros row Hin. apply in_seq in Hin. lia.
Qed.

Lemma map_at_index_seq (l : list Z) : map (at_index l) (seq 0 (length l)) = l.
Proof.
  unfold at_index. induction l as [|h l IH]; simpl; [reflexivity|].
  f_equal. rewrite <- seq_shift, map_map. exact IH.
Qed.

(** ** One round of matching partitions its index lists *)

Section RoundFacts.

Variable Solve : list float -> nat -> nat -> list Z.

Lemma round_verdicts metric md tracks dets tis dis :
  round_ok Solve metric md tracks dets tis dis ->
  let cm := clamped metric md tracks dets tis dis in
  let asg := keep_first_zero (solved Solve metric md tracks dets tis dis) in
  exists vs,
    verdicts cm md tis dis asg (seq 0 (length asg)) = Some vs /\
    map verdict_track vs = tis /\
    flat_map verdict_detections vs = map (at_index dis) (assigned asg).
Proof.
  intros (Hr & Hc & Hwf & Hlen & Hrange & Hnd) cm asg.
  assert (Hlen' : length asg = length tis).
  { subst asg. now rewrite length_keep_first_zero. }
  destruct (verdicts_defined cm md tis dis asg) as (vs & Hvs); auto.
  - now apply wf_cwise_min.
  - subst asg. apply keep_first_zero_range; [lia|assumption].
  - exists vs. split; [assumption|]. split.
    + eapply verdicts_tracks; eassumption.
    + eapply verdicts_detections; eassumption.
Qed.

Lemma min_cost_matching_partition metric md tracks dets tis dis s :
  tis <> [] -> dis <> [] ->
  round_ok Solve metric md tracks dets tis dis ->
  exists ms uts uds,
    min_cost_matching Solve metric md tracks dets tis dis s =
    Ok tt (mkStore ms uts uds
             (trace s ++ round_events metric md tracks dets tis dis)) /\
    Permutation (map track_idx ms ++ uts) tis /\
    Permutation (map detection_idx ms ++ uds) dis.
Proof.
  intros Ht Hd Hok.
  destruct (round_verdicts metric md tracks dets tis dis Hok)
    as (vs & Hvs & Htr & Hdet).
  pose proof (min_cost_matching_run Solve metric md tracks dets tis dis s Ht Hd) as Hrun.
  cbv zeta in Hrun. rewrite Hvs in Hrun.
  eexists _, _, _. split; [exact Hrun|]. split.
  - cbn [matches unmatched_tracks]. rewrite <- Htr. apply perm_verdict_tracks.
  - destruct Hok as (_ & _ & _ & Hasg).
    set (asg := solved Solve metric md tracks dets tis dis) in *.
    etransitivity; [apply Permutation_app_swap_app|].
    etransitivity;
      [apply Permutation_app_head, perm_verdict_detections|].
    rewrite Hdet, <- map_app.
    apply Permutation_trans with (map (at_index dis) (seq 0 (length dis)));
      [|now rewrite map_at_index_seq].
    apply Permutation_map.
    exact (columns_partition (length tis) (length dis) asg Hasg).
Qed.

End RoundFacts.

(** ** Facts about every round, whatever the metric and the solver return *)

Lemma apply_verdict_trace s v : trace (apply_verdict s v) = trace s.
Proof. now destruct v. Qed.

Lemma for_each_interpret_trace cm md tis dis asg (rws : list nat) :
  forall s,
    trace (final_store (for_each rws (interpret_row cm md tis dis asg) s)) = trace s.
Proof.
  induction rws as [|row rws IH]; intros s; simpl; [reflexivity|].
  unfold bind. rewrite interpret_row_verdict.
  destruct (verdict cm md tis dis asg row) as [v|]; simpl; [|reflexivity].
  now rewrite IH, apply_verdict_trace.
Qed.

Lemma matched_of_tracks (vs : list Verdict) :
  incl (map track_idx (matched_of vs)) (map verdict_track vs).
Proof.
  induction vs as [|v vs IH]; simpl; [apply incl_refl|].
  destruct v; simpl.
  - now apply incl_tl.
  - now apply incl_tl.
  - apply incl_cons; [now left|now apply incl_tl].
Qed.

Lemma verdicts_tracks_incl cm md tis dis asg (rws : list nat) :
  forall vs,
    verdicts cm md tis dis asg rws = Some vs ->
    incl (map verdict_track vs) tis.
Proof.
  intros vs Hv. apply verdicts_Forall2 in Hv.
  induction Hv as [|row v rws vs Hrow _ IH]; simpl; [easy|].
  apply incl_cons; [|assumption].
  apply verdict_track_at in Hrow. eapply nth_error_In; eassumption.
Qed.

Section AnyRound.

Variable Solve : list float -> nat -> nat -> list Z.

Lemma min_cost_matching_trace metric md tracks dets tis dis s :
  tis <> [] -> dis <> [] ->
  trace (final_store (min_cost_matching Solve metric md tracks dets tis dis s)) =
  trace s ++ round_events metric md tracks dets tis dis.
Proof.
  intros Ht Hd.
  rewrite (min_cost_matching_unfold Solve metric md tracks dets tis dis s Ht Hd).
  now rewrite for_each_interpret_trace.
Qed.

Lemma min_cost_matching_matched metric md tracks dets tis dis s s' :
  tis <> [] -> dis <> [] ->
  min_cost_matching Solve metric md tracks dets tis dis s = Ok tt s' ->
  incl (map track_idx (matches s')) tis.
Proof.
  intros Ht Hd Hrun.
  pose proof (min_cost_matching_run Solve metric md tracks dets tis dis s Ht Hd) as H.
  cbv zeta in H.
  destruct (verdicts _ md tis dis _ _) as [vs|] eqn:Hvs.
  - rewrite Hrun in H. injection H as ->. simpl.
    eapply incl_tran; [apply matched_of_tracks|].
    eapply verdicts_tracks_incl; eassumption.
  - rewrite Hrun in H. discriminate.
Qed.

End AnyRound.

(** ** Selecting a level, erasing matched tracks *)

Lemma vec_at_valid {A : Type} (v : list A) (i : Z) :
  valid_index v i <-> exists x, vec_at v i = Some x.
Proof.
  unfold valid_index, vec_at. destruct (Z.ltb_spec i 0).
  - split; [lia|]. intros (x & Hx). discriminate.
  - split.
    + intros Hi. destruct (nth_error v (Z.to_nat i)) as [x|] eqn:E; [eauto|].
      apply nth_error_None in E. lia.
    + intros (x & Hx). assert (Hn : nth_error v (Z.to_nat i) <> None) by congruence.
      apply nth_error_Some in Hn. lia.
Qed.

Lemma select_level_Some tracks W level1 l :
  select_level tracks W level1 = Some l ->
  Forall (valid_index tracks) W /\ l = filter (fun i => tsu tracks i =? level1) W.
Proof.
  revert l. induction W as [|it W IH]; simpl; intros l H.
  - injection H as <-. split; [constructor|reflexivity].
  - unfold tsu at 1. destruct (vec_at tracks it) as [t|] eqn:Et; [|discriminate].
    destruct (select_level tracks W level1) as [l'|]; [|discriminate].
    destruct (IH l' eq_refl) as (Hv & ->). injection H as <-.
    split; [|reflexivity].
    constructor; [|assumption]. apply vec_at_valid. eauto.
Qed.

Lemma select_level_valid tracks W level1 :
  Forall (valid_index tracks) W ->
  select_level tracks W level1 = Some (filter (fun i => tsu tracks i =? level1) W).
Proof.
  induction 1 as [|it W Hit _ IH]; simpl; [reflexivity|].
  apply vec_at_valid in Hit as (t & Et). unfold tsu at 1. rewrite Et, IH.
  reflexivity.
Qed.

Lemma in_erase_first x y W : In y (erase_first x W) -> In y W.
Proof.
  induction W as [|h W IH]; simpl; [tauto|].
  destruct (h =? x); simpl; tauto.
Qed.

Lemma erase_first_keeps x y W : In y W -> y <> x -> In y (erase_first x W).
Proof.
  induction W as [|h W IH]; simpl; [tauto|].
  destruct (Z.eqb_spec h x) as [->|Hne]; simpl; intros [E|E] Hy; auto.
  congruence.
Qed.

Lemma erase_first_perm x W : In x W -> Permutation (x :: erase_first x W) W.
Proof.
  induction W as [|h W IH]; simpl; [tauto|].
  destruct (Z.eqb_spec h x) as [->|Hne]; [reflexivity|].
  intros [E|E]; [congruence|].
  etransitivity; [apply perm_swap|]. constructor. auto.
Qed.

Lemma erase_first_filter (p : Z -> bool) x W :
  p x = false -> filter p (erase_first x W) = filter p W.
Proof.
  intros Hp. induction W as [|h W IH]; simpl; [reflexivity|].
  destruct (Z.eqb_spec h x) as [->|Hne]; simpl.
  - now rewrite Hp.
  - now rewrite IH.
Qed.

Lemma absorb_matches_run (ms : list Match) :
  forall W s,
    absorb_matches ms W s =
    Ok (erase_matched ms W)
       (mkStore (matches s ++ ms) (unmatched_tracks s) (unmatched_detections s)
          (trace s)).
Proof.
  induction ms as [|m ms IH]; intros W s; simpl.
  - unfold ret. now rewrite app_nil_r, store_eta.
  - unfold bind, push_match. rewrite IH. simpl. now rewrite <- app_assoc.
Qed.

Lemma in_erase_matched ms y W : In y (erase_matched ms W) -> In y W.
Proof.
  revert W. induction ms as [|m ms IH]; intros W; simpl; [tauto|].
  intros H. apply IH in H. eapply in_erase_first; eassumption.
Qed.

Lemma erase_matched_keeps ms y W :
  In y W -> ~ In y (map track_idx ms) -> In y (erase_matched ms W).
Proof.
  revert W. induction ms as [|m ms IH]; intros W; simpl; [tauto|].
  intros Hy Hn. apply IH; [|tauto].
  apply erase_first_keeps; [assumption|]. intros ->. tauto.
Qed.

Lemma erase_matched_perm ms :
  forall W,
    NoDup (map track_idx ms) -> incl (map track_idx ms) W ->
    Permutation (map track_idx ms ++ erase_matched ms W) W.
Proof.
  induction ms as [|m ms IH]; intros W Hnd Hin; simpl; [reflexivity|].
  simpl in Hnd, Hin. inversion Hnd as [|? ? Hnotin Hnd']; subst.
  apply incl_cons_inv in Hin as [Hm Hin].
  etransitivity; [|apply (erase_first_perm (track_idx m) W Hm)].
  constructor. apply IH; [assumption|].
  intros y Hy. apply erase_first_keeps; [auto|]. intros ->. tauto.
Qed.

Lemma erase_matched_filter (p : Z -> bool) ms W :
  Forall (fun m => p (track_idx m) = false) ms ->
  filter p (erase_matched ms W) = filter p W.
Proof.
  intros H. revert W. induction H as [|m ms Hm _ IH]; intros W; simpl;
    [reflexivity|].
  now rewrite IH, erase_first_filter.
Qed.

Lemma NoDup_erase_first x W : NoDup W -> NoDup (erase_first x W).
Proof.
  induction 1 as [|h W Hh Hnd IH]; simpl; [constructor|].
  destruct (h =? x); [assumption|].
  constructor; [|assumption]. intros Hin. apply Hh.
  eapply in_erase_first; eassumption.
Qed.

Lemma NoDup_erase_matched ms W : NoDup W -> NoDup (erase_matched ms W).
Proof.
  revert W. induction ms as [|m ms IH]; intros W H; simpl; [assumption|].
  apply IH, NoDup_erase_first, H.
Qed.

(** ** The cascade *)

Lemma rounds_mono tracks W1 W levels evs :
  (forall level tl, In level levels ->
     select_level tracks W1 (1 + level) = Some tl ->
     select_level tracks W (1 + level) = Some tl) ->
  rounds tracks W1 levels evs -> rounds tracks W levels evs.
Proof.
  intros Hsel H. induction H as [levels|level levels evs H IH|
                                 level levels tl dl c N M evs Htl Hne H IH].
  - constructor.
  - apply rounds_skip. apply IH. intros l tl Hl. apply Hsel. now right.
  - apply rounds_round; [apply Hsel; [now left|assumption]|assumption|].
    apply IH. intros l tl' Hl. apply Hsel. now right.
Qed.

Section CascadeFacts.

Variable Solve : list float -> nat -> nat -> list Z.
Variable metric : Metric.
Variable md : float.
Variable tracks : list Track.
Variable dets : list Detection.

(** A round called by the cascade, whatever the collaborators return. *)
Lemma with_locals_any tis dis s :
  tis <> [] -> dis <> [] ->
  let r := with_locals (min_cost_matching Solve metric md tracks dets tis dis) s in
  trace (final_store r) = trace s ++ round_events metric md tracks dets tis dis /\
  matches (final_store r) = matches s /\
  unmatched_tracks (final_store r) = unmatched_tracks s /\
  (forall ms s', r = Ok ms s' -> incl (map track_idx ms) tis).
Proof.
  intros Ht Hd r. subst r. unfold with_locals.
  pose proof (min_cost_matching_trace Solve metric md tracks dets tis dis
                (mkStore [] [] (unmatched_detections s) (trace s)) Ht Hd) as Htr.
  pose proof (min_cost_matching_matched Solve metric md tracks dets tis dis
                (mkStore [] [] (unmatched_detections s) (trace s))) as Hm.
  destruct (min_cost_matching Solve metric md tracks dets tis dis _)
    as [[] s1|s1]; simpl in *.
  - repeat split; auto. intros ms s' E. injection E as <- _. eauto.
  - repeat split; auto. discriminate.
Qed.

(** A round called by the cascade when the collaborators behave. *)
Lemma with_locals_round tis dis s :
  tis <> [] -> dis <> [] ->
  round_ok Solve metric md tracks dets tis dis ->
  exists ms uts uds,
    with_locals (min_cost_matching Solve metric md tracks dets tis dis) s =
    Ok ms (mkStore (matches s) (unmatched_tracks s) uds
             (trace s ++ round_events metric md tracks dets tis dis)) /\
    Permutation (map track_idx ms ++ uts) tis /\
    Permutation (map detection_idx ms ++ uds) dis.
Proof.
  intros Ht Hd Hok. unfold with_locals.
  destruct (min_cost_matching_partition Solve metric md tracks dets tis dis
              (mkStore [] [] (unmatched_detections s) (trace s)) Ht Hd Hok)
    as (ms & uts & uds & -> & Hpt & Hpd).
  simpl. eauto 7.
Qed.

Lemma nonempty_length {A : Type} (l : list A) :
  (length l <? 1)%nat = false <-> l <> [].
Proof.
  destruct l as [|x l]; simpl; split; intros H.
  - discriminate.
  - now elim H.
  - discriminate.
  - reflexivity.
Qed.

(** The rounds of the cascade, whatever the collaborators return. *)
Lemma cascade_levels_rounds (levels : list Z) :
  forall W s,
    NoDup levels ->
    exists evs,
      trace (final_store (cascade_levels Solve metric md tracks dets levels W s)) =
      trace s ++ evs /\
      rounds tracks W levels evs.
Proof.
  induction levels as [|level levels IH]; intros W s Hnd; cbn [cascade_levels].
  - exists []. split; [now rewrite app_nil_r|constructor].
  - inversion Hnd as [|? ? Hnotin Hnd']; subst.
    unfold bind at 1, get_unmatched_detections.
    destruct (length (unmatched_detections s) <? 1)%nat eqn:Huds.
    { exists []. split; [now rewrite app_nil_r|constructor]. }
    apply nonempty_length in Huds.
    unfold bind at 1, lift.
    destruct (select_level tracks W (1 + level)) as [tl|] eqn:Htl;
      [|exists []; split; [now rewrite app_nil_r|constructor]].
    unfold ret at 1.
    destruct (length tl <? 1)%nat eqn:Hne.
    { destruct (IH W s Hnd') as (evs & Htr & Hr).
      exists evs. split; [assumption|now apply rounds_skip]. }
    apply nonempty_length in Hne.
    unfold bind at 1.
    destruct (with_locals_any tl (unmatched_detections s) s Hne Huds)
      as (Htr & _ & _ & Hin).
    destruct (with_locals
                (min_cost_matching Solve metric md tracks dets tl
                   (unmatched_detections s)) s)
      as [ms s1|s1]; simpl in Htr.
    + unfold bind at 1. rewrite absorb_matches_run.
      match goal with
      | |- context [cascade_levels _ _ _ _ _ levels ?W1 ?s1'] =>
          destruct (IH W1 s1' Hnd') as (evs & Htr' & Hr)
      end.
      cbn [trace] in Htr'.
      exists (round_events metric md tracks dets tl (unmatched_detections s) ++ evs).
      split; [now rewrite Htr', Htr, app_assoc|].
      unfold round_events. simpl. apply rounds_round; [assumption|assumption|].
      apply rounds_mono with (W1 := erase_matched ms W); [|assumption].
      intros l tl' Hl Hsel.
      apply select_level_Some in Hsel as (_ & ->).
      apply select_level_Some in Htl as (Hvalid & ->).
      rewrite (select_level_valid tracks W (1 + l) Hvalid). f_equal.
      symmetry. apply erase_matched_filter.
      apply Forall_forall. intros m Hm.
      assert (Hm' : In (track_idx m) (map track_idx ms)) by now apply in_map.
      apply (Hin ms s1 eq_refl) in Hm'. apply filter_In in Hm' as [_ Hm'].
      apply Z.eqb_eq in Hm'. apply Z.eqb_neq. intros E.
      assert (l = level) by lia. subst l. contradiction.
    + exists (round_events metric md tracks dets tl (unmatched_detections s)).
      split; [assumption|].
      unfold round_events. apply rounds_round; [assumption|assumption|constructor].
Qed.

(** A track that belongs to none of the levels stays in the working list. *)
Lemma cascade_levels_keeps (levels : list Z) :
  forall W s W' s' t,
    cascade_levels Solve metric md tracks dets levels W s = Ok W' s' ->
    In t W ->
    (forall level, In level levels -> tsu tracks t <> 1 + level) ->
    In t W'.
Proof.
  induction levels as [|level levels IH]; intros W s W' s' t; cbn [cascade_levels].
  - unfold ret. intros E. now injection E as <- _.
  - unfold bind at 1, get_unmatched_detections.
    destruct (length (unmatched_detections s) <? 1)%nat eqn:Huds.
    { unfold ret. intros E. now injection E as <- _. }
    apply nonempty_length in Huds.
    unfold bind at 1, lift.
    destruct (select_level tracks W (1 + level)) as [tl|] eqn:Htl;
      [|discriminate].
    unfold ret at 1.
    destruct (length tl <? 1)%nat eqn:Hne.
    { intros E Hin Hl. eapply IH; [exact E|exact Hin|].
      intros l Hlv. apply Hl. now right. }
    apply nonempty_length in Hne.
    unfold bind at 1.
    destruct (with_locals_any tl (unmatched_detections s) s Hne Huds)
      as (_ & _ & _ & Hin).
    destruct (with_locals
                (min_cost_matching Solve metric md tracks dets tl
                   (unmatched_detections s)) s)
      as [ms s1|s1]; [|discriminate].
    unfold bind at 1. rewrite absorb_matches_run.
    intros E Ht Hl.
    eapply IH; [exact E| |intros l Hlv; apply Hl; now right].
    apply erase_matched_keeps; [assumption|].
    intros Hm. apply (Hin ms s1 eq_refl) in Hm.
    apply select_level_Some in Htl as (_ & ->).
    apply filter_In in Hm as [_ Hm]. apply Z.eqb_eq in Hm.
    apply (Hl level); [now left|assumption].
Qed.

Lemma env_ok_incl T D T' D' :
  incl T' T -> incl D' D -> env_ok Solve metric md tracks dets T D ->
  env_ok Solve metric md tracks dets T' D'.
Proof.
  intros HT HD H tis dis Ht Hd Hit Hid.
  apply H; auto; eapply incl_tran; eassumption.
Qed.

(** The cascade partitions the working list and the detections. *)
Lemma cascade_levels_partition (levels : list Z) :
  forall W s,
    NoDup W -> Forall (valid_index tracks) W ->
    env_ok Solve metric md tracks dets W (unmatched_detections s) ->
    exists W' ms uds evs,
      cascade_levels Solve metric md tracks dets levels W s =
      Ok W' (mkStore (matches s ++ ms) (unmatched_tracks s) uds (trace s ++ evs)) /\
      Permutation (map track_idx ms ++ W') W /\
      Permutation (map detection_idx ms ++ uds) (unmatched_detections s).
Proof.
  induction levels as [|level levels IH]; intros W s Hnd Hvalid Henv; cbn [cascade_levels].
  - exists W, [], (unmatched_detections s), []. unfold ret.
    rewrite !app_nil_r, store_eta. auto.
  - unfold bind at 1, get_unmatched_detections.
    destruct (length (unmatched_detections s) <? 1)%nat eqn:Huds.
    { exists W, [], (unmatched_detections s), []. unfold ret.
      rewrite !app_nil_r, store_eta. auto. }
    apply nonempty_length in Huds.
    unfold bind at 1, lift.
    rewrite (select_level_valid tracks W (1 + level) Hvalid).
    set (tl := filter (fun i => tsu tracks i =? 1 + level) W).
    unfold ret at 1.
    destruct (length tl <? 1)%nat eqn:Hne; [now apply IH|].
    apply nonempty_length in Hne.
    assert (Htl : incl tl W) by (intros x Hx; apply filter_In in Hx; tauto).
    destruct (with_locals_round tl (unmatched_detections s) s Hne Huds)
      as (ms & uts & uds & Hrun & Hpt & Hpd).
    { apply Henv; auto using incl_refl. }
    unfold bind at 1. rewrite Hrun.
    unfold bind at 1. rewrite absorb_matches_run.
    cbn [matches unmatched_tracks unmatched_detections trace].
    assert (Hms : incl (map track_idx ms) W).
    { intros x Hx. apply Htl. eapply Permutation_in; [exact Hpt|].
      apply in_or_app. now left. }
    assert (Hndm : NoDup (map track_idx ms)).
    { assert (H : NoDup (map track_idx ms ++ uts)).
      { eapply Permutation_NoDup; [apply Permutation_sym, Hpt|].
        now apply NoDup_filter. }
      eapply NoDup_app_remove_r; eassumption. }
    destruct (IH (erase_matched ms W)
                (mkStore (matches s ++ ms) (unmatched_tracks s) uds
                   (trace s ++ round_events metric md tracks dets tl
                                 (unmatched_detections s))))
      as (W' & ms2 & uds2 & evs & Hrun2 & Hpt2 & Hpd2).
    + now apply NoDup_erase_matched.
    + apply Forall_forall. intros x Hx. apply in_erase_matched in Hx.
      rewrite Forall_forall in Hvalid. auto.
    + simpl. eapply env_ok_incl; [| |exact Henv].
      * intros x Hx. eapply in_erase_matched; eassumption.
      * intros x Hx. eapply Permutation_in; [exact Hpd|].
        apply in_or_app. now right.
    + exists W', (ms ++ ms2), uds2,
        (round_events metric md tracks dets tl (unmatched_detections s) ++ evs).
      rewrite Hrun2. cbn [matches unmatched_tracks unmatched_detections trace].
      rewrite <- !app_assoc. split; [reflexivity|]. split.
      * rewrite map_app, <- app_assoc.
        etransitivity; [apply Permutation_app_head, Hpt2|].
        now apply erase_matched_perm.
      * simpl in Hpd2. rewrite map_app, <- app_assoc.
        etransitivity; [apply Permutation_app_head, Hpd2|assumption].
Qed.

End CascadeFacts.

(** ** Where a verdict comes from *)

Lemma Forall2_in_r {A B : Type} (R : A -> B -> Prop) (l : list A) (l' : list B) (y : B) :
  Forall2 R l l' -> In y l' -> exists x, In x l /\ R x y.
Proof.
  induction 1 as [|x y' l l' Hxy _ IH]; simpl; [tauto|].
  intros [->|Hin].
  - exists x. auto.
  - destruct (IH Hin) as (x' & Hx' & Hr). exists x'. auto.
Qed.

Lemma Forall2_in_l {A B : Type} (R : A -> B -> Prop) (l : list A) (l' : list B) (x : A) :
  Forall2 R l l' -> In x l -> exists y, In y l' /\ R x y.
Proof.
  induction 1 as [|x' y l l' Hxy _ IH]; simpl; [tauto|].
  intros [->|Hin].
  - exists y. auto.
  - destruct (IH Hin) as (y' & Hy' & Hr). exists y'. auto.
Qed.

Lemma in_matched_of (m : Match) (vs : list Verdict) :
  In m (matched_of vs) <-> In (Matched (track_idx m) (detection_idx m)) vs.
Proof.
  unfold matched_of. rewrite in_flat_map. split.
  - intros (v & Hv & Hm). destruct v; simpl in Hm; try contradiction.
    destruct Hm as [<-|[]]. exact Hv.
  - intros H. eexists. split; [exact H|]. destruct m. now left.
Qed.

Lemma in_unmatched_tracks_of (t : Z) (vs : list Verdict) :
  In (Unmatched t) vs -> In t (unmatched_tracks_of vs).
Proof.
  intros H. unfold unmatched_tracks_of. apply in_flat_map.
  eexists. split; [exact H|]. now left.
Qed.

Lemma verdict_matched cm md tis dis asg row t d :
  verdict cm md tis dis asg row = Some (Matched t d) ->
  exists col c,
    nth_error asg row = Some col /\ 0 <= col /\
    nth_error tis row = Some t /\
    nth_error dis (Z.to_nat col) = Some d /\
    coeff cm row (Z.to_nat col) = Some c /\
    F32.gt c md = false.
Proof.
  unfold verdict.
  destruct (nth_error asg row) as [col|]; [|discriminate].
  destruct (col =? -1).
  { destruct (nth_error tis row); discriminate. }
  destruct (nth_error tis row) as [t'|]; [|discriminate].
  unfold vec_at. destruct (Z.ltb_spec col 0); [discriminate|].
  destruct (nth_error dis (Z.to_nat col)) as [d'|] eqn:Ed; [|discriminate].
  destruct (coeff cm row (Z.to_nat col)) as [c|] eqn:Ec; [|discriminate].
  destruct (F32.gt c md) eqn:Hgt; [discriminate|].
  intros E. injection E as -> ->. exists col, c. repeat split; auto.
Qed.

Lemma verdict_unmatched cm md tis dis asg row v :
  nth_error asg row = Some (-1) ->
  verdict cm md tis dis asg row = Some v ->
  exists t, nth_error tis row = Some t /\ v = Unmatched t.
Proof.
  unfold verdict. intros ->. simpl.
  destruct (nth_error tis row) as [t|]; simpl; [|discriminate].
  intros E. injection E as <-. eauto.
Qed.

(** ** Comparisons of floats *)

Lemma SFltb_leb_trans (b c d : spec_float) :
  SFltb b c = true -> SFleb c d = true -> SFltb d b = false.
Proof.
  unfold SFltb, SFleb.
  destruct b as [sb|sb| |sb mb eb], c as [sc|sc| |sc mc ec], d as [sd|sd| |sd md ed];
    try destruct sb; try destruct sc; try destruct sd; simpl;
    try discriminate; try reflexivity; intros H1 H2.
  all: change (Pos.compare_cont Eq) with Pos.compare in *.
  all: destruct (Z.compare_spec eb ec), (Z.compare_spec ec ed),
         (Z.compare_spec ed eb);
       try lia; try discriminate; try reflexivity; subst.
  all: destruct (Pos.compare_spec mb mc), (Pos.compare_spec mc md),
         (Pos.compare_spec md mb);
       simpl in *; try lia; try discriminate; try reflexivity.
Qed.

Lemma SFleb_not_gt (a b : spec_float) : SFleb a b = true -> SFltb b a = false.
Proof.
  unfold SFltb, SFleb.
  destruct a as [sa|sa| |sa ma ea], b as [sb|sb| |sb mb eb];
    try destruct sa; try destruct sb; simpl;
    try discriminate; try reflexivity; intros H.
  all: change (Pos.compare_cont Eq) with Pos.compare in *.
  all: destruct (Z.compare_spec ea eb), (Z.compare_spec eb ea);
       try lia; try discriminate; try reflexivity; subst.
  all: destruct (Pos.compare_spec ma mb), (Pos.compare_spec mb ma);
       simpl in *; try lia; try discriminate; try reflexivity.
Qed.

(** A cost within [max_distance] passes the threshold test after the clamp,
    whatever the bound of the clamp. *)
Lemma min_le_not_gt (c b max_distance : float) :
  F32.le c max_distance = true -> F32.gt (F32.min c b) max_distance = false.
Proof.
  unfold F32.le, F32.gt, F32.min. intros Hle.
  destruct (SFltb b c) eqn:Hb.
  - eapply SFltb_leb_trans; eassumption.
  - now apply SFleb_not_gt.
Qed.

(** When the bound of the clamp is above [max_distance], the clamp lets the
    threshold test see every cost above [max_distance]. *)
Lemma min_not_gt (c b max_distance : float) :
  F32.gt b max_distance = true ->
  F32.gt (F32.min c b) max_distance = false ->
  F32.gt c max_distance = false.
Proof.
  unfold F32.gt, F32.min. intros Hb. destruct (SFltb b c); congruence.
Qed.

(** * The claims *)

(** ** Completeness of the outputs (C1) *)

(** X1. One round, called with two non-empty index lists: the pairs in
    [matches] and the two unmatched lists partition the index lists, whatever
    the output containers held before. *)
Lemma min_cost_matching_complete Solve metric md tracks dets tis dis s :
  tis <> [] -> dis <> [] ->
  round_ok Solve metric md tracks dets tis dis ->
  exists s',
    min_cost_matching Solve metric md tracks dets tis dis s = Ok tt s' /\
    Permutation (map track_idx (matches s') ++ unmatched_tracks s') tis /\
    Permutation (map detection_idx (matches s') ++ unmatched_detections s') dis.
Proof.
  intros Ht Hd Hok.
  destruct (min_cost_matching_partition Solve metric md tracks dets tis dis s Ht Hd Hok)
    as (ms & uts & uds & Hrun & Hpt & Hpd).
  eexists. split; [exact Hrun|]. simpl. auto.
Qed.

(** The cascade: the pairs that the call appends to [matches] and the two
    unmatched lists partition the index lists. What [matches] held before the
    call stays in front of them. *)
Lemma matching_cascade_complete Solve metric md tracks dets depth tis dis s :
  NoDup tis -> Forall (valid_index tracks) tis ->
  env_ok Solve metric md tracks dets tis dis ->
  exists ms s',
    matching_cascade Solve metric md tracks dets depth tis dis s = Ok tt s' /\
    matches s' = matches s ++ ms /\
    Permutation (map track_idx ms ++ unmatched_tracks s') tis /\
    Permutation (map detection_idx ms ++ unmatched_detections s') dis.
Proof.
  intros Hnd Hvalid Henv. unfold matching_cascade.
  unfold bind at 1, set_unmatched_detections.
  destruct (cascade_levels_partition Solve metric md tracks dets (levels_of depth)
              tis (mkStore (matches s) (unmatched_tracks s) dis (trace s))
              Hnd Hvalid Henv)
    as (W' & ms & uds & evs & Hrun & Hpt & Hpd).
  unfold bind at 1. rewrite Hrun. unfold set_unmatched_tracks. simpl.
  exists ms. eexists. split; [reflexivity|]. simpl. auto.
Qed.

(** C1, on the code: a call whose [matches] container is not empty leaves the
    old pairs in it, in the early return of [min_cost_matching] and throughout
    [matching_cascade]; an index then occurs twice across the outputs: here
    detection 0 in [matches] and in [unmatched_detections], and track 0 in two
    pairs of [matches]. *)
Theorem completeness_fails_on_stale_matches :
  (exists s',
     min_cost_matching diagonal_solver (constant_metric (F32.of_Z 1)) (F32.of_Z 2)
       [track_of_age 1] [box 0] [] [0] (mkStore [mkMatch 0 0] [] [] []) = Ok tt s' /\
     map detection_idx (matches s') ++ unmatched_detections s' = [0; 0]) /\
  (exists s',
     matching_cascade diagonal_solver (constant_metric (F32.of_Z 1)) (F32.of_Z 2)
       [track_of_age 1] [box 0] 3 [0] [0] (mkStore [mkMatch 0 0] [] [] []) = Ok tt s' /\
     map track_idx (matches s') ++ unmatched_tracks s' = [0; 0]).
Proof.
  split; eexists; (split; [vm_compute; reflexivity|reflexivity]).
Qed.

(** ** The threshold (C2) *)

(** X3. Where the bound of the clamp is above [max_distance], no pair in
    [matches] has a cost above [max_distance]. *)
Lemma min_cost_matching_threshold Solve metric md tracks dets tis dis s s' m :
  tis <> [] -> dis <> [] ->
  F32.gt (clamp_bound md) md = true ->
  min_cost_matching Solve metric md tracks dets tis dis s = Ok tt s' ->
  In m (matches s') ->
  exists row col c,
    nth_error tis row = Some (track_idx m) /\
    nth_error dis col = Some (detection_idx m) /\
    coeff (metric tracks dets tis dis) row col = Some c /\
    F32.gt c md = false.
Proof.
  intros Ht Hd Hb Hrun Hm.
  pose proof (min_cost_matching_run Solve metric md tracks dets tis dis s Ht Hd) as H.
  cbv zeta in H.
  destruct (verdicts _ md tis dis _ _) as [vs|] eqn:Hvs;
    rewrite Hrun in H; [|discriminate].
  injection H as ->. cbn [matches] in Hm.
  apply verdicts_Forall2 in Hvs. apply in_matched_of in Hm.
  destruct (Forall2_in_r _ _ _ _ Hvs Hm) as (row & _ & Hrow).
  apply verdict_matched in Hrow as (col & c' & _ & _ & Et & Ed & Ec & Hgt).
  unfold clamped in Ec. rewrite coeff_cwise_min in Ec.
  destruct (coeff (metric tracks dets tis dis) row (Z.to_nat col)) as [c|] eqn:Eo;
    [|discriminate].
  injection Ec as <-.
  exists row, (Z.to_nat col), c. repeat split; auto.
  eapply min_not_gt; eassumption.
Qed.

(** C2, on the code: the bound of the clamp, [max_distance+1e-5], becomes a
    [float] coefficient; from [max_distance = 256] on it rounds to
    [max_distance] itself, the clamped cost is never above [max_distance], and
    the pair is emitted. Here the cost is 2048 and [max_distance] 1024; with
    [max_distance] 100 the same pair is demoted. *)
Theorem threshold_lost_in_rounding :
  clamp_bound (F32.of_Z 1024) = F32.of_Z 1024 /\
  F32.gt (F32.of_Z 2048) (F32.of_Z 1024) = true /\
  coeff (constant_metric (F32.of_Z 2048) [track_of_age 1] [box 0] [0] [0]) 0 0 =
    Some (F32.of_Z 2048) /\
  min_cost_matching diagonal_solver (constant_metric (F32.of_Z 2048)) (F32.of_Z 1024)
    [track_of_age 1] [box 0] [0] [0] empty_store =
  Ok tt (mkStore [mkMatch 0 0] [] []
           [EvMetric [0] [0]; EvSolve [F32.of_Z 1024] 1 1]) /\
  min_cost_matching diagonal_solver (constant_metric (F32.of_Z 2048)) (F32.of_Z 100)
    [track_of_age 1] [box 0] [0] [0] empty_store =
  Ok tt (mkStore [] [0] [0]
           [EvMetric [0] [0]; EvSolve [clamp_bound (F32.of_Z 100)] 1 1]).
Proof. repeat split; vm_compute; reflexivity. Qed.

(** ** The empty round (C5) *)

(** C5, on the code: the early return assigns the two unmatched lists, calls
    no solver and leaves [matches] as the caller supplied it
    ([min_cost_matching_empty]): a container that holds a pair still holds it
    afterwards, where the claim has empty matches. *)
Theorem empty_round_keeps_matches :
  min_cost_matching diagonal_solver (constant_metric (F32.of_Z 1)) (F32.of_Z 2)
    [track_of_age 1] [box 0; box 1] [] [1; 0] (mkStore [mkMatch 7 8] [9] [] []) =
  Ok tt (mkStore [mkMatch 7 8] [] [1; 0] []).
Proof. reflexivity. Qed.

(** ** Dimensions of the cost matrix (C7) *)

(** C7 as stated fails: a [1 x 1] matrix for two tracks and one detection is
    not rejected; the solver runs on it, the outputs are written, and the
    second track is in none of them. *)
Lemma mismatch_not_rejected :
  (rows (narrow_metric (F32.of_Z 1) [track_of_age 1; track_of_age 1] [box 0] [0; 1] [0]),
   cols (narrow_metric (F32.of_Z 1) [track_of_age 1; track_of_age 1] [box 0] [0; 1] [0]))
  <> (length [0; 1], length [0]) /\
  min_cost_matching diagonal_solver (narrow_metric (F32.of_Z 1)) (F32.of_Z 2)
    [track_of_age 1; track_of_age 1] [box 0] [0; 1] [0] (mkStore [] [5] [6] []) =
  Ok tt (mkStore [mkMatch 0 0] [] []
           [EvMetric [0; 1] [0]; EvSolve [F32.of_Z 1] 1 1]).
Proof. split; [discriminate|vm_compute; reflexivity]. Qed.

Lemma for_each_interpret_upto cm md tis dis asg (rws : list nat) :
  forall s,
    final_store (for_each rws (interpret_row cm md tis dis asg) s) =
    fold_left apply_verdict (verdicts_upto cm md tis dis asg rws) s.
Proof.
  induction rws as [|row rws IH]; intros s; simpl; [reflexivity|].
  unfold bind. rewrite interpret_row_verdict.
  destruct (verdict cm md tis dis asg row) as [v|]; simpl; [apply IH|reflexivity].
Qed.

Lemma verdicts_upto_length cm md tis dis asg (rws : list nat) :
  match verdicts cm md tis dis asg rws with
  | Some vs => verdicts_upto cm md tis dis asg rws = vs /\ length vs = length rws
  | None => (length (verdicts_upto cm md tis dis asg rws) < length rws)%nat
  end.
Proof.
  induction rws as [|row rws IH]; simpl; [auto|].
  destruct (verdict cm md tis dis asg row) as [v|]; simpl; [|lia].
  destruct (verdicts cm md tis dis asg rws) as [vs|]; simpl.
  - destruct IH as (-> & ->). auto.
  - lia.
Qed.

(** C7, amended: [min_cost_matching] does not look at the dimensions of the
    matrix that the metric returns. With two non-empty index lists it always
    calls the solver, once, on the clamped matrix and with that matrix's own
    numbers of rows and columns, and then writes the outputs from the rows of
    the assignment that the solver returned: [unmatched_detections] gets the
    columns that no row holds, and each row of the corrected assignment, as
    far as the rows can be read, gives a pair, an unmatched track, or an
    unmatched track and an unmatched detection. The call returns when every
    row could be read. *)
Theorem solver_called_whatever_the_dimensions
    Solve metric md tracks dets tis dis s :
  tis <> [] -> dis <> [] ->
  trace (final_store (min_cost_matching Solve metric md tracks dets tis dis s)) =
  trace s ++
  [EvMetric tis dis;
   EvSolve (data (cwise_min (metric tracks dets tis dis) (clamp_bound md)))
     (rows (metric tracks dets tis dis)) (cols (metric tracks dets tis dis))] /\
  exists assignment vs,
    assignment =
      Solve (data (cwise_min (metric tracks dets tis dis) (clamp_bound md)))
        (rows (metric tracks dets tis dis)) (cols (metric tracks dets tis dis)) /\
    vs = verdicts_upto (cwise_min (metric tracks dets tis dis) (clamp_bound md)) md
           tis dis (keep_first_zero assignment) (seq 0 (length assignment)) /\
    matches (final_store (min_cost_matching Solve metric md tracks dets tis dis s)) =
      matched_of vs /\
    unmatched_tracks
      (final_store (min_cost_matching Solve metric md tracks dets tis dis s)) =
      unmatched_tracks_of vs /\
    unmatched_detections
      (final_store (min_cost_matching Solve metric md tracks dets tis dis s)) =
      map (at_index dis) (free_columns assignment (length dis)) ++
      unmatched_detections_of vs /\
    (is_ok (min_cost_matching Solve metric md tracks dets tis dis s) = true <->
     length vs = length assignment).
Proof.
  intros Ht Hd.
  split; [exact (min_cost_matching_trace Solve metric md tracks dets tis dis s Ht Hd)|].
  pose proof (min_cost_matching_unfold Solve metric md tracks dets tis dis s Ht Hd)
    as Hun.
  pose proof (min_cost_matching_run Solve metric md tracks dets tis dis s Ht Hd)
    as Hrun.
  cbv zeta in Hun, Hrun. unfold solved, clamped in Hun, Hrun.
  cbn [cwise_min rows cols] in Hun, Hrun.
  set (cm := cwise_min (metric tracks dets tis dis) (clamp_bound md)) in *.
  set (asg := Solve (data cm) (rows (metric tracks dets tis dis))
                (cols (metric tracks dets tis dis))) in *.
  exists asg, (verdicts_upto cm md tis dis (keep_first_zero asg) (seq 0 (length asg))).
  split; [reflexivity|]. split; [reflexivity|].
  rewrite length_keep_first_zero in Hun, Hrun.
  rewrite Hun, for_each_interpret_upto, fold_apply_verdict.
  cbn [matches unmatched_tracks unmatched_detections app].
  split; [reflexivity|]. split; [reflexivity|]. split; [reflexivity|].
  rewrite <- Hun.
  pose proof (verdicts_upto_length cm md tis dis (keep_first_zero asg)
                (seq 0 (length asg))) as Hlen.
  destruct (verdicts cm md tis dis (keep_first_zero asg) (seq 0 (length asg)))
    as [vs|].
  - destruct Hlen as (-> & ->). rewrite Hrun, length_seq. simpl. tauto.
  - rewrite Hrun. rewrite length_seq in Hlen. split; [discriminate|lia].
Qed.

(** The call of the counterexample: one row, for two track indices. *)
Lemma solver_called_whatever_the_dimensions_witness :
  trace (final_store
           (min_cost_matching diagonal_solver (narrow_metric (F32.of_Z 1)) (F32.of_Z 2)
              [track_of_age 1; track_of_age 1] [box 0] [0; 1] [0]
              (mkStore [] [5] [6] []))) =
    [EvMetric [0; 1] [0]; EvSolve [F32.of_Z 1] 1 1] /\
  matches (final_store
             (min_cost_matching diagonal_solver (narrow_metric (F32.of_Z 1))
                (F32.of_Z 2) [track_of_age 1; track_of_age 1] [box 0] [0; 1] [0]
                (mkStore [] [5] [6] []))) = [mkMatch 0 0] /\
  unmatched_tracks
    (final_store
       (min_cost_matching diagonal_solver (narrow_metric (F32.of_Z 1))
          (F32.of_Z 2) [track_of_age 1; track_of_age 1] [box 0] [0; 1] [0]
          (mkStore [] [5] [6] []))) = [] /\
  unmatched_detections
    (final_store
       (min_cost_matching diagonal_solver (narrow_metric (F32.of_Z 1))
          (F32.of_Z 2) [track_of_age 1; track_of_age 1] [box 0] [0; 1] [0]
          (mkStore [] [5] [6] []))) = [].
Proof.
  destruct (solver_called_whatever_the_dimensions diagonal_solver
              (narrow_metric (F32.of_Z 1)) (F32.of_Z 2)
              [track_of_age 1; track_of_age 1] [box 0] [0; 1] [0]
              (mkStore [] [5] [6] []) ltac:(discriminate) ltac:(discriminate))
    as (Htr & asg & vs & Hasg & Hvs & Hm & Hu & Hd & _).
  rewrite Htr, Hm, Hu, Hd, Hvs, Hasg.
  vm_compute. auto.
Defined.

(** ** Initialisation of the cascade (C8) *)

(** C8, on the code: [matching_cascade] assigns [unmatched_detections] and
    never clears [matches]: with no level to run the container comes back as
    the caller supplied it, and with levels the new pairs follow the old. *)
Theorem cascade_keeps_matches :
  matching_cascade diagonal_solver (constant_metric (F32.of_Z 1)) (F32.of_Z 2)
    [track_of_age 1] [box 0] 0 [0] [0] (mkStore [mkMatch 7 8] [5] [6] []) =
  Ok tt (mkStore [mkMatch 7 8] [0] [0] []) /\
  matching_cascade diagonal_solver (constant_metric (F32.of_Z 1)) (F32.of_Z 2)
    [track_of_age 1] [box 0] 3 [0] [0] (mkStore [mkMatch 7 8] [5] [6] []) =
  Ok tt (mkStore [mkMatch 7 8; mkMatch 0 0] [] []
           [EvMetric [0] [0]; EvSolve [F32.of_Z 1] 1 1]).
Proof. split; vm_compute; reflexivity. Qed.

(** ** Staging of the cascade (C9) *)

Lemma NoDup_levels_of (depth : Z) : NoDup (levels_of depth).
Proof.
  unfold levels_of.
  apply Finite.Injective_map_NoDup; [exact Nat2Z.inj|apply seq_NoDup].
Qed.

Lemma in_levels_of (depth level : Z) :
  In level (levels_of depth) <-> 0 <= level < depth.
Proof.
  unfold levels_of. rewrite in_map_iff. split.
  - intros (n & <- & Hn). apply in_seq in Hn. lia.
  - intros H. exists (Z.to_nat level). split; [lia|]. apply in_seq. lia.
Qed.

Lemma levels_of_pos (depth : Z) :
  1 <= depth -> exists rest, levels_of depth = 0 :: rest.
Proof.
  intros H. unfold levels_of.
  destruct (Z.to_nat depth) as [|n] eqn:E; [lia|].
  simpl. eauto.
Qed.

Lemma rounds_metric tracks W levels evs tl dl :
  rounds tracks W levels evs -> In (EvMetric tl dl) evs ->
  exists level,
    In level levels /\ select_level tracks W (1 + level) = Some tl /\ tl <> [].
Proof.
  induction 1 as [levels|level levels evs H IH|
                  level levels tl' dl' c N M evs Htl Hne H IH]; simpl.
  - tauto.
  - intros Hin. destruct (IH Hin) as (l & Hl & Hsel). exists l. auto.
  - intros [E|[E|Hin]].
    + injection E as -> ->. exists level. auto.
    + discriminate.
    + destruct (IH Hin) as (l & Hl & Hsel). exists l. auto.
Qed.

Section Staging.

Variable Solve : list float -> nat -> nat -> list Z.
Variable metric : Metric.
Variable md : float.
Variable tracks : list Track.
Variable dets : list Detection.

(** The rounds of a call of [matching_cascade]. *)
Lemma matching_cascade_rounds depth tis dis s :
  exists evs,
    trace (final_store (matching_cascade Solve metric md tracks dets depth tis dis s)) =
    trace s ++ evs /\
    rounds tracks tis (levels_of depth) evs.
Proof.
  unfold matching_cascade. unfold bind at 1, set_unmatched_detections.
  destruct (cascade_levels_rounds Solve metric md tracks dets (levels_of depth) tis
              (mkStore (matches s) (unmatched_tracks s) dis (trace s))
              (NoDup_levels_of depth)) as (evs & Htr & Hr).
  exists evs. split; [|assumption].
  unfold bind at 1.
  destruct (cascade_levels Solve metric md tracks dets (levels_of depth) tis _)
    as [W s1|s1]; exact Htr.
Qed.

(** With no detection left the loop is left at once. *)
Lemma cascade_levels_no_detections levels W s :
  unmatched_detections s = [] ->
  cascade_levels Solve metric md tracks dets levels W s = Ok W s.
Proof.
  intros H. destruct levels as [|level levels]; cbn [cascade_levels]; [reflexivity|].
  unfold bind, get_unmatched_detections. now rewrite H.
Qed.

(** A round of one track against one detection whose cost is within
    [max_distance]. *)
Lemma single_round t d c s :
  metric tracks dets [t] [d] = mkMatrix 1 1 [c] ->
  F32.le c md = true ->
  (forall cost, Solve cost 1%nat 1%nat = [0]) ->
  min_cost_matching Solve metric md tracks dets [t] [d] s =
  Ok tt (mkStore [mkMatch t d] [] []
           (trace s ++ round_events metric md tracks dets [t] [d])).
Proof.
  intros Hm Hc HS.
  pose proof (min_cost_matching_run Solve metric md tracks dets [t] [d] s
                ltac:(discriminate) ltac:(discriminate)) as H.
  cbv zeta in H.
  assert (Hasg : solved Solve metric md tracks dets [t] [d] = [0]).
  { unfold solved, clamped. rewrite Hm. apply HS. }
  rewrite Hasg in H.
  assert (Hv : verdicts (clamped metric md tracks dets [t] [d]) md [t] [d]
                 (keep_first_zero [0]) (seq 0 (length (keep_first_zero [0]))) =
               Some [Matched t d]).
  { unfold clamped. rewrite Hm.
    change (keep_first_zero [0]) with [0].
    cbn [length seq verdicts verdict nth_error].
    change (0 =? -1) with false. cbv iota.
    change (vec_at [d] 0) with (Some d).
    change (0 <? 0) with false. cbv iota.
    change (coeff (cwise_min (mkMatrix 1 1 [c]) (clamp_bound md)) 0 (Z.to_nat 0))
      with (Some (F32.min c (clamp_bound md))).
    cbv iota. now rewrite (min_le_not_gt c (clamp_bound md) md Hc). }
  rewrite Hv in H. rewrite H. reflexivity.
Qed.

End Staging.

Lemma Permutation_filter_1 {A : Type} (p : A -> bool) (l l' : list A) :
  Permutation l l' -> Permutation (filter p l) (filter p l').
Proof.
  induction 1 as [|x l l' _ IH|x y l|l l' l'' _ IH1 _ IH2]; simpl.
  - constructor.
  - destruct (p x); [now constructor|assumption].
  - destruct (p x), (p y); try reflexivity. apply perm_swap.
  - etransitivity; eassumption.
Qed.

(** C9: a track of [track_indices] whose [time_since_update_] is below 1 or
    above [cascade_depth] is in no round of the cascade and is in
    [unmatched_tracks] whenever the call returns, whatever the detections, the
    metric and the solver; and the call does return when the collaborators
    behave. *)
Theorem out_of_range_track_unmatched
    Solve metric md tracks dets depth tis dis s t trk :
  In t tis -> vec_at tracks t = Some trk ->
  time_since_update_ trk < 1 \/ depth < time_since_update_ trk ->
  (forall evs tl dl,
     trace (final_store (matching_cascade Solve metric md tracks dets depth tis dis s)) =
     trace s ++ evs ->
     In (EvMetric tl dl) evs -> ~ In t tl) /\
  (forall s',
     matching_cascade Solve metric md tracks dets depth tis dis s = Ok tt s' ->
     In t (unmatched_tracks s')) /\
  (NoDup tis -> Forall (valid_index tracks) tis ->
   env_ok Solve metric md tracks dets tis dis ->
   exists s', matching_cascade Solve metric md tracks dets depth tis dis s = Ok tt s').
Proof.
  intros Hin Htrk Hage.
  assert (Hlevel : forall level, In level (levels_of depth) ->
                     tsu tracks t <> 1 + level).
  { intros level Hl. apply in_levels_of in Hl. unfold tsu. rewrite Htrk. lia. }
  split; [|split].
  - intros evs tl dl Htr Hev Htl.
    destruct (matching_cascade_rounds Solve metric md tracks dets depth tis dis s)
      as (evs' & Htr' & Hr).
    rewrite Htr in Htr'. apply app_inv_head in Htr'. subst evs'.
    destruct (rounds_metric _ _ _ _ _ _ Hr Hev) as (level & Hl & Hsel & _).
    apply select_level_Some in Hsel as (_ & ->).
    apply filter_In in Htl as [_ E]. apply Z.eqb_eq in E.
    exact (Hlevel level Hl E).
  - intros s'. unfold matching_cascade.
    unfold bind at 1, set_unmatched_detections. unfold bind at 1.
    destruct (cascade_levels Solve metric md tracks dets (levels_of depth) tis _)
      as [W s1|s1] eqn:Hrun; [|discriminate].
    unfold set_unmatched_tracks. intros E. injection E as <-. simpl.
    eapply cascade_levels_keeps; eassumption.
  - intros Hnd Hvalid Henv.
    destruct (matching_cascade_complete Solve metric md tracks dets depth tis dis s
                Hnd Hvalid Henv) as (ms & s' & Hrun & _).
    eauto.
Qed.

(** A track of age 5 in a cascade of depth 3. *)
Lemma out_of_range_track_unmatched_witness :
  In 1 [0; 1] /\
  vec_at [track_of_age 1; track_of_age 5] 1 = Some (track_of_age 5) /\
  (time_since_update_ (track_of_age 5) < 1 \/ 3 < time_since_update_ (track_of_age 5)) /\
  (forall s',
     matching_cascade diagonal_solver (constant_metric (F32.of_Z 1)) (F32.of_Z 2)
       [track_of_age 1; track_of_age 5] [box 0] 3 [0; 1] [0] empty_store = Ok tt s' ->
     In 1 (unmatched_tracks s')).
Proof.
  assert (H1 : In 1 [0; 1]) by (simpl; auto).
  assert (H2 : vec_at [track_of_age 1; track_of_age 5] 1 = Some (track_of_age 5))
    by reflexivity.
  assert (H3 : time_since_update_ (track_of_age 5) < 1 \/
               3 < time_since_update_ (track_of_age 5)) by (right; simpl; lia).
  split; [exact H1|]. split; [exact H2|]. split; [exact H3|].
  exact (proj1 (proj2 (out_of_range_track_unmatched diagonal_solver
                         (constant_metric (F32.of_Z 1)) (F32.of_Z 2)
                         [track_of_age 1; track_of_age 5] [box 0] 3 [0; 1] [0]
                         empty_store 1 (track_of_age 5) H1 H2 H3))).
Defined.

(** ** The zero correction inside a round (C6) *)

Lemma kill_zeros_nth l row c :
  nth_error l row = Some c ->
  nth_error (kill_zeros l) row = Some (if c =? 0 then -1 else c).
Proof.
  intros H. unfold kill_zeros.
  now rewrite nth_error_map, H.
Qed.

Lemma keep_first_zero_nth l :
  forall row c,
    nth_error l row = Some c ->
    nth_error (keep_first_zero l) row =
    Some (if (c =? 0) && negb (row =? find_from l 0 0)%nat then -1 else c).
Proof.
  induction l as [|h l IH]; intros [|row] c; simpl; try discriminate.
  - intros E. injection E as ->.
    destruct (Z.eqb_spec c 0) as [->|Hne]; reflexivity.
  - intros E. destruct (Z.eqb_spec h 0) as [->|Hne]; simpl.
    + rewrite (kill_zeros_nth l row c E). now rewrite andb_true_r.
    + now rewrite (IH row c E).
Qed.

(** C6: when the solver leaves 0 in several rows, [min_cost_matching] turns
    every 0 but the first into -1 before it reads the rows. No column is then
    held by two rows (the solver gives no positive column twice), the rows
    whose 0 was turned are reported as unmatched tracks, and a pair with the
    detection of column 0 can only come from the first row that held 0. *)
Theorem zero_correction Solve metric md tracks dets tis dis s :
  tis <> [] -> dis <> [] ->
  round_ok Solve metric md tracks dets tis dis ->
  let asg := solved Solve metric md tracks dets tis dis in
  let r0 := find_from asg 0 0 in
  exists asg' s',
    fix_zeros asg = Some asg' /\
    (forall row c,
       nth_error asg row = Some c ->
       nth_error asg' row =
       Some (if (c =? 0) && negb (row =? r0)%nat then -1 else c)) /\
    NoDup (assigned asg') /\
    min_cost_matching Solve metric md tracks dets tis dis s = Ok tt s' /\
    (forall row,
       nth_error asg row = Some 0 -> row <> r0 ->
       exists t, nth_error tis row = Some t /\ In t (unmatched_tracks s')) /\
    (NoDup dis ->
     forall m,
       In m (matches s') -> nth_error dis 0 = Some (detection_idx m) ->
       nth_error asg r0 = Some 0 /\ nth_error tis r0 = Some (track_idx m)).
Proof.
  intros Ht Hd Hok asg r0.
  destruct (round_verdicts Solve metric md tracks dets tis dis Hok)
    as (vs & Hvs & _ & _).
  pose proof (min_cost_matching_run Solve metric md tracks dets tis dis s Ht Hd) as Hrun.
  cbv zeta in Hrun. rewrite Hvs in Hrun. fold asg in Hvs, Hrun.
  destruct Hok as (_ & _ & _ & Hasg).
  apply verdicts_Forall2 in Hvs.
  exists (keep_first_zero asg). eexists.
  split; [apply fix_zeros_spec|].
  split; [apply keep_first_zero_nth|].
  split; [exact (NoDup_assigned _ _ _ Hasg)|].
  split; [exact Hrun|].
  cbn [matches unmatched_tracks]. split.
  - intros row Hrow Hne.
    pose proof (keep_first_zero_nth asg row 0 Hrow) as Hrow'.
    fold r0 in Hrow'.
    replace ((0 =? 0) && negb (row =? r0)%nat) with true in Hrow'
      by (symmetry; apply andb_true_iff; split;
          [reflexivity|now apply negb_true_iff, Nat.eqb_neq]).
    assert (Hin : In row (seq 0 (length (keep_first_zero asg)))).
    { apply in_seq. split; [lia|]. simpl. apply nth_error_Some. congruence. }
    destruct (Forall2_in_l _ _ _ _ Hvs Hin) as (v & Hv & Hverdict).
    destruct (verdict_unmatched _ _ _ _ _ _ _ Hrow' Hverdict) as (t & Et & ->).
    exists t. split; [assumption|]. now apply in_unmatched_tracks_of.
  - intros Hnd m Hm Hd0.
    apply in_matched_of in Hm.
    destruct (Forall2_in_r _ _ _ _ Hvs Hm) as (row & _ & Hverdict).
    apply verdict_matched in Hverdict as (col & c & Hcol & Hge & Et & Ed & _ & _).
    assert (Hc0 : Z.to_nat col = 0%nat).
    { apply (proj1 (NoDup_nth_error dis) Hnd).
      - apply nth_error_Some. congruence.
      - congruence. }
    assert (col = 0) by lia. subst col.
    destruct (nth_error asg row) as [c0|] eqn:Ec0.
    + pose proof (keep_first_zero_nth asg row c0 Ec0) as Hrow'.
      fold r0 in Hrow'. rewrite Hcol in Hrow'. injection Hrow' as E.
      destruct (Z.eqb_spec c0 0) as [->|Hne]; [|simpl in E; congruence].
      destruct (Nat.eqb_spec row r0) as [->|Hne]; [|simpl in E; discriminate].
      auto.
    + apply nth_error_None in Ec0.
      assert (nth_error (keep_first_zero asg) row <> None) by congruence.
      apply nth_error_Some in H. rewrite length_keep_first_zero in H. lia.
Qed.

(** Three rows left at 0 by the solver, for two detections: the first row gets
    the first detection, the other two tracks are unmatched. *)
Lemma zero_correction_witness :
  exists asg' s',
    fix_zeros [0; 0; 0] = Some asg' /\
    asg' = [0; -1; -1] /\
    min_cost_matching idle_solver (constant_metric (F32.of_Z 1)) (F32.of_Z 2)
      [track_of_age 1; track_of_age 1; track_of_age 1] [box 0; box 1]
      [0; 1; 2] [0; 1] empty_store = Ok tt s' /\
    In 1 (unmatched_tracks s') /\ In 2 (unmatched_tracks s').
Proof.
  assert (Hok : round_ok idle_solver (constant_metric (F32.of_Z 1)) (F32.of_Z 2)
                  [track_of_age 1; track_of_age 1; track_of_age 1] [box 0; box 1]
                  [0; 1; 2] [0; 1]).
  { apply constant_metric_ok. intros cost. apply idle_solver_ok. simpl. lia. }
  destruct (zero_correction idle_solver (constant_metric (F32.of_Z 1)) (F32.of_Z 2)
              [track_of_age 1; track_of_age 1; track_of_age 1] [box 0; box 1]
              [0; 1; 2] [0; 1] empty_store
              ltac:(discriminate) ltac:(discriminate) Hok)
    as (asg' & s' & Hfix & _ & _ & Hrun & Hrows & _).
  exists asg', s'. split; [exact Hfix|].
  split; [vm_compute in Hfix; congruence|]. split; [exact Hrun|].
  split.
  - destruct (Hrows 1%nat eq_refl ltac:(discriminate)) as (t & Et & Hin).
    injection Et as <-. exact Hin.
  - destruct (Hrows 2%nat eq_refl ltac:(discriminate)) as (t & Et & Hin).
    injection Et as <-. exact Hin.
Defined.

(** ** Writing coefficients *)

Lemma nth_error_set_at {A : Type} (l : list A) (n k : nat) (v : A) :
  (n < length l)%nat ->
  nth_error (set_at l n v) k = if (k =? n)%nat then Some v else nth_error l k.
Proof.
  revert n k. induction l as [|h l IH]; intros [|n] [|k]; simpl; intros Hn;
    try lia; try reflexivity.
  apply IH. lia.
Qed.

Lemma set_coeff_inv m i j v m' :
  set_coeff m i j v = Some m' ->
  (i < rows m)%nat /\ (j < cols m)%nat /\
  (i + rows m * j < length (data m))%nat /\
  m' = mkMatrix (rows m) (cols m) (set_at (data m) (i + rows m * j) v).
Proof.
  unfold set_coeff.
  destruct (Nat.ltb_spec i (rows m)); simpl; [|discriminate].
  destruct (Nat.ltb_spec j (cols m)); simpl; [|discriminate].
  destruct (Nat.ltb_spec (i + rows m * j) (length (data m))); [|discriminate].
  intros E. injection E as <-. auto.
Qed.

Lemma set_coeff_shape m i j v m' :
  set_coeff m i j v = Some m' ->
  rows m' = rows m /\ cols m' = cols m /\ length (data m') = length (data m).
Proof.
  intros H. apply set_coeff_inv in H as (_ & _ & _ & ->). simpl.
  now rewrite length_set_at.
Qed.

Lemma set_coeff_defined m i j v :
  wf_matrix m -> (i < rows m)%nat -> (j < cols m)%nat ->
  exists m', set_coeff m i j v = Some m'.
Proof.
  unfold wf_matrix, set_coeff. intros Hwf Hi Hj.
  apply Nat.ltb_lt in Hi as Hi', Hj as Hj'. rewrite Hi', Hj'. simpl.
  assert (Hn : (i + rows m * j <? length (data m))%nat = true)
    by (apply Nat.ltb_lt; nia).
  rewrite Hn. eauto.
Qed.

Lemma cell_index_inj (r i j i' j' : nat) :
  (i < r)%nat -> (i' < r)%nat -> (i + r * j = i' + r * j')%nat -> i = i' /\ j = j'.
Proof.
  intros Hi Hi' E.
  destruct (Nat.lt_trichotomy j j') as [H|[H|H]].
  - assert (r * S j <= r * j')%nat by (apply Nat.mul_le_mono_l; lia). lia.
  - subst. lia.
  - assert (r * S j' <= r * j)%nat by (apply Nat.mul_le_mono_l; lia). lia.
Qed.

Lemma coeff_set_coeff m i j v m' i' j' :
  set_coeff m i j v = Some m' ->
  coeff m' i' j' = if (i' =? i)%nat && (j' =? j)%nat then Some v else coeff m i' j'.
Proof.
  intros H. apply set_coeff_inv in H as (Hi & Hj & Hn & ->).
  unfold coeff. simpl.
  destruct (Nat.ltb_spec i' (rows m)) as [Hi'|Hi']; simpl.
  - destruct (Nat.ltb_spec j' (cols m)) as [Hj'|Hj']; simpl.
    + rewrite nth_error_set_at by assumption.
      destruct (Nat.eqb_spec i' i) as [->|Hne]; simpl.
      * destruct (Nat.eqb_spec j' j) as [->|Hne].
        -- now rewrite Nat.eqb_refl.
        -- destruct (Nat.eqb_spec (i + rows m * j') (i + rows m * j)) as [E|];
             [|reflexivity].
           apply cell_index_inj in E; [lia|assumption|assumption].
      * destruct (Nat.eqb_spec (i' + rows m * j') (i + rows m * j)) as [E|];
          [|reflexivity].
        apply cell_index_inj in E; [lia|assumption|assumption].
    + destruct (Nat.eqb_spec i' i); simpl; [|reflexivity].
      destruct (Nat.eqb_spec j' j); [lia|reflexivity].
  - destruct (Nat.eqb_spec i' i); [lia|reflexivity].
Qed.

(** ** gate_cost_matrix, loop by loop *)

Lemma gate_row_shape gd : forall m i j0 thr gc m',
  gate_row m i j0 gd thr gc = Some m' ->
  rows m' = rows m /\ cols m' = cols m /\ length (data m') = length (data m).
Proof.
  induction gd as [|g gd IH]; intros m i j0 thr gc m'; simpl.
  - intros E. now injection E as <-.
  - unfold obind.
    destruct (F32.gt g thr).
    + destruct (set_coeff m i j0 gc) as [m1|] eqn:E1; [|discriminate].
      intros H. apply IH in H as (-> & -> & ->). now apply set_coeff_shape in E1.
    + apply IH.
Qed.

Lemma gate_row_coeff gd : forall m i j0 thr gc m' i' j',
  gate_row m i j0 gd thr gc = Some m' ->
  coeff m' i' j' =
  if (i' =? i)%nat && (j0 <=? j')%nat && gated gd thr (j' - j0)
  then Some gc else coeff m i' j'.
Proof.
  induction gd as [|g gd IH]; intros m i j0 thr gc m' i' j'; simpl.
  - intros E. injection E as <-. unfold gated.
    destruct (j' - j0)%nat; simpl; now rewrite andb_false_r.
  - unfold obind. intros H.
    assert (Hm1 : exists m1,
              gate_row m1 i (S j0) gd thr gc = Some m' /\
              coeff m1 i' j' =
              if F32.gt g thr && ((i' =? i)%nat && (j' =? j0)%nat)
              then Some gc else coeff m i' j').
    { destruct (F32.gt g thr).
      - destruct (set_coeff m i j0 gc) as [m1|] eqn:E1; [|discriminate].
        exists m1. split; [assumption|]. simpl. now apply coeff_set_coeff.
      - exists m. auto. }
    destruct Hm1 as (m1 & Hrest & Hhead).
    rewrite (IH _ _ _ _ _ _ i' j' Hrest), Hhead. clear IH H Hrest Hhead.
    destruct (Nat.eqb_spec i' i) as [->|Hne]; cbn [andb];
      [|now rewrite andb_false_r].
    destruct (Nat.leb_spec (S j0) j') as [Hlt|Hge]; cbn [andb].
    + destruct (Nat.leb_spec j0 j'); [|lia]. cbn [andb].
      replace (j' - j0)%nat with (S (j' - S j0)) by lia.
      unfold gated at 2. cbn [nth_error]. fold (gated gd thr (j' - S j0)).
      destruct (Nat.eqb_spec j' j0); [lia|]. now rewrite andb_false_r.
    + destruct (Nat.eqb_spec j' j0) as [->|Hne].
      * rewrite Nat.leb_refl, Nat.sub_diag. unfold gated. cbn [nth_error andb].
        now rewrite andb_true_r.
      * destruct (Nat.leb_spec j0 j'); [lia|]. cbn [andb].
        now rewrite andb_false_r.
Qed.

Lemma gate_row_defined gd : forall m i j0 thr gc,
  wf_matrix m -> (i < rows m)%nat -> (j0 + length gd <= cols m)%nat ->
  exists m', gate_row m i j0 gd thr gc = Some m'.
Proof.
  induction gd as [|g gd IH]; intros m i j0 thr gc Hwf Hi Hj; simpl; [eauto|].
  simpl in Hj. unfold obind.
  destruct (F32.gt g thr).
  - destruct (set_coeff_defined m i j0 gc Hwf Hi) as (m1 & E1); [lia|].
    rewrite E1. apply set_coeff_shape in E1 as (Hr & Hc & Hl).
    apply IH.
    + unfold wf_matrix in *. now rewrite Hr, Hc, Hl.
    + lia.
    + lia.
  - apply IH; [assumption|assumption|lia].
Qed.

Section GateRows.

Variable kf : KalmanFilter.
Variable tracks : list Track.
Variable measurements : MatrixXf.
Variable only_position : bool.
Variable gating_threshold gated_cost : float.

Lemma gate_rows_shape tis : forall m i0 m',
  gate_rows kf m tracks tis i0 measurements only_position
    gating_threshold gated_cost = Some m' ->
  rows m' = rows m /\ cols m' = cols m /\ length (data m') = length (data m).
Proof.
  induction tis as [|t tis IH]; intros m i0 m'; simpl.
  - intros E. now injection E as <-.
  - unfold obind. destruct (vec_at tracks t) as [trk|]; [|discriminate].
    destruct (gate_row m i0 0 _ _ _) as [m1|] eqn:E1; [|discriminate].
    intros H. apply IH in H as (-> & -> & ->). now apply gate_row_shape in E1.
Qed.

Lemma gate_rows_valid tis : forall m i0 m',
  gate_rows kf m tracks tis i0 measurements only_position
    gating_threshold gated_cost = Some m' ->
  Forall (valid_index tracks) tis.
Proof.
  induction tis as [|t tis IH]; intros m i0 m'; simpl; [constructor|].
  unfold obind. destruct (vec_at tracks t) as [trk|] eqn:Et; [|discriminate].
  destruct (gate_row m i0 0 _ _ _) as [m1|]; [|discriminate].
  intros H. constructor; [apply vec_at_valid; eauto|eapply IH; eassumption].
Qed.

Lemma gate_rows_before tis : forall m i0 m' i' j,
  gate_rows kf m tracks tis i0 measurements only_position
    gating_threshold gated_cost = Some m' ->
  (i' < i0)%nat -> coeff m' i' j = coeff m i' j.
Proof.
  induction tis as [|t tis IH]; intros m i0 m' i' j; simpl.
  - intros E. now injection E as <-.
  - unfold obind. destruct (vec_at tracks t) as [trk|]; [|discriminate].
    destruct (gate_row m i0 0 _ _ _) as [m1|] eqn:E1; [|discriminate].
    intros H Hlt. rewrite (IH _ _ _ _ _ H) by lia.
    rewrite (gate_row_coeff _ _ _ _ _ _ _ i' j E1).
    destruct (Nat.eqb_spec i' i0); [lia|reflexivity].
Qed.

Lemma gate_rows_coeff tis : forall m i0 m' k t trk j,
  gate_rows kf m tracks tis i0 measurements only_position
    gating_threshold gated_cost = Some m' ->
  nth_error tis k = Some t -> vec_at tracks t = Some trk ->
  coeff m' (i0 + k) j =
  if gated (distances kf measurements only_position trk) gating_threshold j
  then Some gated_cost
  else coeff m (i0 + k) j.
Proof.
  induction tis as [|t0 tis IH]; intros m i0 m' k t trk j; simpl.
  - destruct k; discriminate.
  - unfold obind. destruct (vec_at tracks t0) as [trk0|] eqn:Et0; [|discriminate].
    destruct (gate_row m i0 0 _ _ _) as [m1|] eqn:E1; [|discriminate].
    intros H Hk Ht. destruct k as [|k]; simpl in Hk.
    + injection Hk as ->. rewrite Ht in Et0. injection Et0 as <-.
      rewrite Nat.add_0_r, (gate_rows_before _ _ _ _ _ _ H) by lia.
      rewrite (gate_row_coeff _ _ _ _ _ _ _ i0 j E1).
      now rewrite Nat.eqb_refl, Nat.sub_0_r.
    + replace (i0 + S k)%nat with (S i0 + k)%nat by lia.
      rewrite (IH _ _ _ _ _ _ j H Hk Ht).
      rewrite (gate_row_coeff _ _ _ _ _ _ _ (S i0 + k)%nat j E1).
      destruct (Nat.eqb_spec (S i0 + k) i0); [lia|reflexivity].
Qed.

Lemma gate_rows_defined tis : forall m i0,
  wf_matrix m -> Forall (valid_index tracks) tis ->
  (i0 + length tis <= rows m)%nat ->
  (forall trk, (length (distances kf measurements only_position trk) <= cols m)%nat) ->
  exists m',
    gate_rows kf m tracks tis i0 measurements only_position
      gating_threshold gated_cost = Some m'.
Proof.
  induction tis as [|t tis IH]; intros m i0 Hwf Hvalid Hrows Hcols; simpl; [eauto|].
  simpl in Hrows. inversion Hvalid as [|? ? Ht Hvalid']; subst.
  apply vec_at_valid in Ht as (trk & ->). unfold obind.
  destruct (gate_row_defined (distances kf measurements only_position trk) m i0 0
              gating_threshold gated_cost Hwf)
    as (m1 & E1); [lia|apply Hcols|].
  unfold distances in E1. rewrite E1.
  apply gate_row_shape in E1 as (Hr & Hc & Hl).
  apply IH; auto.
  - unfold wf_matrix in *. now rewrite Hr, Hc, Hl.
  - lia.
  - intros trk'. rewrite Hc. apply Hcols.
Qed.

End GateRows.

(** ** The matrix of measurements *)

Lemma set_row_from_shape v : forall m i j m',
  set_row_from m i j v = Some m' ->
  rows m' = rows m /\ cols m' = cols m /\ length (data m') = length (data m).
Proof.
  induction v as [|x v IH]; intros m i j m'; simpl.
  - intros E. now injection E as <-.
  - unfold obind. destruct (set_coeff m i j x) as [m1|] eqn:E1; [|discriminate].
    intros H. apply IH in H as (-> & -> & ->). now apply set_coeff_shape in E1.
Qed.

Lemma set_row_from_defined v : forall m i j,
  wf_matrix m -> (i < rows m)%nat -> (j + length v <= cols m)%nat ->
  exists m', set_row_from m i j v = Some m'.
Proof.
  induction v as [|x v IH]; intros m i j Hwf Hi Hj; simpl; [eauto|].
  simpl in Hj. unfold obind.
  destruct (set_coeff_defined m i j x Hwf Hi) as (m1 & E1); [lia|].
  rewrite E1. apply set_coeff_shape in E1 as (Hr & Hc & Hl).
  apply IH.
  - unfold wf_matrix in *. now rewrite Hr, Hc, Hl.
  - lia.
  - lia.
Qed.

Lemma fill_measurements_shape dets dis : forall i m m',
  fill_measurements dets dis i m = Some m' ->
  rows m' = rows m /\ cols m' = cols m /\ length (data m') = length (data m).
Proof.
  induction dis as [|d dis IH]; intros i m m'; simpl.
  - intros E. now injection E as <-.
  - unfold obind. destruct (vec_at dets d) as [det|]; [|discriminate].
    destruct (set_row m i (to_xyah det)) as [m1|] eqn:E1; [|discriminate].
    intros H. apply IH in H as (-> & -> & ->).
    unfold set_row in E1.
    destruct ((length (to_xyah det) =? cols m)%nat && (i <? rows m)%nat);
      [|discriminate].
    now apply set_row_from_shape in E1.
Qed.

Lemma fill_measurements_valid dets dis : forall i m m',
  fill_measurements dets dis i m = Some m' -> Forall (valid_index dets) dis.
Proof.
  induction dis as [|d dis IH]; intros i m m'; simpl; [constructor|].
  unfold obind. destruct (vec_at dets d) as [det|] eqn:Ed; [|discriminate].
  destruct (set_row m i (to_xyah det)) as [m1|]; [|discriminate].
  intros H. constructor; [apply vec_at_valid; eauto|eapply IH; eassumption].
Qed.

Lemma fill_measurements_defined dets dis : forall i m,
  boxes_ok dets -> Forall (valid_index dets) dis ->
  wf_matrix m -> cols m = 4%nat -> (i + length dis <= rows m)%nat ->
  exists m', fill_measurements dets dis i m = Some m'.
Proof.
  induction dis as [|d dis IH]; intros i m Hbox Hvalid Hwf Hc Hr; simpl; [eauto|].
  simpl in Hr. inversion Hvalid as [|? ? Hd Hvalid']; subst.
  apply vec_at_valid in Hd as (det & Ed). rewrite Ed. unfold obind.
  assert (Hlen : length (to_xyah det) = 4%nat).
  { unfold boxes_ok in Hbox. rewrite Forall_forall in Hbox. apply Hbox.
    unfold vec_at in Ed. destruct (d <? 0); [discriminate|].
    eapply nth_error_In; eassumption. }
  unfold set_row. rewrite Hlen, Hc, Nat.eqb_refl.
  assert (Hi : (i <? rows m)%nat = true) by (apply Nat.ltb_lt; lia).
  rewrite Hi. cbn [andb].
  destruct (set_row_from_defined (to_xyah det) m i 0 Hwf) as (m1 & E1); [lia|lia|].
  rewrite E1. apply set_row_from_shape in E1 as (Hr1 & Hc1 & Hl1).
  apply IH; auto.
  - unfold wf_matrix in *. now rewrite Hr1, Hc1, Hl1.
  - congruence.
  - lia.
Qed.

Lemma build_measurements_shape dets dis mm :
  build_measurements dets dis = Some mm ->
  rows mm = length dis /\ cols mm = 4%nat.
Proof.
  unfold build_measurements. intros H.
  apply fill_measurements_shape in H as (-> & -> & _). auto.
Qed.

Lemma build_measurements_defined dets dis :
  boxes_ok dets -> Forall (valid_index dets) dis ->
  exists mm, build_measurements dets dis = Some mm.
Proof.
  intros Hbox Hvalid. unfold build_measurements.
  apply fill_measurements_defined; [assumption|assumption| |reflexivity|simpl; lia].
  unfold wf_matrix. simpl. apply repeat_length.
Qed.

(** ** Gating (C4, C10) *)

Lemma gate_cost_matrix_defined chi2inv95 kf cm tracks dets tis dis gated_cost op :
  wf_matrix cm -> boxes_ok dets -> filter_ok kf ->
  gate_pre cm tracks dets tis dis ->
  exists mm m',
    build_measurements dets dis = Some mm /\
    gate_cost_matrix chi2inv95 kf cm tracks dets tis dis gated_cost op = Some m'.
Proof.
  intros Hwf Hbox Hkf (Hvt & Hvd & Hr & Hc).
  destruct (build_measurements_defined dets dis Hbox Hvd) as (mm & Hmm).
  unfold gate_cost_matrix. rewrite Hmm. unfold obind.
  apply build_measurements_shape in Hmm as Hshape. destruct Hshape as (Hrm & _).
  destruct (gate_rows_defined kf tracks mm op
              (chi2inv95 (if op then 2 else 4)) gated_cost tis cm 0 Hwf Hvt)
    as (m' & Hm'); [lia| |eauto].
  intros trk. unfold distances. rewrite Hkf. lia.
Qed.

(** C4: in the matrix that [gate_cost_matrix] returns, the entry of a track
    and a detection whose gating distance is above [chi2inv95[2]] (position
    only) or [chi2inv95[4]] is [gated_cost], and the entry of a pair whose
    distance is below or equal to the threshold is the entry of the cost
    matrix that came in. *)
Theorem gate_cost_matrix_entries
    chi2inv95 kf cm tracks dets tis dis gated_cost only_position :
  wf_matrix cm -> boxes_ok dets -> filter_ok kf ->
  gate_pre cm tracks dets tis dis ->
  exists measurements m',
    build_measurements dets dis = Some measurements /\
    gate_cost_matrix chi2inv95 kf cm tracks dets tis dis gated_cost only_position =
    Some m' /\
    rows m' = rows cm /\ cols m' = cols cm /\
    forall i t trk j g,
      nth_error tis i = Some t -> vec_at tracks t = Some trk ->
      nth_error (gating_distance kf (mean_ trk) (cov_ trk) measurements only_position) j
      = Some g ->
      (F32.gt g (chi2inv95 (if only_position then 2 else 4)) = true ->
       coeff m' i j = Some gated_cost) /\
      (F32.le g (chi2inv95 (if only_position then 2 else 4)) = true ->
       coeff m' i j = coeff cm i j).
Proof.
  intros Hwf Hbox Hkf Hpre.
  destruct (gate_cost_matrix_defined chi2inv95 kf cm tracks dets tis dis gated_cost
              only_position Hwf Hbox Hkf Hpre) as (mm & m' & Hmm & Hrun).
  exists mm, m'. split; [assumption|]. split; [assumption|].
  unfold gate_cost_matrix in Hrun. rewrite Hmm in Hrun. unfold obind in Hrun.
  destruct (gate_rows_shape _ _ _ _ _ _ _ _ _ _ Hrun) as (Hr & Hc & _).
  split; [assumption|]. split; [assumption|].
  intros i t trk j g Hi Ht Hg.
  pose proof (gate_rows_coeff _ _ _ _ _ _ _ _ _ _ i t trk j Hrun Hi Ht) as H.
  simpl in H. unfold gated, distances in H. rewrite Hg in H.
  split; intros Hcmp.
  - now rewrite Hcmp in H.
  - apply SFleb_not_gt in Hcmp. unfold F32.gt in H. now rewrite Hcmp in H.
Qed.

(** Two tracks against one detection: a distance of 20 is gated, a distance
    equal to the threshold is not. *)
Lemma gate_cost_matrix_entries_witness :
  exists m',
    gate_cost_matrix chi2_table mean_filter
      (mkMatrix 2 1 [F32.of_Z 1; F32.of_Z 3])
      [track_at (F32.of_Z 20); track_at (chi2_table 4)] [box 0] [0; 1] [0]
      (F32.of_Z 100000) false = Some m' /\
    coeff m' 0 0 = Some (F32.of_Z 100000) /\
    coeff m' 1 0 = Some (F32.of_Z 3).
Proof.
  assert (Hpre : gate_pre (mkMatrix 2 1 [F32.of_Z 1; F32.of_Z 3])
                   [track_at (F32.of_Z 20); track_at (chi2_table 4)] [box 0]
                   [0; 1] [0]).
  { unfold gate_pre, valid_index. simpl. repeat split; repeat constructor; lia. }
  destruct (gate_cost_matrix_entries chi2_table mean_filter
              (mkMatrix 2 1 [F32.of_Z 1; F32.of_Z 3])
              [track_at (F32.of_Z 20); track_at (chi2_table 4)] [box 0] [0; 1] [0]
              (F32.of_Z 100000) false
              eq_refl ltac:(repeat constructor) mean_filter_ok Hpre)
    as (mm & m' & Hmm & Hrun & _ & _ & H).
  apply build_measurements_shape in Hmm as (Hrows & _).
  exists m'. split; [exact Hrun|]. split.
  - apply (H 0%nat 0 (track_at (F32.of_Z 20)) 0%nat (F32.of_Z 20));
      [reflexivity|reflexivity|simpl; rewrite Hrows; reflexivity|reflexivity].
  - apply (H 1%nat 1 (track_at (chi2_table 4)) 0%nat (chi2_table 4));
      [reflexivity|reflexivity|simpl; rewrite Hrows; reflexivity|reflexivity].
Defined.

(** C10 as stated fails: the precondition is not needed for the accesses to
    be in bounds. With a [1 x 1] cost matrix, one track and two detections
    whose distances are below the threshold, nothing is written and every
    access is in bounds, although the matrix has no second column. *)
Lemma in_bounds_without_precondition :
  gate_cost_matrix chi2_table mean_filter (mkMatrix 1 1 [F32.of_Z 3])
    [track_at (F32.of_Z 1)] [box 0; box 1] [0] [0; 1] (F32.of_Z 100000) false =
  Some (mkMatrix 1 1 [F32.of_Z 3]) /\
  ~ gate_pre (mkMatrix 1 1 [F32.of_Z 3]) [track_at (F32.of_Z 1)] [box 0; box 1]
      [0] [0; 1].
Proof.
  split; [vm_compute; reflexivity|].
  intros (_ & _ & _ & H). simpl in H. lia.
Qed.

(** C10, amended: [gate_cost_matrix] checks no bound. Its accesses are all in
    bounds when every index is a position of its collection and the cost
    matrix has a row per track index and a column per detection index (with
    boxes of four numbers and one distance per detection). The validity of
    the indices is also necessary; of the cost matrix only the entries that
    are gated have to exist, since only those are written. *)
Theorem gate_cost_matrix_in_bounds
    chi2inv95 kf cm tracks dets tis dis gated_cost only_position :
  (wf_matrix cm -> boxes_ok dets -> filter_ok kf ->
   gate_pre cm tracks dets tis dis ->
   exists m',
     gate_cost_matrix chi2inv95 kf cm tracks dets tis dis gated_cost only_position =
     Some m') /\
  (forall m',
     gate_cost_matrix chi2inv95 kf cm tracks dets tis dis gated_cost only_position =
     Some m' ->
     Forall (valid_index tracks) tis /\ Forall (valid_index dets) dis /\
     forall measurements i t trk j g,
       build_measurements dets dis = Some measurements ->
       nth_error tis i = Some t -> vec_at tracks t = Some trk ->
       nth_error (gating_distance kf (mean_ trk) (cov_ trk) measurements only_position) j
       = Some g ->
       F32.gt g (chi2inv95 (if only_position then 2 else 4)) = true ->
       (i < rows cm)%nat /\ (j < cols cm)%nat).
Proof.
  split.
  - intros Hwf Hbox Hkf Hpre.
    destruct (gate_cost_matrix_defined chi2inv95 kf cm tracks dets tis dis gated_cost
                only_position Hwf Hbox Hkf Hpre) as (mm & m' & _ & Hrun).
    eauto.
  - intros m' Hrun. unfold gate_cost_matrix in Hrun.
    destruct (build_measurements dets dis) as [mm|] eqn:Hmm; [|discriminate].
    unfold obind in Hrun.
    split; [eapply gate_rows_valid; eassumption|].
    split; [eapply fill_measurements_valid; exact Hmm|].
    intros mm' i t trk j g E Hi Ht Hg Hgt. injection E as <-.
    pose proof (gate_rows_coeff _ _ _ _ _ _ _ _ _ _ i t trk j Hrun Hi Ht) as H.
    simpl in H. unfold gated, distances in H. rewrite Hg, Hgt in H.
    destruct (gate_rows_shape _ _ _ _ _ _ _ _ _ _ Hrun) as (Hr & Hc & _).
    unfold coeff in H. rewrite Hr, Hc in H.
    destruct (Nat.ltb_spec i (rows cm)); [|discriminate].
    destruct (Nat.ltb_spec j (cols cm)); [|discriminate].
    auto.
Qed.

(** A call within the precondition. *)
Lemma gate_cost_matrix_in_bounds_witness :
  exists m',
    gate_cost_matrix chi2_table mean_filter
      (mkMatrix 2 1 [F32.of_Z 1; F32.of_Z 3])
      [track_at (F32.of_Z 20); track_at (F32.of_Z 1)] [box 0] [0; 1] [0]
      (F32.of_Z 100000) true = Some m'.
Proof.
  apply (proj1 (gate_cost_matrix_in_bounds chi2_table mean_filter
                  (mkMatrix 2 1 [F32.of_Z 1; F32.of_Z 3])
                  [track_at (F32.of_Z 20); track_at (F32.of_Z 1)] [box 0] [0; 1] [0]
                  (F32.of_Z 100000) true)).
  - reflexivity.
  - repeat constructor.
  - exact mean_filter_ok.
  - unfold gate_pre, valid_index. simpl. repeat split; repeat constructor; lia.
Defined.

(** * Further properties of the three functions *)

(** ** One round, whatever the collaborators return *)

Lemma Forall2_seq_firstn {A : Type} (l : list A) (n : nat) :
  forall (k : nat) (xs : list A),
    Forall2 (fun i x => nth_error l i = Some x) (seq k n) xs ->
    xs = firstn n (skipn k l) /\ (n <= length l - k)%nat.
Proof.
  induction n as [|n IH]; intros k xs H; simpl in H.
  - inversion H; subst. split; [reflexivity|lia].
  - inversion H as [|? x ? xs' Hx Hrest]; subst.
    apply IH in Hrest as (-> & Hlen).
    assert (Hk : (k < length l)%nat) by (apply nth_error_Some; congruence).
    assert (E : skipn k l = x :: skipn (S k) l).
    { clear - Hx. revert k Hx. induction l as [|h l IHl]; intros [|k] Hx;
        simpl in *; try discriminate.
      - now injection Hx as ->.
      - now apply IHl. }
    rewrite E. split; [reflexivity|lia].
Qed.

Lemma verdicts_tracks_firstn cm md tis dis asg (n : nat) vs :
  verdicts cm md tis dis asg (seq 0 n) = Some vs ->
  map verdict_track vs = firstn n tis /\ (n <= length tis)%nat.
Proof.
  intros Hv. apply verdicts_Forall2 in Hv.
  assert (H : Forall2 (fun i x => nth_error tis i = Some x) (seq 0 n)
                (map verdict_track vs)).
  { induction Hv as [|row v rws vs' Hrow _ IH]; simpl; constructor; auto.
    eapply verdict_track_at; eassumption. }
  apply Forall2_seq_firstn in H. simpl in H. rewrite Nat.sub_0_r in H. exact H.
Qed.

Lemma unmatched_tracks_of_incl (vs : list Verdict) :
  incl (unmatched_tracks_of vs) (map verdict_track vs).
Proof.
  induction vs as [|v vs IH]; simpl; [apply incl_refl|].
  destruct v; simpl.
  - apply incl_cons; [now left|now apply incl_tl].
  - apply incl_cons; [now left|now apply incl_tl].
  - now apply incl_tl.
Qed.

Lemma verdict_detections_in cm md tis dis asg row v :
  verdict cm md tis dis asg row = Some v -> incl (verdict_detections v) dis.
Proof.
  unfold verdict.
  destruct (nth_error asg row) as [col|]; [|discriminate].
  destruct (col =? -1).
  { destruct (nth_error tis row); simpl; [|discriminate].
    intros E. injection E as <-. simpl. intros x []. }
  destruct (nth_error tis row) as [t|]; [|discriminate].
  unfold vec_at. destruct (col <? 0); [discriminate|].
  destruct (nth_error dis (Z.to_nat col)) as [d|] eqn:Ed; [|discriminate].
  destruct (coeff cm row (Z.to_nat col)) as [c|]; [|discriminate].
  intros E. injection E as <-.
  assert (Hin : In d dis) by (eapply nth_error_In; eassumption).
  destruct (F32.gt c md); simpl; intros x [<-|[]]; assumption.
Qed.

Lemma verdicts_detections_incl cm md tis dis asg (rws : list nat) vs :
  verdicts cm md tis dis asg rws = Some vs ->
  incl (flat_map verdict_detections vs) dis.
Proof.
  intros Hv. apply verdicts_Forall2 in Hv.
  induction Hv as [|row v rws' vs' Hrow _ IH]; simpl; [easy|].
  apply incl_app; [|assumption].
  eapply verdict_detections_in; eassumption.
Qed.

Lemma matched_of_detections (vs : list Verdict) :
  incl (map detection_idx (matched_of vs)) (flat_map verdict_detections vs).
Proof.
  induction vs as [|v vs IH]; simpl; [apply incl_refl|].
  destruct v; simpl.
  - assumption.
  - now apply incl_tl.
  - apply incl_cons; [now left|now apply incl_tl].
Qed.

Lemma unmatched_detections_of_incl (vs : list Verdict) :
  incl (unmatched_detections_of vs) (flat_map verdict_detections vs).
Proof.
  induction vs as [|v vs IH]; simpl; [apply incl_refl|].
  destruct v; simpl.
  - assumption.
  - apply incl_cons; [now left|now apply incl_tl].
  - now apply incl_tl.
Qed.

Lemma free_columns_incl (dis asg : list Z) :
  incl (map (at_index dis) (free_columns asg (length dis))) dis.
Proof.
  intros x Hx. apply in_map_iff in Hx as (i & <- & Hi).
  unfold free_columns in Hi. apply filter_In in Hi as [Hi _].
  apply in_seq in Hi. unfold at_index. apply nth_In. lia.
Qed.

(** A round that returns, read through its verdicts. *)
Lemma min_cost_matching_returns Solve metric md tracks dets tis dis s s' :
  tis <> [] -> dis <> [] ->
  min_cost_matching Solve metric md tracks dets tis dis s = Ok tt s' ->
  exists vs,
    verdicts (clamped metric md tracks dets tis dis) md tis dis
      (keep_first_zero (solved Solve metric md tracks dets tis dis))
      (seq 0 (length (keep_first_zero (solved Solve metric md tracks dets tis dis))))
    = Some vs /\
    s' = mkStore (matched_of vs) (unmatched_tracks_of vs)
           (map (at_index dis)
              (free_columns (solved Solve metric md tracks dets tis dis) (length dis))
            ++ unmatched_detections_of vs)
           (trace s ++ round_events metric md tracks dets tis dis).
Proof.
  intros Ht Hd Hrun.
  pose proof (min_cost_matching_run Solve metric md tracks dets tis dis s Ht Hd) as H.
  cbv zeta in H.
  destruct (verdicts _ md tis dis _ _) as [vs|]; rewrite Hrun in H;
    [|discriminate].
  injection H as ->. eauto.
Qed.

(** X5. Every index that a round returns is one of the indices it was given:
    the tracks of the pairs and the unmatched tracks are entries of
    [track_indices], the detections of the pairs and the unmatched detections
    are entries of [detection_indices]; no row or column number of the cost
    matrix gets out. This holds for every call that returns, whatever the
    metric and the solver return. *)
Theorem round_returns_caller_indices Solve metric md tracks dets tis dis s s' :
  tis <> [] -> dis <> [] ->
  min_cost_matching Solve metric md tracks dets tis dis s = Ok tt s' ->
  incl (map track_idx (matches s')) tis /\
  incl (unmatched_tracks s') tis /\
  incl (map detection_idx (matches s')) dis /\
  incl (unmatched_detections s') dis.
Proof.
  intros Ht Hd Hrun.
  destruct (min_cost_matching_returns _ _ _ _ _ _ _ _ _ Ht Hd Hrun) as (vs & Hvs & ->).
  cbn [matches unmatched_tracks unmatched_detections].
  pose proof (verdicts_tracks_incl _ _ _ _ _ _ _ Hvs) as Htr.
  pose proof (verdicts_detections_incl _ _ _ _ _ _ _ Hvs) as Hdet.
  repeat split.
  - eapply incl_tran; [apply matched_of_tracks|assumption].
  - eapply incl_tran; [apply unmatched_tracks_of_incl|assumption].
  - eapply incl_tran; [apply matched_of_detections|assumption].
  - apply incl_app; [apply free_columns_incl|].
    eapply incl_tran; [apply unmatched_detections_of_incl|assumption].
Qed.

(** Two tracks, one detection, equal costs within [max_distance]. *)
Lemma round_returns_caller_indices_witness :
  exists s',
    min_cost_matching diagonal_solver (constant_metric (F32.of_Z 1)) (F32.of_Z 2)
      [track_of_age 1; track_of_age 1; track_of_age 1] [box 0; box 1]
      [2; 0] [1] empty_store = Ok tt s' /\
    incl (map track_idx (matches s')) [2; 0] /\
    incl (unmatched_tracks s') [2; 0] /\
    incl (map detection_idx (matches s')) [1] /\
    incl (unmatched_detections s') [1].
Proof.
  eexists. split; [vm_compute; reflexivity|].
  apply (round_returns_caller_indices diagonal_solver (constant_metric (F32.of_Z 1))
           (F32.of_Z 2) [track_of_age 1; track_of_age 1; track_of_age 1]
           [box 0; box 1] [2; 0] [1] empty_store);
    [discriminate|discriminate|vm_compute; reflexivity].
Defined.

(** X6. A round accounts for as many track indices as the solver returned
    rows, and for the first ones: when the call returns, the tracks of the
    pairs together with the unmatched tracks are the first [n] entries of
    [track_indices], [n] being the length of the assignment vector. A track
    index past the solver's rows is in neither output. *)
Theorem round_covers_solver_rows Solve metric md tracks dets tis dis s s' :
  tis <> [] -> dis <> [] ->
  min_cost_matching Solve metric md tracks dets tis dis s = Ok tt s' ->
  (length (solved Solve metric md tracks dets tis dis) <= length tis)%nat /\
  Permutation (map track_idx (matches s') ++ unmatched_tracks s')
    (firstn (length (solved Solve metric md tracks dets tis dis)) tis).
Proof.
  intros Ht Hd Hrun.
  destruct (min_cost_matching_returns _ _ _ _ _ _ _ _ _ Ht Hd Hrun) as (vs & Hvs & ->).
  cbn [matches unmatched_tracks].
  apply verdicts_tracks_firstn in Hvs as (Hmap & Hlen).
  rewrite length_keep_first_zero in Hmap, Hlen.
  split; [assumption|]. rewrite <- Hmap. apply perm_verdict_tracks.
Qed.

(** The call of [mismatch_not_rejected]: one row for two track indices. *)
Lemma round_covers_solver_rows_witness :
  exists s',
    min_cost_matching diagonal_solver (narrow_metric (F32.of_Z 1)) (F32.of_Z 2)
      [track_of_age 1; track_of_age 1] [box 0] [0; 1] [0] empty_store = Ok tt s' /\
    Permutation (map track_idx (matches s') ++ unmatched_tracks s') [0].
Proof.
  eexists. split; [vm_compute; reflexivity|].
  apply (round_covers_solver_rows diagonal_solver (narrow_metric (F32.of_Z 1))
           (F32.of_Z 2) [track_of_age 1; track_of_age 1] [box 0] [0; 1] [0]
           empty_store);
    [discriminate|discriminate|vm_compute; reflexivity].
Defined.

(** X7. With two non-empty index lists the three output containers are
    overwritten: whether the call returns, and what it leaves in [matches],
    [unmatched_tracks] and [unmatched_detections], does not depend on what the
    containers held before. *)
Theorem round_overwrites_containers Solve metric md tracks dets tis dis s1 s2 :
  tis <> [] -> dis <> [] ->
  is_ok (min_cost_matching Solve metric md tracks dets tis dis s1) =
  is_ok (min_cost_matching Solve metric md tracks dets tis dis s2) /\
  forall s1' s2',
    min_cost_matching Solve metric md tracks dets tis dis s1 = Ok tt s1' ->
    min_cost_matching Solve metric md tracks dets tis dis s2 = Ok tt s2' ->
    matches s1' = matches s2' /\
    unmatched_tracks s1' = unmatched_tracks s2' /\
    unmatched_detections s1' = unmatched_detections s2'.
Proof.
  intros Ht Hd.
  pose proof (min_cost_matching_run Solve metric md tracks dets tis dis s1 Ht Hd) as H1.
  pose proof (min_cost_matching_run Solve metric md tracks dets tis dis s2 Ht Hd) as H2.
  cbv zeta in H1, H2.
  destruct (verdicts _ md tis dis _ _) as [vs|].
  - rewrite H1, H2. split; [reflexivity|].
    intros s1' s2' E1 E2. injection E1 as <-. injection E2 as <-. auto.
  - rewrite H1, H2. split; [reflexivity|].
    intros s1' s2' E1. rewrite E1 in H1. discriminate.
Qed.

Lemma round_overwrites_containers_witness :
  exists s1' s2',
    min_cost_matching diagonal_solver (constant_metric (F32.of_Z 1)) (F32.of_Z 2)
      [track_of_age 1] [box 0] [0] [0] empty_store = Ok tt s1' /\
    min_cost_matching diagonal_solver (constant_metric (F32.of_Z 1)) (F32.of_Z 2)
      [track_of_age 1] [box 0] [0] [0] (mkStore [mkMatch 7 8] [5] [6] []) = Ok tt s2' /\
    matches s1' = matches s2' /\
    unmatched_tracks s1' = unmatched_tracks s2' /\
    unmatched_detections s1' = unmatched_detections s2'.
Proof.
  eexists. eexists.
  split; [vm_compute; reflexivity|]. split; [vm_compute; reflexivity|].
  apply (proj2 (round_overwrites_containers diagonal_solver
                  (constant_metric (F32.of_Z 1)) (F32.of_Z 2)
                  [track_of_age 1] [box 0] [0] [0] empty_store
                  (mkStore [mkMatch 7 8] [5] [6] [])
                  ltac:(discriminate) ltac:(discriminate)));
    vm_compute; reflexivity.
Defined.

(** A round of three tracks against two detections, into containers that
    already hold entries. *)
Lemma min_cost_matching_complete_witness :
  exists s',
    min_cost_matching diagonal_solver (constant_metric (F32.of_Z 1)) (F32.of_Z 2)
      [track_of_age 1; track_of_age 1; track_of_age 1] [box 0; box 1]
      [2; 0; 1] [1; 0] (mkStore [mkMatch 7 8] [5] [6] []) = Ok tt s' /\
    Permutation (map track_idx (matches s') ++ unmatched_tracks s') [2; 0; 1] /\
    Permutation (map detection_idx (matches s') ++ unmatched_detections s') [1; 0].
Proof.
  apply min_cost_matching_complete.
  - discriminate.
  - discriminate.
  - apply constant_metric_ok. intros cost. apply diagonal_solver_ok.
Defined.

(** A pair at cost 1 with [max_distance] 2. *)
Lemma min_cost_matching_threshold_witness :
  exists row col c,
    nth_error [0] row = Some (track_idx (mkMatch 0 0)) /\
    nth_error [0] col = Some (detection_idx (mkMatch 0 0)) /\
    coeff (constant_metric (F32.of_Z 1) [track_of_age 1] [box 0] [0] [0]) row col =
      Some c /\
    F32.gt c (F32.of_Z 2) = false.
Proof.
  eapply (min_cost_matching_threshold diagonal_solver (constant_metric (F32.of_Z 1))
            (F32.of_Z 2) [track_of_age 1] [box 0] [0] [0] empty_store _ (mkMatch 0 0)).
  - discriminate.
  - discriminate.
  - vm_compute. reflexivity.
  - vm_compute. reflexivity.
  - left. reflexivity.
Defined.

Lemma verdict_matched_intro cm md tis dis asg row col t d c :
  nth_error asg row = Some (Z.of_nat col) ->
  nth_error tis row = Some t -> nth_error dis col = Some d ->
  coeff cm row col = Some c -> F32.gt c md = false ->
  verdict cm md tis dis asg row = Some (Matched t d).
Proof.
  intros Ha Ht Hd Hc Hgt. unfold verdict, vec_at. rewrite Ha, Ht.
  destruct (Z.eqb_spec (Z.of_nat col) (-1)); [lia|].
  destruct (Z.ltb_spec (Z.of_nat col) 0); [lia|].
  rewrite Nat2Z.id, Hd, Hc, Hgt. reflexivity.
Qed.

(** X4. The clamp costs no pair its match: when the call returns, a row that
    holds a column after the zero correction, at a cost within [max_distance],
    is emitted as the pair of its track and detection. This needs nothing of
    the bound of the clamp. *)
Theorem pair_within_threshold_is_matched
    Solve metric md tracks dets tis dis s s' row col t d c :
  tis <> [] -> dis <> [] ->
  min_cost_matching Solve metric md tracks dets tis dis s = Ok tt s' ->
  nth_error (solved Solve metric md tracks dets tis dis) row = Some (Z.of_nat col) ->
  col <> 0%nat \/ row = find_from (solved Solve metric md tracks dets tis dis) 0 0 ->
  nth_error tis row = Some t -> nth_error dis col = Some d ->
  coeff (metric tracks dets tis dis) row col = Some c ->
  F32.le c md = true ->
  In (mkMatch t d) (matches s').
Proof.
  intros Ht Hd Hrun Hrow Hkept Et Ed Ec Hle.
  destruct (min_cost_matching_returns _ _ _ _ _ _ _ _ _ Ht Hd Hrun) as (vs & Hvs & ->).
  cbn [matches]. apply in_matched_of. cbn [track_idx detection_idx].
  set (asg := solved Solve metric md tracks dets tis dis) in *.
  pose proof (keep_first_zero_nth asg row _ Hrow) as Hrow'.
  assert (Hsame : (Z.of_nat col =? 0) && negb (row =? find_from asg 0 0)%nat = false).
  { destruct Hkept as [Hc| ->].
    - destruct (Z.eqb_spec (Z.of_nat col) 0); [lia|reflexivity].
    - rewrite Nat.eqb_refl. apply andb_false_r. }
  rewrite Hsame in Hrow'.
  apply verdicts_Forall2 in Hvs.
  assert (Hin : In row (seq 0 (length (keep_first_zero asg)))).
  { apply in_seq. split; [lia|]. simpl. apply nth_error_Some. congruence. }
  destruct (Forall2_in_l _ _ _ _ Hvs Hin) as (v & Hv & Hverdict).
  rewrite (verdict_matched_intro _ md tis dis _ row col t d
             (F32.min c (clamp_bound md)) Hrow' Et Ed) in Hverdict.
  - injection Hverdict as <-. exact Hv.
  - unfold clamped. rewrite coeff_cwise_min, Ec. reflexivity.
  - now apply min_le_not_gt.
Qed.

(** A pair at cost 2048 with [max_distance] 4096, where the bound of the clamp
    is [max_distance] itself. *)
Lemma pair_within_threshold_is_matched_witness :
  exists s',
    min_cost_matching diagonal_solver (constant_metric (F32.of_Z 2048)) (F32.of_Z 4096)
      [track_of_age 1] [box 0] [0] [0] empty_store = Ok tt s' /\
    In (mkMatch 0 0) (matches s').
Proof.
  eexists. split; [vm_compute; reflexivity|].
  apply (pair_within_threshold_is_matched diagonal_solver
           (constant_metric (F32.of_Z 2048)) (F32.of_Z 4096)
           [track_of_age 1] [box 0] [0] [0] empty_store _ 0%nat 0%nat 0 0
           (F32.of_Z 2048)).
  - discriminate.
  - discriminate.
  - vm_compute. reflexivity.
  - reflexivity.
  - right. reflexivity.
  - reflexivity.
  - reflexivity.
  - reflexivity.
  - reflexivity.
Defined.

(** ** The zero correction on any vector *)

Lemma kill_zeros_idem l : kill_zeros (kill_zeros l) = kill_zeros l.
Proof.
  unfold kill_zeros. rewrite map_map. apply map_ext. intros x.
  destruct (Z.eqb_spec x 0); [reflexivity|].
  destruct (Z.eqb_spec x 0); [contradiction|reflexivity].
Qed.

Lemma count_kill_zeros l : count_occ Z.eq_dec (kill_zeros l) 0 = 0%nat.
Proof.
  apply count_occ_not_In. intros H. apply in_kill_zeros in H as [H|[H _]].
  - discriminate.
  - now apply H.
Qed.

Lemma keep_first_zero_idem l : keep_first_zero (keep_first_zero l) = keep_first_zero l.
Proof.
  induction l as [|h l IH]; simpl; [reflexivity|].
  destruct (Z.eqb_spec h 0) as [->|Hne]; simpl.
  - now rewrite kill_zeros_idem.
  - destruct (Z.eqb_spec h 0); [contradiction|]. now rewrite IH.
Qed.

Lemma count_keep_first_zero l :
  count_occ Z.eq_dec (keep_first_zero l) 0 = Nat.min 1 (count_occ Z.eq_dec l 0).
Proof.
  induction l as [|h l IH]; simpl; [reflexivity|].
  destruct (Z.eqb_spec h 0) as [->|Hne]; simpl.
  - now rewrite count_kill_zeros.
  - destruct (Z.eq_dec h 0); [contradiction|]. exact IH.
Qed.

Lemma existsb_keep_first_zero (i : nat) l :
  existsb (Z.eqb (Z.of_nat i)) (keep_first_zero l) = existsb (Z.eqb (Z.of_nat i)) l.
Proof.
  apply eq_true_iff_eq. rewrite !existsb_exists. split.
  - intros (x & Hx & E). apply Z.eqb_eq in E. subst x.
    apply in_keep_first_zero in Hx as [Hx|Hx]; [lia|].
    exists (Z.of_nat i). split; [assumption|apply Z.eqb_refl].
  - intros (x & Hx & E). exists x. split; [|assumption].
    now apply keep_first_zero_in.
Qed.

(** X8. The zero correction of lines 76-85, on any vector. Its loop never
    writes through the end iterator; the vector keeps its length and every
    entry other than 0; a vector with a 0 is left with exactly one, a vector
    without is left as it is; the columns that [find] finds in the vector are
    the same before and after, so that the loop of lines 69-74 could as well
    run after it; and correcting twice is correcting once. *)
Theorem zero_correction_any_vector (assignment : list Z) :
  exists corrected,
    fix_zeros assignment = Some corrected /\
    length corrected = length assignment /\
    (forall row c, nth_error assignment row = Some c -> c <> 0 ->
                   nth_error corrected row = Some c) /\
    count_occ Z.eq_dec corrected 0 = Nat.min 1 (count_occ Z.eq_dec assignment 0) /\
    (forall n, free_columns corrected n = free_columns assignment n) /\
    fix_zeros corrected = Some corrected.
Proof.
  exists (keep_first_zero assignment).
  split; [apply fix_zeros_spec|].
  split; [apply length_keep_first_zero|].
  split.
  { intros row c Hrow Hc. rewrite (keep_first_zero_nth _ _ _ Hrow).
    destruct (Z.eqb_spec c 0); [contradiction|reflexivity]. }
  split; [apply count_keep_first_zero|].
  split.
  { intros n. unfold free_columns. apply filter_ext. intros i.
    now rewrite existsb_keep_first_zero. }
  now rewrite fix_zeros_spec, keep_first_zero_idem.
Qed.

(** ** The cascade, whatever the collaborators return *)

(** A round called by the cascade that returns. *)
Lemma with_locals_returns Solve metric md tracks dets tis dis s ms s1 :
  tis <> [] -> dis <> [] ->
  with_locals (min_cost_matching Solve metric md tracks dets tis dis) s = Ok ms s1 ->
  unmatched_detections s = dis ->
  incl (map track_idx ms) tis /\
  incl (map detection_idx ms) dis /\
  incl (unmatched_detections s1) dis /\
  matches s1 = matches s /\
  unmatched_tracks s1 = unmatched_tracks s.
Proof.
  intros Ht Hd Hrun Hs. unfold with_locals in Hrun.
  destruct (min_cost_matching Solve metric md tracks dets tis dis _)
    as [[] s2|s2] eqn:Hcall; [|discriminate].
  injection Hrun as <- <-.
  destruct (min_cost_matching_returns _ _ _ _ _ _ _ _ _ Ht Hd Hcall) as (vs & Hvs & ->).
  cbn [matches unmatched_tracks unmatched_detections].
  pose proof (verdicts_tracks_incl _ _ _ _ _ _ _ Hvs) as Htr.
  pose proof (verdicts_detections_incl _ _ _ _ _ _ _ Hvs) as Hdet.
  repeat split.
  - eapply incl_tran; [apply matched_of_tracks|assumption].
  - eapply incl_tran; [apply matched_of_detections|assumption].
  - apply incl_app; [apply free_columns_incl|].
    eapply incl_tran; [apply unmatched_detections_of_incl|assumption].
Qed.

Lemma erase_matched_app ms1 ms2 W :
  erase_matched (ms1 ++ ms2) W = erase_matched ms2 (erase_matched ms1 W).
Proof. unfold erase_matched. apply fold_left_app. Qed.

(** What the loop over the levels leaves when it ends. *)
Lemma cascade_levels_returns Solve metric md tracks dets (levels : list Z) :
  forall W s W' s',
    cascade_levels Solve metric md tracks dets levels W s = Ok W' s' ->
    exists ms,
      matches s' = matches s ++ ms /\
      unmatched_tracks s' = unmatched_tracks s /\
      W' = erase_matched ms W /\
      incl (unmatched_detections s') (unmatched_detections s) /\
      Forall (fun m => In (track_idx m) W /\
                       In (detection_idx m) (unmatched_detections s) /\
                       valid_index tracks (track_idx m) /\
                       exists level, In level levels /\
                                     tsu tracks (track_idx m) = 1 + level) ms.
Proof.
  induction levels as [|level levels IH]; intros W s W' s'; cbn [cascade_levels].
  - unfold ret. intros E. injection E as <- <-. exists [].
    rewrite app_nil_r. repeat split; auto using incl_refl.
  - unfold bind at 1, get_unmatched_detections.
    destruct (length (unmatched_detections s) <? 1)%nat eqn:Huds.
    { unfold ret. intros E. injection E as <- <-. exists [].
      rewrite app_nil_r. repeat split; auto using incl_refl. }
    apply nonempty_length in Huds.
    unfold bind at 1, lift.
    destruct (select_level tracks W (1 + level)) as [tl|] eqn:Htl; [|discriminate].
    unfold ret at 1.
    destruct (length tl <? 1)%nat eqn:Hne.
    { intros E. destruct (IH _ _ _ _ E) as (ms & Hm & Hu & HW & Hd & Hall).
      exists ms. repeat split; auto.
      eapply Forall_impl; [|exact Hall]. cbv beta.
      intros m (H1 & H2 & H3 & l & Hl & Hage).
      split; [assumption|]. split; [assumption|]. split; [assumption|].
      exists l. split; [now right|assumption]. }
    apply nonempty_length in Hne.
    unfold bind at 1.
    destruct (with_locals _ s) as [ms1 s1|s1] eqn:Hround; [|discriminate].
    destruct (with_locals_returns _ _ _ _ _ _ _ _ _ _ Hne Huds Hround eq_refl)
      as (Hmt & Hmd & Hud & Hms1 & Hut1).
    unfold bind at 1. rewrite absorb_matches_run.
    intros E. destruct (IH _ _ _ _ E) as (ms2 & Hm & Hu & HW & Hd & Hall).
    cbn [matches unmatched_tracks unmatched_detections] in Hm, Hu, Hd, Hall.
    apply select_level_Some in Htl as (Hvalid & ->).
    exists (ms1 ++ ms2). rewrite Hm, Hu, Hms1, Hut1, HW, erase_matched_app, app_assoc.
    repeat split; auto.
    + eapply incl_tran; eassumption.
    + apply Forall_app. split.
      * apply Forall_forall. intros m Hin.
        assert (Hm1 : In (track_idx m) (map track_idx ms1)) by now apply in_map.
        apply Hmt, filter_In in Hm1 as [HinW Hage]. apply Z.eqb_eq in Hage.
        split; [assumption|].
        split; [apply Hmd; now apply in_map|].
        split; [rewrite Forall_forall in Hvalid; now apply Hvalid|].
        exists level. split; [now left|assumption].
      * eapply Forall_impl; [|exact Hall]. cbv beta.
        intros m (H1 & H2 & H3 & l & Hl & Hage).
        split; [eapply in_erase_matched; eassumption|].
        split; [now apply Hud|].
        split; [assumption|].
        exists l. split; [now right|assumption].
Qed.

Lemma erase_first_NoDup x W : NoDup W -> erase_first x W = filter (fun t => negb (t =? x)) W.
Proof.
  induction 1 as [|h W Hh _ IH]; simpl; [reflexivity|].
  destruct (Z.eqb_spec h x) as [->|Hne]; simpl.
  - symmetry. apply forallb_filter_id. apply forallb_forall. intros y Hy.
    apply negb_true_iff, Z.eqb_neq. intros ->. contradiction.
  - now rewrite IH.
Qed.

Lemma erase_matched_NoDup ms : forall W,
  NoDup W -> erase_matched ms W = without_matched ms W.
Proof.
  unfold erase_matched, without_matched.
  induction ms as [|m ms IH]; intros W Hnd; simpl.
  - symmetry. apply forallb_filter_id. apply forallb_forall. reflexivity.
  - rewrite IH by now apply NoDup_erase_first.
    rewrite erase_first_NoDup by assumption.
    clear. induction W as [|h W IHW]; simpl; [reflexivity|].
    rewrite (Z.eqb_sym h (track_idx m)).
    destruct (h =? track_idx m) eqn:E; simpl.
    + rewrite Z.eqb_sym, E. simpl. exact IHW.
    + rewrite Z.eqb_sym, E. simpl.  now rewrite IHW.
Qed.

(** A cascade that returns, read through the loop over its levels. *)
Lemma matching_cascade_returns Solve metric md tracks dets depth tis dis s s' :
  matching_cascade Solve metric md tracks dets depth tis dis s = Ok tt s' ->
  exists ms,
    matches s' = matches s ++ ms /\
    unmatched_tracks s' = erase_matched ms tis /\
    incl (unmatched_detections s') dis /\
    Forall (fun m => In (track_idx m) tis /\
                     In (detection_idx m) dis /\
                     valid_index tracks (track_idx m) /\
                     exists level, In level (levels_of depth) /\
                                   tsu tracks (track_idx m) = 1 + level) ms.
Proof.
  unfold matching_cascade. unfold bind at 1, set_unmatched_detections.
  unfold bind at 1.
  destruct (cascade_levels _ _ _ _ _ _ _ _) as [W' s1|s1] eqn:Hloop; [|discriminate].
  unfold set_unmatched_tracks. intros E. injection E as <-.
  destruct (cascade_levels_returns _ _ _ _ _ _ _ _ _ _ Hloop)
    as (ms & Hm & _ & -> & Hd & Hall).
  exists ms. cbn [matches unmatched_tracks unmatched_detections] in *. auto.
Qed.

(** X9. What a cascade that returns adds to [matches], whatever the metric and
    the solver return: the old pairs stay in front, and every new pair joins
    an entry of [track_indices] that is a valid index of [tracks], with
    [time_since_update_] between 1 and [cascade_depth], to an entry of
    [detection_indices]. The detections left unmatched are entries of
    [detection_indices], the tracks left unmatched entries of
    [track_indices]. *)
Theorem cascade_pairs_come_from_its_levels
    Solve metric md tracks dets depth tis dis s s' :
  matching_cascade Solve metric md tracks dets depth tis dis s = Ok tt s' ->
  exists ms,
    matches s' = matches s ++ ms /\
    incl (unmatched_tracks s') tis /\
    incl (unmatched_detections s') dis /\
    forall m, In m ms ->
      In (track_idx m) tis /\ In (detection_idx m) dis /\
      valid_index tracks (track_idx m) /\
      1 <= tsu tracks (track_idx m) <= depth.
Proof.
  intros Hrun.
  destruct (matching_cascade_returns _ _ _ _ _ _ _ _ _ _ Hrun)
    as (ms & Hm & Hu & Hd & Hall).
  exists ms. split; [assumption|]. split.
  { rewrite Hu. intros x Hx. eapply in_erase_matched; eassumption. }
  split; [assumption|].
  intros m Hin. rewrite Forall_forall in Hall.
  destruct (Hall m Hin) as (H1 & H2 & H3 & level & Hl & Hage).
  apply in_levels_of in Hl.
  split; [assumption|]. split; [assumption|]. split; [assumption|]. lia.
Qed.

(** Three tracks of ages 1, 2 and 5 against two detections, depth 3. *)
Lemma cascade_pairs_come_from_its_levels_witness :
  exists s',
    matching_cascade diagonal_solver (constant_metric (F32.of_Z 1)) (F32.of_Z 2)
      [track_of_age 1; track_of_age 2; track_of_age 5] [box 0; box 1] 3
      [2; 1; 0] [1; 0] (mkStore [mkMatch 7 8] [5] [6] []) = Ok tt s' /\
    exists ms,
      matches s' = matches (mkStore [mkMatch 7 8] [5] [6] []) ++ ms /\
      incl (unmatched_tracks s') [2; 1; 0] /\
      incl (unmatched_detections s') [1; 0] /\
      forall m, In m ms ->
        In (track_idx m) [2; 1; 0] /\ In (detection_idx m) [1; 0] /\
        valid_index [track_of_age 1; track_of_age 2; track_of_age 5] (track_idx m) /\
        1 <= tsu [track_of_age 1; track_of_age 2; track_of_age 5] (track_idx m) <= 3.
Proof.
  eexists. split; [vm_compute; reflexivity|].
  apply (cascade_pairs_come_from_its_levels diagonal_solver
           (constant_metric (F32.of_Z 1)) (F32.of_Z 2)
           [track_of_age 1; track_of_age 2; track_of_age 5] [box 0; box 1] 3
           [2; 1; 0] [1; 0] (mkStore [mkMatch 7 8] [5] [6] [])).
  vm_compute. reflexivity.
Defined.

(** X10. The tracks that a returning cascade leaves unmatched are
    [track_indices] after one [erase] for each new pair, in the order of the
    pairs; when no index occurs twice in [track_indices] they are the entries
    of [track_indices] that are in no new pair, in the order of
    [track_indices]. *)
Theorem cascade_unmatched_tracks_keep_order
    Solve metric md tracks dets depth tis dis s s' :
  matching_cascade Solve metric md tracks dets depth tis dis s = Ok tt s' ->
  exists ms,
    matches s' = matches s ++ ms /\
    unmatched_tracks s' = erase_matched ms tis /\
    (NoDup tis ->
     unmatched_tracks s' = without_matched ms tis /\ NoDup (unmatched_tracks s')).
Proof.
  intros Hrun.
  destruct (matching_cascade_returns _ _ _ _ _ _ _ _ _ _ Hrun)
    as (ms & Hm & Hu & _ & _).
  exists ms. split; [assumption|]. split; [assumption|].
  intros Hnd. rewrite Hu. split.
  - now apply erase_matched_NoDup.
  - now apply NoDup_erase_matched.
Qed.

Lemma cascade_unmatched_tracks_keep_order_witness :
  exists s',
    matching_cascade diagonal_solver (constant_metric (F32.of_Z 1)) (F32.of_Z 2)
      [track_of_age 1; track_of_age 2; track_of_age 5; track_of_age 1]
      [box 0] 3 [2; 3; 1; 0] [0] empty_store = Ok tt s' /\
    unmatched_tracks s' = [2; 1; 0] /\
    exists ms,
      matches s' = matches empty_store ++ ms /\
      unmatched_tracks s' = erase_matched ms [2; 3; 1; 0] /\
      (NoDup [2; 3; 1; 0] ->
       unmatched_tracks s' = without_matched ms [2; 3; 1; 0] /\
       NoDup (unmatched_tracks s')).
Proof.
  eexists. split; [vm_compute; reflexivity|]. split; [reflexivity|].
  apply (cascade_unmatched_tracks_keep_order diagonal_solver
           (constant_metric (F32.of_Z 1)) (F32.of_Z 2)
           [track_of_age 1; track_of_age 2; track_of_age 5; track_of_age 1]
           [box 0] 3 [2; 3; 1; 0] [0] empty_store).
  vm_compute. reflexivity.
Defined.

(** X11. A cascade with nothing to do: when [cascade_depth] is not positive
    or there is no detection index, the call returns without reading a track
    and without calling the metric or the solver, even if a track index is
    out of range; every track index is left unmatched, in the order given,
    and [matches] is left as it was. *)
Theorem cascade_without_levels_or_detections
    Solve metric md tracks dets depth tis dis s :
  depth <= 0 \/ dis = [] ->
  matching_cascade Solve metric md tracks dets depth tis dis s =
  Ok tt (mkStore (matches s) tis dis (trace s)).
Proof.
  intros H. unfold matching_cascade, bind at 1, set_unmatched_detections.
  assert (E : cascade_levels Solve metric md tracks dets (levels_of depth) tis
                (mkStore (matches s) (unmatched_tracks s) dis (trace s)) =
              Ok tis (mkStore (matches s) (unmatched_tracks s) dis (trace s))).
  { destruct H as [H| ->].
    - unfold levels_of. replace (Z.to_nat depth) with 0%nat by lia. reflexivity.
    - destruct (levels_of depth); reflexivity. }
  unfold bind. rewrite E. reflexivity.
Qed.

(** Index 9 is no position of the one track; there is no detection. *)
Lemma cascade_without_levels_or_detections_witness :
  matching_cascade diagonal_solver (constant_metric (F32.of_Z 1)) (F32.of_Z 2)
    [track_of_age 1] [box 0] 3 [9; 0] [] (mkStore [mkMatch 7 8] [5] [6] []) =
  Ok tt (mkStore [mkMatch 7 8] [9; 0] [] []).
Proof.
  apply (cascade_without_levels_or_detections diagonal_solver
           (constant_metric (F32.of_Z 1)) (F32.of_Z 2) [track_of_age 1] [box 0] 3
           [9; 0] [] (mkStore [mkMatch 7 8] [5] [6] [])).
  right. reflexivity.
Defined.

(** X12. With a detection index and a positive [cascade_depth], the first
    level reads [tracks[*it]] for every entry of [track_indices]: the call
    returns only if each of them is a position of [tracks]. *)
Theorem cascade_reads_every_track Solve metric md tracks dets depth tis dis s :
  1 <= depth -> dis <> [] ->
  is_ok (matching_cascade Solve metric md tracks dets depth tis dis s) = true ->
  Forall (valid_index tracks) tis.
Proof.
  intros Hdepth Hd. unfold matching_cascade, bind at 1, set_unmatched_detections.
  destruct (levels_of_pos depth Hdepth) as (rest & ->).
  unfold bind at 1. cbn [cascade_levels].
  unfold bind at 1, get_unmatched_detections. cbn [unmatched_detections].
  apply nonempty_length in Hd. rewrite Hd.
  unfold bind at 1, lift.
  destruct (select_level tracks tis (1 + 0)) as [tl|] eqn:Htl.
  - intros _. now apply select_level_Some in Htl.
  - discriminate.
Qed.

Lemma cascade_reads_every_track_witness :
  Forall (valid_index [track_of_age 1; track_of_age 2]) [1; 0].
Proof.
  apply (cascade_reads_every_track diagonal_solver (constant_metric (F32.of_Z 1))
           (F32.of_Z 2) [track_of_age 1; track_of_age 2] [box 0] 2 [1; 0] [0]
           empty_store).
  - lia.
  - discriminate.
  - vm_compute. reflexivity.
Defined.

(** ** When a round returns *)

Lemma coeff_defined (m : MatrixXf) (i j : nat) :
  coeff m i j <> None <->
  (i < rows m)%nat /\ (j < cols m)%nat /\ (i + rows m * j < length (data m))%nat.
Proof.
  unfold coeff.
  destruct (Nat.ltb_spec i (rows m)), (Nat.ltb_spec j (cols m)); simpl;
    rewrite ?nth_error_Some; intuition (try lia; try congruence).
Qed.

Lemma verdict_defined cm md tis dis asg row :
  verdict cm md tis dis asg row <> None <->
  (row < length asg)%nat /\ row_in_range cm tis dis asg row.
Proof.
  unfold verdict, row_in_range.
  destruct (nth_error asg row) as [col|] eqn:Ecol.
  - assert (Hrow : (row < length asg)%nat) by (apply nth_error_Some; congruence).
    destruct (nth_error tis row) as [t|] eqn:Et.
    + assert (Ht : (row < length tis)%nat) by (apply nth_error_Some; congruence).
      destruct (Z.eqb_spec col (-1)) as [->|Hne]; simpl.
      * split; [|discriminate]. intros _. split; [assumption|]. split; [assumption|].
        intros col E. injection E as <-. congruence.
      * unfold vec_at. destruct (Z.ltb_spec col 0) as [Hneg|Hpos].
        { split; [congruence|]. intros (_ & _ & H).
          destruct (H col eq_refl Hne). lia. }
        destruct (nth_error dis (Z.to_nat col)) as [d|] eqn:Ed.
        -- assert (Hd : (Z.to_nat col < length dis)%nat)
             by (apply nth_error_Some; congruence).
           destruct (coeff cm row (Z.to_nat col)) as [c|] eqn:Ec.
           ++ split; [|discriminate]. intros _.
              split; [assumption|]. split; [assumption|].
              intros col' E _. injection E as <-.
              split; [lia|]. apply coeff_defined. congruence.
           ++ split; [congruence|]. intros (_ & _ & H).
              destruct (H col eq_refl Hne) as (_ & Hc).
              apply coeff_defined in Hc. congruence.
        -- apply nth_error_None in Ed.
           split; [congruence|]. intros (_ & _ & H).
           destruct (H col eq_refl Hne). lia.
    + apply nth_error_None in Et.
      split.
      * destruct (col =? -1); simpl; congruence.
      * intros (_ & H & _). lia.
  - apply nth_error_None in Ecol. split; [congruence|]. intros (H & _). lia.
Qed.

Lemma verdicts_defined_iff cm md tis dis asg (rws : list nat) :
  verdicts cm md tis dis asg rws <> None <->
  Forall (fun row => verdict cm md tis dis asg row <> None) rws.
Proof.
  induction rws as [|row rws IH]; simpl.
  - split; [constructor|discriminate].
  - destruct (verdict cm md tis dis asg row) as [v|] eqn:Ev.
    + destruct (verdicts cm md tis dis asg rws) as [vs|]; simpl.
      * split; [|discriminate]. intros _. constructor; [congruence|].
        apply IH. discriminate.
      * split; [congruence|]. intros H. inversion H as [|? ? _ Hrest]; subst.
        apply IH in Hrest. congruence.
    + split; [congruence|]. intros H. inversion H; subst. congruence.
Qed.

Lemma row_in_range_cwise_min m b tis dis asg row :
  row_in_range (cwise_min m b) tis dis asg row <-> row_in_range m tis dis asg row.
Proof.
  unfold row_in_range, cwise_min. cbn [rows cols data]. rewrite length_map.
  reflexivity.
Qed.

(** X13. When a round with two non-empty index lists returns: exactly when
    every row of the corrected assignment vector can be read, that is, the
    vector is no longer than [track_indices] and each entry other than -1 is a
    position of [detection_indices] and, with the row, of a coefficient of the
    matrix that the metric returned. Nothing else can go out of range. *)
Theorem round_returns_iff_rows_in_range Solve metric md tracks dets tis dis s :
  tis <> [] -> dis <> [] ->
  is_ok (min_cost_matching Solve metric md tracks dets tis dis s) = true <->
  forall row,
    (row < length (solved Solve metric md tracks dets tis dis))%nat ->
    row_in_range (metric tracks dets tis dis) tis dis
      (keep_first_zero (solved Solve metric md tracks dets tis dis)) row.
Proof.
  intros Ht Hd.
  pose proof (min_cost_matching_run Solve metric md tracks dets tis dis s Ht Hd) as H.
  cbv zeta in H.
  set (asg := keep_first_zero (solved Solve metric md tracks dets tis dis)) in *.
  assert (Hiff : verdicts (clamped metric md tracks dets tis dis) md tis dis asg
                   (seq 0 (length asg)) <> None <->
                 forall row,
                   (row < length (solved Solve metric md tracks dets tis dis))%nat ->
                   row_in_range (metric tracks dets tis dis) tis dis asg row).
  { rewrite verdicts_defined_iff, Forall_forall.
    assert (Hlen : length asg = length (solved Solve metric md tracks dets tis dis))
      by apply length_keep_first_zero.
    split.
    - intros Hall row Hrow.
      assert (Hin : In row (seq 0 (length asg))) by (apply in_seq; lia).
      apply Hall, verdict_defined in Hin as (_ & Hr).
      exact (proj1 (row_in_range_cwise_min _ _ _ _ _ _) Hr).
    - intros Hall row Hin. apply in_seq in Hin. apply verdict_defined.
      split; [lia|]. unfold clamped.
      apply (proj2 (row_in_range_cwise_min _ _ _ _ _ _)). apply Hall. lia. }
  destruct (verdicts _ md tis dis asg (seq 0 (length asg))) as [vs|].
  - rewrite H. simpl. split; [intros _|reflexivity]. apply Hiff. discriminate.
  - rewrite H. split; [discriminate|]. intros Hall. apply Hiff in Hall. congruence.
Qed.

(** The call of [mismatch_not_rejected], and the same call with a solver that
    returns a row for each of the two track indices. *)
Lemma round_returns_iff_rows_in_range_witness :
  is_ok (min_cost_matching diagonal_solver (narrow_metric (F32.of_Z 1)) (F32.of_Z 2)
           [track_of_age 1; track_of_age 1] [box 0] [0; 1] [0] empty_store) = true /\
  is_ok (min_cost_matching (fun _ _ _ => [0; 1]) (narrow_metric (F32.of_Z 1))
           (F32.of_Z 2) [track_of_age 1; track_of_age 1] [box 0] [0; 1] [0]
           empty_store) = false.
Proof.
  split.
  - apply (round_returns_iff_rows_in_range diagonal_solver (narrow_metric (F32.of_Z 1))
             (F32.of_Z 2) [track_of_age 1; track_of_age 1] [box 0] [0; 1] [0]
             empty_store ltac:(discriminate) ltac:(discriminate)).
    intros [|row] Hrow; [|simpl in Hrow; lia].
    split; [simpl; lia|]. intros col E _. injection E as <-. simpl. lia.
  - apply not_true_is_false. intros Hok.
    pose proof (proj1 (round_returns_iff_rows_in_range (fun _ _ _ => [0; 1])
                         (narrow_metric (F32.of_Z 1)) (F32.of_Z 2)
                         [track_of_age 1; track_of_age 1] [box 0] [0; 1] [0]
                         empty_store ltac:(discriminate) ltac:(discriminate)) Hok)
      as Hall.
    destruct (Hall 1%nat ltac:(simpl; lia)) as (_ & H).
    destruct (H 1 eq_refl ltac:(lia)) as (Hc & _). simpl in Hc. lia.
Defined.

(** ** Gating, whatever the filter returns *)

Lemma set_row_from_coeff v : forall m i j m' i' j',
  set_row_from m i j v = Some m' ->
  coeff m' i' j' =
  if (i' =? i)%nat && (j <=? j')%nat && (j' <? j + length v)%nat
  then nth_error v (j' - j) else coeff m i' j'.
Proof.
  induction v as [|x v IH]; intros m i j m' i' j'; cbn [set_row_from length].
  - intros E. injection E as <-.
    destruct (i' =? i)%nat, (Nat.leb_spec j j'), (Nat.ltb_spec j' (j + 0));
      cbn [andb]; try reflexivity; lia.
  - unfold obind. destruct (set_coeff m i j x) as [m1|] eqn:E1; [|discriminate].
    intros H. rewrite (IH _ _ _ _ i' j' H), (coeff_set_coeff _ _ _ _ _ i' j' E1).
    destruct (Nat.eqb_spec i' i) as [->|]; cbn [andb]; [|reflexivity].
    destruct (Nat.eqb_spec j' j) as [->|Hne].
    + assert (E2 : (S j <=? j)%nat = false) by (apply Nat.leb_gt; lia).
      assert (E3 : (j <=? j)%nat = true) by (apply Nat.leb_le; lia).
      assert (E4 : (j <? j + S (length v))%nat = true) by (apply Nat.ltb_lt; lia).
      rewrite E2, E3, E4, Nat.sub_diag. reflexivity.
    + destruct (Nat.leb_spec j j') as [Hle|Hgt].
      * assert (E2 : (S j <=? j')%nat = true) by (apply Nat.leb_le; lia).
        rewrite E2. replace (S j + length v)%nat with (j + S (length v))%nat by lia.
        cbn [andb]. destruct (j' <? j + S (length v))%nat; [|reflexivity].
        replace (j' - j)%nat with (S (j' - S j)) by lia. reflexivity.
      * assert (E2 : (S j <=? j')%nat = false) by (apply Nat.leb_gt; lia).
        rewrite E2. reflexivity.
Qed.

Lemma set_row_coeff m i v m' i' j' :
  set_row m i v = Some m' ->
  length v = cols m /\
  coeff m' i' j' = if (i' =? i)%nat && (j' <? cols m)%nat then nth_error v j'
                   else coeff m i' j'.
Proof.
  unfold set_row.
  destruct (Nat.eqb_spec (length v) (cols m)) as [Hlen|]; [|discriminate].
  destruct (i <? rows m)%nat; [|discriminate]. cbn [andb].
  intros H. split; [assumption|].
  rewrite (set_row_from_coeff _ _ _ _ _ i' j' H), Hlen, Nat.sub_0_r.
  now destruct (i' =? i)%nat.
Qed.

Lemma fill_measurements_before dets dis : forall i0 m m' i' j,
  fill_measurements dets dis i0 m = Some m' ->
  (i' < i0)%nat -> coeff m' i' j = coeff m i' j.
Proof.
  induction dis as [|d dis IH]; intros i0 m m' i' j; simpl.
  - intros E. now injection E as <-.
  - unfold obind. destruct (vec_at dets d) as [det|]; [|discriminate].
    destruct (set_row m i0 (to_xyah det)) as [m1|] eqn:E1; [|discriminate].
    intros H Hlt. rewrite (IH _ _ _ _ _ H) by lia.
    destruct (set_row_coeff _ _ _ _ i' j E1) as (_ & ->).
    destruct (Nat.eqb_spec i' i0); [lia|reflexivity].
Qed.

Lemma fill_measurements_coeff dets dis : forall i0 m m' k d det j,
  fill_measurements dets dis i0 m = Some m' ->
  nth_error dis k = Some d -> vec_at dets d = Some det ->
  length (to_xyah det) = cols m /\
  ((j < cols m)%nat -> coeff m' (i0 + k) j = nth_error (to_xyah det) j).
Proof.
  induction dis as [|d0 dis IH]; intros i0 m m' k d det j; simpl.
  - destruct k; discriminate.
  - unfold obind. destruct (vec_at dets d0) as [det0|] eqn:Ed0; [|discriminate].
    destruct (set_row m i0 (to_xyah det0)) as [m1|] eqn:E1; [|discriminate].
    intros H Hk Hd. destruct k as [|k]; simpl in Hk.
    + injection Hk as ->. rewrite Hd in Ed0. injection Ed0 as <-.
      destruct (set_row_coeff _ _ _ _ i0 j E1) as (Hlen & Hc).
      split; [assumption|]. intros Hj.
      rewrite Nat.add_0_r, (fill_measurements_before _ _ _ _ _ _ _ H) by lia.
      rewrite Hc, Nat.eqb_refl.
      destruct (Nat.ltb_spec j (cols m)); [reflexivity|lia].
    + assert (Hshape : cols m1 = cols m).
      { unfold set_row in E1.
        destruct ((length (to_xyah det0) =? cols m)%nat && (i0 <? rows m)%nat);
          [|discriminate].
        now apply set_row_from_shape in E1. }
      replace (i0 + S k)%nat with (S i0 + k)%nat by lia.
      destruct (IH _ _ _ _ _ _ j H Hk Hd) as (Hlen & Hc).
      rewrite Hshape in Hlen, Hc. auto.
Qed.

(** X14. The matrix of measurements that [gate_cost_matrix] hands to the
    filter (lines 235-241): whenever the call returns, it has a row for each
    detection index and four columns, every detection index is a position of
    [detections], every box that was read has four numbers, and row [i] holds
    the box of detection [detection_indices[i]]; no coefficient is left
    unwritten. *)
Theorem gate_cost_matrix_measurements
    chi2inv95 kf cm tracks dets tis dis gated_cost only_position m' :
  gate_cost_matrix chi2inv95 kf cm tracks dets tis dis gated_cost only_position =
  Some m' ->
  exists measurements,
    build_measurements dets dis = Some measurements /\
    rows measurements = length dis /\ cols measurements = 4%nat /\
    length (data measurements) = (length dis * 4)%nat /\
    forall i d,
      nth_error dis i = Some d ->
      exists det,
        vec_at dets d = Some det /\ length (to_xyah det) = 4%nat /\
        forall j, (j < 4)%nat ->
                  coeff measurements i j = nth_error (to_xyah det) j.
Proof.
  unfold gate_cost_matrix. intros Hrun.
  destruct (build_measurements dets dis) as [mm|] eqn:Hmm; [|discriminate].
  exists mm. split; [reflexivity|].
  destruct (build_measurements_shape _ _ _ Hmm) as (Hr & Hc).
  split; [assumption|]. split; [assumption|].
  unfold build_measurements in Hmm. split.
  { apply fill_measurements_shape in Hmm as (_ & _ & ->). simpl. apply repeat_length. }
  intros i d Hi.
  assert (Hvalid : valid_index dets d).
  { apply fill_measurements_valid in Hmm. rewrite Forall_forall in Hmm.
    apply Hmm. eapply nth_error_In; eassumption. }
  apply vec_at_valid in Hvalid as (det & Hdet). exists det.
  split; [assumption|].
  split.
  - now destruct (fill_measurements_coeff _ _ _ _ _ _ _ _ 0%nat Hmm Hi Hdet).
  - intros j Hj.
    destruct (fill_measurements_coeff _ _ _ _ _ _ _ _ j Hmm Hi Hdet) as (_ & H).
    apply H. simpl. exact Hj.
Qed.

Lemma gate_cost_matrix_measurements_witness :
  exists measurements,
    build_measurements [box 3; box 5] [1; 0; 1] = Some measurements /\
    rows measurements = 3%nat /\
    coeff measurements 1 0 = Some (F32.of_Z 3) /\
    coeff measurements 2 1 = Some (F32.of_Z 5).
Proof.
  destruct (gate_cost_matrix_measurements chi2_table mean_filter
              (mkMatrix 1 3 [F32.of_Z 1; F32.of_Z 1; F32.of_Z 1])
              [track_at (F32.of_Z 20)] [box 3; box 5] [0] [1; 0; 1]
              (F32.of_Z 100000) false
              (mkMatrix 1 3 [F32.of_Z 100000; F32.of_Z 100000; F32.of_Z 100000])
              ltac:(vm_compute; reflexivity))
    as (mm & Hmm & Hr & _ & _ & H).
  exists mm. split; [exact Hmm|]. split; [exact Hr|]. split.
  - destruct (H 1%nat 0 eq_refl) as (det & Hdet & _ & Hc).
    injection Hdet as <-. exact (Hc 0%nat ltac:(lia)).
  - destruct (H 2%nat 1 eq_refl) as (det & Hdet & _ & Hc).
    injection Hdet as <-. exact (Hc 1%nat ltac:(lia)).
Defined.

Lemma gate_rows_after kf tracks mm op thr gc tis : forall m i0 m' i' j,
  gate_rows kf m tracks tis i0 mm op thr gc = Some m' ->
  (i0 + length tis <= i')%nat -> coeff m' i' j = coeff m i' j.
Proof.
  induction tis as [|t tis IH]; intros m i0 m' i' j; simpl.
  - intros E. now injection E as <-.
  - unfold obind. destruct (vec_at tracks t) as [trk|]; [|discriminate].
    destruct (gate_row m i0 0 _ _ _) as [m1|] eqn:E1; [|discriminate].
    intros H Hle. rewrite (IH _ _ _ _ _ H) by lia.
    rewrite (gate_row_coeff _ _ _ _ _ _ _ i' j E1).
    destruct (Nat.eqb_spec i' i0); [lia|reflexivity].
Qed.

(** Every coefficient of the matrix that [gate_rows] returns. *)
Lemma gate_rows_every_coeff kf tracks mm op thr gc tis m m' i j :
  gate_rows kf m tracks tis 0 mm op thr gc = Some m' ->
  coeff m' i j = coeff m i j \/
  exists t trk,
    nth_error tis i = Some t /\ vec_at tracks t = Some trk /\
    gated (distances kf mm op trk) thr j = true /\
    coeff m' i j = Some gc.
Proof.
  intros Hrun.
  destruct (nth_error tis i) as [t|] eqn:Et.
  - assert (Hvalid : valid_index tracks t).
    { apply gate_rows_valid in Hrun. rewrite Forall_forall in Hrun.
      apply Hrun. eapply nth_error_In; eassumption. }
    apply vec_at_valid in Hvalid as (trk & Htrk).
    pose proof (gate_rows_coeff _ _ _ _ _ _ _ _ _ _ i t trk j Hrun Et Htrk) as H.
    simpl in H.
    destruct (gated (distances kf mm op trk) thr j) eqn:Hg.
    + right. exists t, trk. auto.
    + now left.
  - left. apply nth_error_None in Et.
    eapply gate_rows_after; [eassumption|]. simpl. lia.
Qed.

(** X15. What [gate_cost_matrix] leaves alone, whatever the filter returns:
    the matrix that comes back has the dimensions of the one that came in, and
    a coefficient that differs from the one that came in is [gated_cost], in
    the row of a track index and in a column whose distance is above the
    threshold. Rows past the track indices and columns past the distances are
    never written. *)
Theorem gate_cost_matrix_frame
    chi2inv95 kf cm tracks dets tis dis gated_cost only_position m' :
  gate_cost_matrix chi2inv95 kf cm tracks dets tis dis gated_cost only_position =
  Some m' ->
  rows m' = rows cm /\ cols m' = cols cm /\
  length (data m') = length (data cm) /\
  forall i j,
    coeff m' i j <> coeff cm i j ->
    coeff m' i j = Some gated_cost /\
    exists measurements t trk g,
      build_measurements dets dis = Some measurements /\
      nth_error tis i = Some t /\ vec_at tracks t = Some trk /\
      nth_error
        (gating_distance kf (mean_ trk) (cov_ trk) measurements only_position) j =
      Some g /\
      F32.gt g (chi2inv95 (if only_position then 2 else 4)) = true.
Proof.
  unfold gate_cost_matrix. intros Hrun.
  destruct (build_measurements dets dis) as [mm|] eqn:Hmm; [|discriminate].
  unfold obind in Hrun.
  destruct (gate_rows_shape _ _ _ _ _ _ _ _ _ _ Hrun) as (Hr & Hc & Hl).
  split; [assumption|]. split; [assumption|]. split; [assumption|].
  intros i j Hne.
  destruct (gate_rows_every_coeff _ _ _ _ _ _ _ _ _ i j Hrun)
    as [Hsame|(t & trk & Ht & Htrk & Hg & Hgc)]; [contradiction|].
  split; [assumption|].
  unfold gated, distances in Hg.
  destruct (nth_error _ j) as [g|] eqn:Eg; [|discriminate].
  exists mm, t, trk, g. auto.
Qed.

(** A matrix with a row more than there are track indices. *)
Lemma gate_cost_matrix_frame_witness :
  exists m',
    gate_cost_matrix chi2_table mean_filter
      (mkMatrix 2 1 [F32.of_Z 1; F32.of_Z 3]) [track_at (F32.of_Z 20)] [box 0]
      [0] [0] (F32.of_Z 100000) false = Some m' /\
    rows m' = 2%nat /\ cols m' = 1%nat /\ length (data m') = 2%nat.
Proof.
  eexists. split; [vm_compute; reflexivity|].
  destruct (gate_cost_matrix_frame chi2_table mean_filter
              (mkMatrix 2 1 [F32.of_Z 1; F32.of_Z 3]) [track_at (F32.of_Z 20)]
              [box 0] [0] [0] (F32.of_Z 100000) false _
              ltac:(vm_compute; reflexivity)) as (Hr & Hc & Hl & _).
  auto.
Defined.

Lemma set_coeff_same m i j v :
  coeff m i j = Some v -> set_coeff m i j v = Some m.
Proof.
  unfold coeff, set_coeff. destruct m as [r c d]. cbn [rows cols data].
  destruct ((i <? r)%nat && (j <? c)%nat); [|discriminate].
  intros H. cbn [andb].
  assert (Hlt : (i + r * j < length d)%nat) by (apply nth_error_Some; congruence).
  apply Nat.ltb_lt in Hlt. rewrite Hlt. do 2 f_equal.
  clear Hlt. revert H. generalize (i + r * j)%nat. clear.
  induction d as [|h d IH]; intros [|n]; simpl; try discriminate.
  - now intros [= ->].
  - intros H. now rewrite IH.
Qed.

Lemma gate_row_fixed gd : forall m i j0 thr gc,
  (forall j, gated gd thr j = true -> coeff m i (j0 + j) = Some gc) ->
  gate_row m i j0 gd thr gc = Some m.
Proof.
  induction gd as [|g gd IH]; intros m i j0 thr gc H; simpl; [reflexivity|].
  assert (E : (if F32.gt g thr then set_coeff m i j0 gc else Some m) = Some m).
  { destruct (F32.gt g thr) eqn:Hg; [|reflexivity].
    apply set_coeff_same. rewrite <- (Nat.add_0_r j0). apply H.
    unfold gated. simpl. exact Hg. }
  rewrite E. unfold obind. apply IH. intros j Hj.
  replace (S j0 + j)%nat with (j0 + S j)%nat by lia. apply H. exact Hj.
Qed.

Lemma gate_rows_fixed kf tracks mm op thr gc tis : forall m i0,
  Forall (valid_index tracks) tis ->
  (forall k t trk j,
     nth_error tis k = Some t -> vec_at tracks t = Some trk ->
     gated (distances kf mm op trk) thr j = true ->
     coeff m (i0 + k) j = Some gc) ->
  gate_rows kf m tracks tis i0 mm op thr gc = Some m.
Proof.
  induction tis as [|t tis IH]; intros m i0 Hvalid H; simpl; [reflexivity|].
  inversion Hvalid as [|? ? Ht Hvalid']; subst.
  apply vec_at_valid in Ht as (trk & Htrk). rewrite Htrk. unfold obind.
  rewrite gate_row_fixed.
  - apply IH; [assumption|]. intros k t' trk' j Hk Ht' Hg.
    replace (S i0 + k)%nat with (i0 + S k)%nat by lia.
    apply (H (S k) t' trk' j); assumption.
  - intros j Hg. rewrite <- (Nat.add_0_r i0).
    apply (H 0%nat t trk j); [reflexivity|assumption|exact Hg].
Qed.

(** X16. Gating is idempotent: gating the matrix that [gate_cost_matrix]
    returned, with the same arguments, returns that matrix again. *)
Theorem gate_cost_matrix_idempotent
    chi2inv95 kf cm tracks dets tis dis gated_cost only_position m' :
  gate_cost_matrix chi2inv95 kf cm tracks dets tis dis gated_cost only_position =
  Some m' ->
  gate_cost_matrix chi2inv95 kf m' tracks dets tis dis gated_cost only_position =
  Some m'.
Proof.
  unfold gate_cost_matrix.
  destruct (build_measurements dets dis) as [mm|] eqn:Hmm; [|discriminate].
  unfold obind. intros Hrun.
  apply gate_rows_fixed.
  - eapply gate_rows_valid; eassumption.
  - intros k t trk j Hk Ht Hg.
    pose proof (gate_rows_coeff _ _ _ _ _ _ _ _ _ _ k t trk j Hrun Hk Ht) as H.
    rewrite Hg in H. exact H.
Qed.

Lemma gate_cost_matrix_idempotent_witness :
  exists m',
    gate_cost_matrix chi2_table mean_filter
      (mkMatrix 2 1 [F32.of_Z 1; F32.of_Z 3])
      [track_at (F32.of_Z 20); track_at (F32.of_Z 1)] [box 0] [0; 1] [0]
      (F32.of_Z 100000) false = Some m' /\
    gate_cost_matrix chi2_table mean_filter m'
      [track_at (F32.of_Z 20); track_at (F32.of_Z 1)] [box 0] [0; 1] [0]
      (F32.of_Z 100000) false = Some m'.
Proof.
  eexists. split; [vm_compute; reflexivity|].
  apply (gate_cost_matrix_idempotent chi2_table mean_filter
           (mkMatrix 2 1 [F32.of_Z 1; F32.of_Z 3])
           [track_at (F32.of_Z 20); track_at (F32.of_Z 1)] [box 0] [0; 1] [0]
           (F32.of_Z 100000) false).
  vm_compute. reflexivity.
Defined.

(** ** Gating, then matching *)

(** Where a pair of a returning round comes from. *)
Lemma matched_pair_origin Solve metric md tracks dets tis dis s s' p :
  tis <> [] -> dis <> [] ->
  min_cost_matching Solve metric md tracks dets tis dis s = Ok tt s' ->
  In p (matches s') ->
  exists row col c,
    nth_error tis row = Some (track_idx p) /\
    nth_error dis col = Some (detection_idx p) /\
    coeff (metric tracks dets tis dis) row col = Some c /\
    F32.gt (F32.min c (clamp_bound md)) md = false.
Proof.
  intros Ht Hd Hrun Hp.
  destruct (min_cost_matching_returns _ _ _ _ _ _ _ _ _ Ht Hd Hrun) as (vs & Hvs & ->).
  cbn [matches] in Hp.
  apply verdicts_Forall2 in Hvs. apply in_matched_of in Hp.
  destruct (Forall2_in_r _ _ _ _ Hvs Hp) as (row & _ & Hrow).
  apply verdict_matched in Hrow as (col & c' & _ & _ & Et & Ed & Ec & Hgt).
  unfold clamped in Ec. rewrite coeff_cwise_min in Ec.
  destruct (coeff (metric tracks dets tis dis) row (Z.to_nat col)) as [c|] eqn:Eo;
    [|discriminate].
  injection Ec as <-.
  exists row, (Z.to_nat col), c. auto.
Qed.

(** X17. Gating, then matching. When the cost matrix of a round is one that
    [gate_cost_matrix] returned for the same index lists, with a [gated_cost]
    above [max_distance], and the bound of the clamp is above [max_distance],
    then no gated pair is matched: every pair in [matches] joins the track of
    a row to the detection of a column whose gating distance is not above the
    threshold. *)
Theorem gated_pairs_are_not_matched
    chi2inv95 kf Solve cm tracks dets tis dis gated_cost only_position md
    measurements m' s s' :
  tis <> [] -> dis <> [] ->
  build_measurements dets dis = Some measurements ->
  gate_cost_matrix chi2inv95 kf cm tracks dets tis dis gated_cost only_position =
  Some m' ->
  F32.gt gated_cost md = true ->
  F32.gt (clamp_bound md) md = true ->
  min_cost_matching Solve (fixed_metric m') md tracks dets tis dis s = Ok tt s' ->
  forall p,
    In p (matches s') ->
    exists row col trk,
      nth_error tis row = Some (track_idx p) /\
      nth_error dis col = Some (detection_idx p) /\
      vec_at tracks (track_idx p) = Some trk /\
      gated (distances kf measurements only_position trk)
        (chi2inv95 (if only_position then 2 else 4)) col = false.
Proof.
  intros Ht Hd Hmm Hgate Hgc Hb Hrun p Hp.
  destruct (matched_pair_origin _ _ _ _ _ _ _ _ _ _ Ht Hd Hrun Hp)
    as (row & col & c & Et & Ed & Ec & Hgt).
  unfold fixed_metric in Ec.
  unfold gate_cost_matrix in Hgate. rewrite Hmm in Hgate. unfold obind in Hgate.
  assert (Hvalid : valid_index tracks (track_idx p)).
  { apply gate_rows_valid in Hgate. rewrite Forall_forall in Hgate.
    apply Hgate. eapply nth_error_In; eassumption. }
  apply vec_at_valid in Hvalid as (trk & Htrk).
  exists row, col, trk. split; [assumption|]. split; [assumption|].
  split; [assumption|].
  pose proof (gate_rows_coeff _ _ _ _ _ _ _ _ _ _ row _ trk col Hgate Et Htrk) as H.
  simpl in H.
  destruct (gated _ _ col); [|reflexivity].
  rewrite Ec in H. injection H as ->.
  unfold F32.min in Hgt. destruct (SFltb (clamp_bound md) gated_cost); congruence.
Qed.

(** Two tracks against one detection: the second pair is gated, the first is
    matched. *)
Lemma gated_pairs_are_not_matched_witness :
  exists m' s',
    gate_cost_matrix chi2_table mean_filter (mkMatrix 2 1 [F32.of_Z 1; F32.of_Z 1])
      [track_at (F32.of_Z 1); track_at (F32.of_Z 20)] [box 0] [0; 1] [0]
      (F32.of_Z 100000) false = Some m' /\
    min_cost_matching diagonal_solver (fixed_metric m') (F32.of_Z 2)
      [track_at (F32.of_Z 1); track_at (F32.of_Z 20)] [box 0] [0; 1] [0]
      empty_store = Ok tt s' /\
    matches s' = [mkMatch 0 0] /\
    forall p, In p (matches s') ->
      exists row col trk,
        nth_error [0; 1] row = Some (track_idx p) /\
        nth_error [0] col = Some (detection_idx p) /\
        vec_at [track_at (F32.of_Z 1); track_at (F32.of_Z 20)] (track_idx p) =
          Some trk /\
        gated (distances mean_filter
                 (mkMatrix 1 4 [F32.of_Z 0; F32.of_Z 0; F32.of_Z 1; F32.of_Z 2])
                 false trk) (chi2_table 4) col = false.
Proof.
  eexists. eexists.
  split; [vm_compute; reflexivity|]. split; [vm_compute; reflexivity|].
  split; [reflexivity|].
  apply (gated_pairs_are_not_matched chi2_table mean_filter diagonal_solver
           (mkMatrix 2 1 [F32.of_Z 1; F32.of_Z 1])
           [track_at (F32.of_Z 1); track_at (F32.of_Z 20)] [box 0] [0; 1] [0]
           (F32.of_Z 100000) false (F32.of_Z 2)
           (mkMatrix 1 4 [F32.of_Z 0; F32.of_Z 0; F32.of_Z 1; F32.of_Z 2])
           (mkMatrix 2 1 [F32.of_Z 1; F32.of_Z 100000]) empty_store).
  - discriminate.
  - discriminate.
  - vm_compute. reflexivity.
  - vm_compute. reflexivity.
  - vm_compute. reflexivity.
  - vm_compute. reflexivity.
  - vm_compute. reflexivity.
Defined.

(** ** The cascade when the collaborators behave *)

Lemma NoDup_app_disjoint {A : Type} (l1 l2 : list A) :
  NoDup (l1 ++ l2) -> NoDup l1 /\ NoDup l2 /\ forall x, In x l2 -> ~ In x l1.
Proof.
  intros H. split; [eapply NoDup_app_remove_r; eassumption|].
  split; [eapply NoDup_app_remove_l; eassumption|].
  induction l1 as [|a l1 IH]; simpl in *; [tauto|].
  inversion H as [|? ? Ha Hrest]; subst.
  intros x Hx [->|Hin].
  - apply Ha. apply in_or_app. now right.
  - exact (IH Hrest x Hx Hin).
Qed.

(** X2. The cascade, when no track index occurs twice, every track index is
    a position of [tracks] and the metric and the solver behave on every
    round: the call returns, the pairs that it appends to [matches] and the
    two unmatched lists partition the two index lists, no track is in two new
    pairs or both in a new pair and unmatched, and the same holds of the
    detections when no detection index occurs twice. *)
Theorem cascade_partitions_indices Solve metric md tracks dets depth tis dis s :
  NoDup tis -> Forall (valid_index tracks) tis ->
  env_ok Solve metric md tracks dets tis dis ->
  exists ms s',
    matching_cascade Solve metric md tracks dets depth tis dis s = Ok tt s' /\
    matches s' = matches s ++ ms /\
    Permutation (map track_idx ms ++ unmatched_tracks s') tis /\
    Permutation (map detection_idx ms ++ unmatched_detections s') dis /\
    NoDup (map track_idx ms) /\
    (forall t, In t (unmatched_tracks s') -> ~ In t (map track_idx ms)) /\
    (NoDup dis ->
     NoDup (map detection_idx ms) /\ NoDup (unmatched_detections s') /\
     forall d, In d (unmatched_detections s') -> ~ In d (map detection_idx ms)).
Proof.
  intros Hnd Hvalid Henv.
  destruct (matching_cascade_complete Solve metric md tracks dets depth tis dis s
              Hnd Hvalid Henv) as (ms & s' & Hrun & Hm & Hpt & Hpd).
  exists ms, s'. split; [assumption|]. split; [assumption|].
  split; [assumption|]. split; [assumption|].
  assert (Ht : NoDup (map track_idx ms ++ unmatched_tracks s')).
  { eapply Permutation_NoDup; [apply Permutation_sym; eassumption|assumption]. }
  apply NoDup_app_disjoint in Ht as (Ht1 & _ & Ht3).
  split; [assumption|]. split; [assumption|].
  intros Hndd.
  assert (Hd : NoDup (map detection_idx ms ++ unmatched_detections s')).
  { eapply Permutation_NoDup; [apply Permutation_sym; eassumption|assumption]. }
  now apply NoDup_app_disjoint in Hd.
Qed.

(** Three tracks of ages 1, 2 and 3 against two detections. *)
Lemma cascade_partitions_indices_witness :
  exists ms s',
    matching_cascade diagonal_solver (constant_metric (F32.of_Z 1)) (F32.of_Z 2)
      [track_of_age 1; track_of_age 2; track_of_age 3] [box 0; box 1] 3
      [2; 0; 1] [1; 0] empty_store = Ok tt s' /\
    matches s' = matches empty_store ++ ms /\
    Permutation (map track_idx ms ++ unmatched_tracks s') [2; 0; 1] /\
    Permutation (map detection_idx ms ++ unmatched_detections s') [1; 0].
Proof.
  destruct (cascade_partitions_indices diagonal_solver (constant_metric (F32.of_Z 1))
              (F32.of_Z 2) [track_of_age 1; track_of_age 2; track_of_age 3]
              [box 0; box 1] 3 [2; 0; 1] [1; 0] empty_store)
    as (ms & s' & Hrun & Hm & Hpt & Hpd & _).
  - repeat constructor; simpl; intuition lia.
  - repeat constructor; unfold valid_index; simpl; lia.
  - apply constant_metric_env_ok.
  - exists ms, s'. auto.
Defined.

(** ** What the solver is handed *)

Lemma SFltb_irrefl (x : spec_float) : SFltb x x = false.
Proof.
  unfold SFltb, SFcompare. destruct x as [[]|[]| |[] m e]; try reflexivity.
  - rewrite Z.compare_refl, Pos.compare_cont_refl. reflexivity.
  - rewrite Z.compare_refl, Pos.compare_cont_refl. reflexivity.
Qed.

Lemma min_not_above (a b : float) : F32.gt (F32.min a b) b = false.
Proof.
  unfold F32.gt, F32.min. destruct (SFltb b a) eqn:E.
  - apply SFltb_irrefl.
  - exact E.
Qed.

(** X18. The costs that the solver is handed are the coefficients of the
    metric's matrix, column by column, each replaced by the bound of the clamp
    when it is above the bound: there are as many as the matrix has
    coefficients and none is above the bound. *)
Theorem solver_costs_are_clamped Solve metric md tracks dets tis dis s :
  tis <> [] -> dis <> [] ->
  exists cost,
    trace (final_store (min_cost_matching Solve metric md tracks dets tis dis s)) =
    trace s ++
    [EvMetric tis dis;
     EvSolve cost (rows (metric tracks dets tis dis))
       (cols (metric tracks dets tis dis))] /\
    length cost = length (data (metric tracks dets tis dis)) /\
    forall k c,
      nth_error cost k = Some c ->
      F32.gt c (clamp_bound md) = false /\
      exists c0,
        nth_error (data (metric tracks dets tis dis)) k = Some c0 /\
        c = (if F32.gt c0 (clamp_bound md) then clamp_bound md else c0).
Proof.
  intros Ht Hd.
  exists (data (cwise_min (metric tracks dets tis dis) (clamp_bound md))).
  split; [exact (min_cost_matching_trace Solve metric md tracks dets tis dis s Ht Hd)|].
  cbn [cwise_min data]. split; [apply length_map|].
  intros k c Hk. rewrite nth_error_map in Hk.
  destruct (nth_error (data (metric tracks dets tis dis)) k) as [c0|];
    [|discriminate].
  injection Hk as <-. split; [apply min_not_above|].
  exists c0. split; reflexivity.
Qed.

(** Costs of 2048 with [max_distance] 100. *)
Lemma solver_costs_are_clamped_witness :
  exists cost,
    trace (final_store
             (min_cost_matching diagonal_solver (constant_metric (F32.of_Z 2048))
                (F32.of_Z 100) [track_of_age 1] [box 0; box 1] [0] [0; 1]
                empty_store)) =
    [EvMetric [0] [0; 1]; EvSolve cost 1 2] /\
    length cost = 2%nat.
Proof.
  destruct (solver_costs_are_clamped diagonal_solver (constant_metric (F32.of_Z 2048))
              (F32.of_Z 100) [track_of_age 1] [box 0; box 1] [0] [0; 1] empty_store)
    as (cost & Htrace & Hlen & _).
  - discriminate.
  - discriminate.
  - exists cost. split; [exact Htrace|exact Hlen].
Defined.

(** * The levels of the cascade (C3) *)

Lemma staged_mono tracks W1 W levels uds evs uds' :
  (forall level tl, In level levels ->
     select_level tracks W1 (1 + level) = Some tl ->
     select_level tracks W (1 + level) = Some tl) ->
  staged tracks W1 levels uds evs uds' -> staged tracks W levels uds evs uds'.
Proof.
  intros Hsel H.
  induction H as [uds|levels|level levels uds evs uds' Hne Htl H IH|
                  level levels uds tl c N M uds1 evs uds' Hne Htl Hnt Hincl H IH].
  - constructor.
  - constructor.
  - apply staged_skip; [assumption|apply Hsel; [now left|assumption]|].
    apply IH. intros l tl Hl. apply Hsel. now right.
  - apply staged_round with (uds1 := uds1);
      [assumption|apply Hsel; [now left|assumption]|assumption|assumption|].
    apply IH. intros l tl' Hl. apply Hsel. now right.
Qed.

Lemma empty_length {A : Type} (l : list A) : (length l <? 1)%nat = true -> l = [].
Proof. destruct l; [reflexivity|discriminate]. Qed.

(** The loop over the levels, when it ends without an access out of range. *)
Lemma cascade_levels_staged Solve metric md tracks dets (levels : list Z) :
  forall W s W' s',
    NoDup levels ->
    cascade_levels Solve metric md tracks dets levels W s = Ok W' s' ->
    exists evs,
      trace s' = trace s ++ evs /\
      staged tracks W levels (unmatched_detections s) evs (unmatched_detections s').
Proof.
  induction levels as [|level levels IH]; intros W s W' s' Hnd; cbn [cascade_levels].
  - unfold ret. intros E. injection E as <- <-. exists [].
    split; [now rewrite app_nil_r|constructor].
  - inversion Hnd as [|? ? Hnotin Hnd']; subst.
    unfold bind at 1, get_unmatched_detections.
    destruct (length (unmatched_detections s) <? 1)%nat eqn:Huds.
    { unfold ret. intros E. injection E as <- <-. exists [].
      split; [now rewrite app_nil_r|].
      rewrite (empty_length _ Huds). constructor. }
    apply nonempty_length in Huds.
    unfold bind at 1, lift.
    destruct (select_level tracks W (1 + level)) as [tl|] eqn:Htl; [|discriminate].
    unfold ret at 1.
    destruct (length tl <? 1)%nat eqn:Hne.
    { apply empty_length in Hne. subst tl. intros E.
      destruct (IH _ _ _ _ Hnd' E) as (evs & Htr & Hst).
      exists evs. split; [assumption|]. now apply staged_skip. }
    apply nonempty_length in Hne.
    unfold bind at 1.
    destruct (with_locals_any Solve metric md tracks dets tl (unmatched_detections s) s
                Hne Huds) as (Htr1 & _ & _ & _).
    destruct (with_locals _ s) as [ms1 s1|s1] eqn:Hround; [|discriminate].
    destruct (with_locals_returns _ _ _ _ _ _ _ _ _ _ Hne Huds Hround eq_refl)
      as (Hmt & _ & Hud & _ & _).
    cbn [final_store] in Htr1.
    unfold bind at 1. rewrite absorb_matches_run.
    intros E. destruct (IH _ _ _ _ Hnd' E) as (evs & Htr & Hst).
    cbn [trace unmatched_detections] in Htr, Hst.
    exists (round_events metric md tracks dets tl (unmatched_detections s) ++ evs).
    split; [now rewrite Htr, Htr1, app_assoc|].
    unfold round_events. cbn [app].
    apply staged_round with (uds1 := unmatched_detections s1);
      [assumption|assumption|assumption|assumption|].
    apply staged_mono with (W1 := erase_matched ms1 W); [|assumption].
    intros l tl' Hl Hsel.
    apply select_level_Some in Hsel as (_ & ->).
    apply select_level_Some in Htl as (Hvalid & ->).
    rewrite (select_level_valid tracks W (1 + l) Hvalid). f_equal.
    symmetry. apply erase_matched_filter.
    apply Forall_forall. intros m Hm.
    assert (Hm' : In (track_idx m) (map track_idx ms1)) by now apply in_map.
    apply Hmt in Hm'. apply filter_In in Hm' as [_ Hm'].
    apply Z.eqb_eq in Hm'. apply Z.eqb_neq. intros E'.
    assert (l = level) by lia. subst l. contradiction.
Qed.

(** In a staged course every level with a track has its round, unless the
    detections ran out. *)
Lemma staged_level tracks W levels uds evs uds' level tl :
  staged tracks W levels uds evs uds' ->
  In level levels -> select_level tracks W (1 + level) = Some tl -> tl <> [] ->
  (exists dl, In (EvMetric tl dl) evs) \/ uds' = [].
Proof.
  intros H.
  induction H as [uds|levels|l levels uds evs uds' Hne Htl H IH|
                  l levels uds tl0 c N M uds1 evs uds' Hne Htl Hnt Hincl H IH];
    intros Hin Hsel Hnonempty.
  - destruct Hin.
  - now right.
  - destruct Hin as [->|Hin].
    + rewrite Hsel in Htl. injection Htl as ->. now elim Hnonempty.
    + now apply IH.
  - destruct Hin as [->|Hin].
    + rewrite Hsel in Htl. injection Htl as ->.
      left. exists uds. now left.
    + destruct (IH Hin Hsel Hnonempty) as [(dl & Hdl)|Hempty]; [|now right].
      left. exists dl. right. right. exact Hdl.
Qed.

(** C3: every round of [matching_cascade] belongs to a level [L] of
    [0 .. cascade_depth-1], a different one for each round and in increasing
    order, and runs over the entries of [track_indices] whose track has
    [time_since_update_ == L+1]. When the call returns, the levels were gone
    through one by one: a level with no such track was passed over and the
    next one looked at, every other level had its round, over these tracks
    and the detections then unmatched, and the loop was only left early with
    no detection unmatched; so every level that has a track had its round,
    unless no detection is left at the end. With three tracks of ages 1, 2
    and 3 and one detection at the same cost, within [max_distance], for each
    of them, the track of age 1 gets the detection and the other two are the
    unmatched tracks. *)
Theorem cascade_staging Solve metric md tracks dets depth tis dis s :
  (exists evs,
     trace (final_store (matching_cascade Solve metric md tracks dets depth tis dis s)) =
     trace s ++ evs /\
     rounds tracks tis (levels_of depth) evs) /\
  (forall s',
     matching_cascade Solve metric md tracks dets depth tis dis s = Ok tt s' ->
     exists evs,
       trace s' = trace s ++ evs /\
       staged tracks tis (levels_of depth) dis evs (unmatched_detections s') /\
       forall level,
         0 <= level < depth ->
         Forall (valid_index tracks) tis ->
         filter (fun i => tsu tracks i =? 1 + level) tis <> [] ->
         (exists dl,
            In (EvMetric (filter (fun i => tsu tracks i =? 1 + level) tis) dl) evs) \/
         unmatched_detections s' = []) /\
  (forall i1 i2 i3 d c,
     Permutation tis [i1; i2; i3] -> dis = [d] ->
     Forall (valid_index tracks) tis ->
     tsu tracks i1 = 1 -> tsu tracks i2 = 2 -> tsu tracks i3 = 3 ->
     (forall t, In t tis -> metric tracks dets [t] [d] = mkMatrix 1 1 [c]) ->
     F32.le c md = true ->
     (forall cost, Solve cost 1%nat 1%nat = [0]) ->
     1 <= depth ->
     exists s',
       matching_cascade Solve metric md tracks dets depth tis dis s = Ok tt s' /\
       matches s' = matches s ++ [mkMatch i1 d] /\
       Permutation (unmatched_tracks s') [i2; i3] /\
       unmatched_detections s' = []).
Proof.
  split; [apply matching_cascade_rounds|]. split.
  { intros s'. unfold matching_cascade.
    unfold bind at 1, set_unmatched_detections. unfold bind at 1.
    destruct (cascade_levels Solve metric md tracks dets (levels_of depth) tis _)
      as [W s1|s1] eqn:Hloop; [|discriminate].
    unfold set_unmatched_tracks. intros E. injection E as <-.
    destruct (cascade_levels_staged _ _ _ _ _ _ _ _ _ _ (NoDup_levels_of depth) Hloop)
      as (evs & Htr & Hst).
    cbn [trace unmatched_detections] in *.
    exists evs. split; [assumption|]. split; [assumption|].
    intros level Hlevel Hvalid Hne.
    apply (staged_level _ _ _ _ _ _ level _ Hst).
    - now apply in_levels_of.
    - now apply select_level_valid.
    - assumption. }
  intros i1 i2 i3 d c Hperm -> Hvalid H1 H2 H3 Hm Hc HS Hdepth.
  destruct (levels_of_pos depth Hdepth) as (rest & Hlv).
  assert (Hsel : filter (fun i => tsu tracks i =? 1 + 0) tis = [i1]).
  { apply Permutation_length_1_inv, Permutation_sym.
    etransitivity; [apply Permutation_filter_1, Hperm|].
    simpl. rewrite H1, H2, H3. reflexivity. }
  assert (Hi1 : In i1 tis).
  { eapply Permutation_in; [apply Permutation_sym, Hperm|now left]. }
  unfold matching_cascade. rewrite Hlv. cbn [cascade_levels].
  unfold bind at 1, set_unmatched_detections.
  unfold bind at 1. unfold bind at 1, get_unmatched_detections.
  cbn [unmatched_detections length Nat.ltb Nat.leb].
  unfold bind at 1, lift.
  rewrite (select_level_valid tracks tis (1 + 0) Hvalid), Hsel.
  unfold ret at 1. cbn [length Nat.ltb Nat.leb].
  unfold bind at 1, with_locals.
  cbn [unmatched_detections trace matches unmatched_tracks].
  rewrite (single_round Solve metric md tracks dets i1 d c _ (Hm i1 Hi1) Hc HS).
  cbn [unmatched_detections trace matches unmatched_tracks].
  unfold bind at 1. rewrite absorb_matches_run.
  cbn [unmatched_detections trace matches unmatched_tracks erase_matched fold_left
       track_idx].
  rewrite cascade_levels_no_detections by reflexivity.
  unfold set_unmatched_tracks. eexists. split; [reflexivity|].
  cbn [unmatched_detections trace matches unmatched_tracks].
  split; [reflexivity|]. split; [|reflexivity].
  apply Permutation_cons_inv with (a := i1).
  etransitivity; [apply erase_first_perm, Hi1|exact Hperm].
Qed.

(** The scenario on three tracks of ages 1, 2, 3 and one detection at cost 1,
    with [max_distance] 2; and two tracks of ages 3 and 2 against three
    detections: the first level is passed over, the second and the third
    have their rounds. *)
Lemma cascade_staging_witness :
  (exists s',
     matching_cascade diagonal_solver (constant_metric (F32.of_Z 1)) (F32.of_Z 2)
       [track_of_age 1; track_of_age 2; track_of_age 3] [box 0] 3 [0; 1; 2] [0]
       empty_store = Ok tt s' /\
     matches s' = matches empty_store ++ [mkMatch 0 0] /\
     Permutation (unmatched_tracks s') [1; 2] /\
     unmatched_detections s' = []) /\
  (exists s',
     matching_cascade diagonal_solver (constant_metric (F32.of_Z 1)) (F32.of_Z 2)
       [track_of_age 3; track_of_age 2] [box 0; box 1; box 2] 3 [0; 1] [0; 1; 2]
       empty_store = Ok tt s' /\
     matches s' = [mkMatch 1 0; mkMatch 0 1] /\
     unmatched_detections s' = [2] /\
     (exists dl, In (EvMetric [1] dl) (trace s')) /\
     (exists dl, In (EvMetric [0] dl) (trace s'))).
Proof.
  split.
  - destruct (cascade_staging diagonal_solver (constant_metric (F32.of_Z 1))
                (F32.of_Z 2) [track_of_age 1; track_of_age 2; track_of_age 3]
                [box 0] 3 [0; 1; 2] [0] empty_store) as (_ & _ & H).
    apply (H 0 1 2 0 (F32.of_Z 1)).
    + reflexivity.
    + reflexivity.
    + repeat constructor; unfold valid_index; simpl; lia.
    + reflexivity.
    + reflexivity.
    + reflexivity.
    + intros t _. reflexivity.
    + reflexivity.
    + intros cost. reflexivity.
    + lia.
  - eexists. split; [vm_compute; reflexivity|].
    split; [reflexivity|]. split; [reflexivity|].
    destruct (cascade_staging diagonal_solver (constant_metric (F32.of_Z 1))
                (F32.of_Z 2) [track_of_age 3; track_of_age 2]
                [box 0; box 1; box 2] 3 [0; 1] [0; 1; 2] empty_store)
      as (_ & H & _).
    destruct (H _ ltac:(vm_compute; reflexivity)) as (evs & Htr & _ & Hlev).
    cbn [trace empty_store app] in Htr.
    assert (Hvalid : Forall (valid_index [track_of_age 3; track_of_age 2]) [0; 1])
      by (repeat constructor; unfold valid_index; simpl; lia).
    split.
    + destruct (Hlev 1 ltac:(lia) Hvalid ltac:(discriminate)) as [(dl & Hdl)|He];
        [|discriminate].
      exists dl. rewrite Htr. exact Hdl.
    + destruct (Hlev 2 ltac:(lia) Hvalid ltac:(discriminate)) as [(dl & Hdl)|He];
        [|discriminate].
      exists dl. rewrite Htr. exact Hdl.
Defined.
